(** * palettepal: colour conversions and harmonies

    A shallow embedding of [palettepal/palette.py].  Python [int]s are [Z],
    Python [float]s are the kernel's binary64 numbers ([PrimFloat.float], the
    same IEEE 754 format and rounding as CPython's), exceptions are the left
    summand of a result type, and strings are [String.string]. *)

From Stdlib Require Import ZArith Floats String Ascii HexString List Bool Lia.
From Stdlib Require Import Reals Lra.
Import ListNotations.

Local Open Scope Z_scope.

(** ** Python values and exceptions *)

Module Py.

Inductive exn : Set :=
| ValueError
| OverflowError
| ZeroDivisionError
| ColorParseError.

Definition result (A : Type) : Type := (exn + A)%type.

Definition ret {A : Type} (a : A) : result A := inr a.
Definition raise {A : Type} (e : exn) : result A := inl e.

Definition bind {A B : Type} (m : result A) (k : A -> result B) : result B :=
  match m with
  | inl e => inl e
  | inr a => k a
  end.


(** [float(z)] for an int [z]: the nearest binary64 number, ties to even;
    [OverflowError] when [z] is too large. *)
Definition SF_of_int (z : Z) : spec_float :=
  binary_normalize prec emax z 0 false.

Definition float_of_int (z : Z) : result float :=
  match SF_of_int z with
  | S754_infinity _ => raise OverflowError
  | sf => ret (SF2Prim sf)
  end.

(** [a / b] for two ints: the correctly rounded quotient. *)
Definition SF_raw_int (z : Z) : spec_float :=
  match z with
  | Z0 => S754_zero false
  | Zpos p => S754_finite false p 0
  | Zneg p => S754_finite true p 0
  end.

Definition int_truediv (a b : Z) : result float :=
  if b =? 0 then raise ZeroDivisionError
  else match SFdiv prec emax (SF_raw_int a) (SF_raw_int b) with
       | S754_infinity _ => raise OverflowError
       | sf => ret (SF2Prim sf)
       end.

(** [x / y] for two floats. *)
Definition float_div (x y : float) : result float :=
  if (y =? 0)%float then raise ZeroDivisionError else ret (x / y)%float.

(** C's [fmod]: the exact remainder, with the sign of the dividend. *)
Definition SFfmod (x y : spec_float) : spec_float :=
  match x, y with
  | S754_nan, _ | _, S754_nan => S754_nan
  | S754_infinity _, _ => S754_nan
  | _, S754_zero _ => S754_nan
  | S754_zero _, _ => x
  | S754_finite _ _ _, S754_infinity _ => x
  | S754_finite sx mx ex, S754_finite _ my ey =>
      let ez := Z.min ex ey in
      let X := Z.shiftl (Zpos mx) (ex - ez) in
      let Y := Z.shiftl (Zpos my) (ey - ez) in
      binary_normalize prec emax (cond_Zopp sx (X mod Y)) ez sx
  end.

Definition fmod (x y : float) : float := SF2Prim (SFfmod (Prim2SF x) (Prim2SF y)).

(** [x % y] for two floats (CPython's [float_rem]): the result takes the sign
    of the divisor. *)
Definition float_mod (x y : float) : result float :=
  if (y =? 0)%float then raise ZeroDivisionError
  else
    let m := fmod x y in
    if (m =? 0)%float then ret (if (y <? 0)%float then (-0)%float else 0%float)
    else if xorb (y <? 0)%float (m <? 0)%float then ret (m + y)%float
    else ret m.

(** [int(x)] for a float [x]: truncation towards zero. *)
Definition int_of_float (x : float) : result Z :=
  match Prim2SF x with
  | S754_nan => raise ValueError
  | S754_infinity _ => raise OverflowError
  | S754_zero _ => ret 0
  | S754_finite s m e =>
      let a := match e with
               | Zneg p => Z.shiftr (Zpos m) (Zpos p)
               | _ => Z.shiftl (Zpos m) e
               end in
      ret (if s then - a else a)
  end.

(** [max(a, b)] and [min(a, b)] on floats: the first argument is kept unless
    the second is strictly greater (smaller). *)
Definition float_max (a b : float) : float := if (a <? b)%float then b else a.
Definition float_min (a b : float) : float := if (b <? a)%float then b else a.

End Py.

Import Py.

Notation "x <- m ;; k" := (Py.bind m (fun x => k))
  (at level 61, m at next level, right associativity).
Notation "' pat <- m ;; k" := (Py.bind m (fun x => match x with pat => k end))
  (at level 61, pat pattern, m at next level, right associativity).

(** ** The standard library's [colorsys] *)

Module colorsys.

Definition ONE_THIRD : float := Eval vm_compute in (1 / 3)%float.
Definition ONE_SIXTH : float := Eval vm_compute in (1 / 6)%float.
Definition TWO_THIRD : float := Eval vm_compute in (2 / 3)%float.

Definition rgb_to_hls (r g b : float) : result (float * float * float) :=
  let maxc := float_max (float_max r g) b in
  let minc := float_min (float_min r g) b in
  let sumc := (maxc + minc)%float in
  let rangec := (maxc - minc)%float in
  l <- float_div sumc 2 ;;
  if (minc =? maxc)%float then ret (0%float, l, 0%float)
  else
    s <- (if (l <=? 0.5)%float then float_div rangec sumc
          else float_div rangec (2 - maxc - minc)%float) ;;
    rc <- float_div (maxc - r)%float rangec ;;
    gc <- float_div (maxc - g)%float rangec ;;
    bc <- float_div (maxc - b)%float rangec ;;
    let h := if (r =? maxc)%float then (bc - gc)%float
             else if (g =? maxc)%float then (2 + rc - bc)%float
             else (4 + gc - rc)%float in
    h6 <- float_div h 6 ;;
    h' <- float_mod h6 1 ;;
    ret (h', l, s).

Definition _v (m1 m2 hue : float) : result float :=
  hue <- float_mod hue 1 ;;
  if (hue <? ONE_SIXTH)%float then ret (m1 + (m2 - m1) * hue * 6)%float
  else if (hue <? 0.5)%float then ret m2
  else if (hue <? TWO_THIRD)%float then ret (m1 + (m2 - m1) * (TWO_THIRD - hue) * 6)%float
  else ret m1.

Definition hls_to_rgb (h l s : float) : result (float * float * float) :=
  if (s =? 0)%float then ret (l, l, l)
  else
    let m2 := if (l <=? 0.5)%float then (l * (1 + s))%float
              else (l + s - l * s)%float in
    let m1 := (2 * l - m2)%float in
    r <- _v m1 m2 (h + ONE_THIRD)%float ;;
    g <- _v m1 m2 h ;;
    b <- _v m1 m2 (h - ONE_THIRD)%float ;;
    ret (r, g, b).

End colorsys.

(** ** Conversions between RGB and HSL *)

Record HSL (A : Type) : Type := mkHSL { hsl_h : A; hsl_s : A; hsl_l : A }.
Record RGB (A : Type) : Type := mkRGB { rgb_r : A; rgb_g : A; rgb_b : A }.
Arguments mkHSL {A} _ _ _.
Arguments hsl_h {A} _.
Arguments hsl_s {A} _.
Arguments hsl_l {A} _.
Arguments mkRGB {A} _ _ _.
Arguments rgb_r {A} _.
Arguments rgb_g {A} _.
Arguments rgb_b {A} _.

(** [int(x * k + .5)] *)
Definition round_scaled (x k : float) : result Z :=
  int_of_float (x * k + 0.5)%float.

Definition rgb_to_hsl (r g b : Z) : result (HSL Z) :=
  fr <- int_truediv r 255 ;;
  fg <- int_truediv g 255 ;;
  fb <- int_truediv b 255 ;;
  '(h, l, s) <- colorsys.rgb_to_hls fr fg fb ;;
  hi <- round_scaled h 360 ;;
  si <- round_scaled s 100 ;;
  li <- round_scaled l 100 ;;
  ret (mkHSL hi si li).


(** Python numbers held by a [Color]: the annotations say [float], the
    callers pass ints as well, and arithmetic follows Python's coercion. *)
Inductive num : Set :=
| PyInt (z : Z)
| PyFloat (f : float).

Definition to_float (x : num) : result float :=
  match x with
  | PyInt z => float_of_int z
  | PyFloat f => ret f
  end.

Definition num_add (x y : num) : result num :=
  match x, y with
  | PyInt a, PyInt b => ret (PyInt (a + b))
  | _, _ => fx <- to_float x ;; fy <- to_float y ;; ret (PyFloat (fx + fy))
  end.

Definition num_mul (x y : num) : result num :=
  match x, y with
  | PyInt a, PyInt b => ret (PyInt (a * b))
  | _, _ => fx <- to_float x ;; fy <- to_float y ;; ret (PyFloat (fx * fy))
  end.

Definition num_mod (x y : num) : result num :=
  match x, y with
  | PyInt a, PyInt b =>
      if b =? 0 then raise ZeroDivisionError else ret (PyInt (a mod b))
  | _, _ => fx <- to_float x ;; fy <- to_float y ;;
            m <- float_mod fx fy ;; ret (PyFloat m)
  end.

Definition num_truediv (x y : num) : result float :=
  match x, y with
  | PyInt a, PyInt b => int_truediv a b
  | _, _ => fx <- to_float x ;; fy <- to_float y ;; float_div fx fy
  end.

(** [z < f] and [f < z] between an int and a float compare the exact values. *)
Definition int_lt_SF (z : Z) (f : spec_float) : bool :=
  match f with
  | S754_nan => false
  | S754_infinity s => negb s
  | S754_zero _ => z <? 0
  | S754_finite s m e =>
      match e with
      | Zneg p => Z.shiftl z (Zpos p) <? cond_Zopp s (Zpos m)
      | _ => z <? cond_Zopp s (Z.shiftl (Zpos m) e)
      end
  end.

Definition SF_lt_int (f : spec_float) (z : Z) : bool :=
  match f with
  | S754_nan => false
  | S754_infinity s => s
  | S754_zero _ => 0 <? z
  | S754_finite s m e =>
      match e with
      | Zneg p => cond_Zopp s (Zpos m) <? Z.shiftl z (Zpos p)
      | _ => cond_Zopp s (Z.shiftl (Zpos m) e) <? z
      end
  end.

Definition num_ltb (x y : num) : bool :=
  match x, y with
  | PyInt a, PyInt b => a <? b
  | PyFloat f, PyFloat g => (f <? g)%float
  | PyInt a, PyFloat g => int_lt_SF a (Prim2SF g)
  | PyFloat f, PyInt b => SF_lt_int (Prim2SF f) b
  end.

Definition num_leb (x y : num) : bool :=
  match x, y with
  | PyInt a, PyInt b => a <=? b
  | PyFloat f, PyFloat g => (f <=? g)%float
  | PyInt a, PyFloat g =>
      match Prim2SF g with S754_nan => false | sf => negb (SF_lt_int sf a) end
  | PyFloat f, PyInt b =>
      match Prim2SF f with S754_nan => false | sf => negb (int_lt_SF b sf) end
  end.

(** [max(a, b)], [min(a, b)]: the builtin keeps the first argument unless the
    second compares strictly greater (smaller). *)
Definition num_max (a b : num) : num := if num_ltb a b then b else a.
Definition num_min (a b : num) : num := if num_ltb b a then b else a.

Definition hsl_to_rgb (h s l : num) : result (RGB Z) :=
  fh <- num_truediv h (PyInt 360) ;;
  fl <- num_truediv l (PyInt 100) ;;
  fs <- num_truediv s (PyInt 100) ;;
  '(r, g, b) <- colorsys.hls_to_rgb fh fl fs ;;
  ri <- round_scaled r 255 ;;
  gi <- round_scaled g 255 ;;
  bi <- round_scaled b 255 ;;
  ret (mkRGB ri gi bi).

(** ** RGB and RYB by trilinear interpolation *)

Definition corner : Set := (float * float * float)%type.

Definition rgb3 (a b c : float) : corner := (a, b, c).

Record table : Set := mkTable {
  f000 : corner; f001 : corner; f010 : corner; f011 : corner;
  f100 : corner; f101 : corner; f110 : corner; f111 : corner }.

Definition GOSSET_RYB_TO_RGB : table :=
  mkTable (rgb3 1.0 1.0 1.0) (rgb3 1.0 0.0 0.0) (rgb3 1.0 1.0 0.0) (rgb3 0.163 0.373 0.6)
          (rgb3 0.5 0.0 0.5) (rgb3 0.0 0.66 0.2) (rgb3 1.0 0.5 0.0) (rgb3 0.2 0.094 0.0).

Definition IRISSON_RYB_TO_RGB : table :=
  mkTable (rgb3 1.0 1.0 1.0) (rgb3 0.163 0.373 0.6) (rgb3 1.0 1.0 0.0) (rgb3 0.0 0.66 0.2)
          (rgb3 1.0 0.0 0.0) (rgb3 0.5 0.5 0.9) (rgb3 1.0 0.5 0.0) (rgb3 0.0 0.0 0.0).

Definition RGB_TO_RYB : table :=
  mkTable (rgb3 1.0 1.0 1.0) (rgb3 0.0 0.0 1.0) (rgb3 0.0 1.0 0.483) (rgb3 0.0 0.053 0.21)
          (rgb3 1.0 0.0 0.0) (rgb3 0.309 0.0 0.469) (rgb3 0.0 1.0 0.0) (rgb3 0.0 0.0 0.0).

Definition ch0 (c : corner) : float := fst (fst c).
Definition ch1 (c : corner) : float := snd (fst c).
Definition ch2 (c : corner) : float := snd c.

(** One output channel of [convert]: the left-to-right sum of the eight
    weighted corner values. *)
Definition mix (ch : corner -> float) (t : table)
    (c000 c001 c010 c011 c100 c101 c110 c111 : float) : float :=
  (c000 * ch (f000 t) + c001 * ch (f001 t) + c010 * ch (f010 t)
   + c011 * ch (f011 t) + c100 * ch (f100 t) + c101 * ch (f101 t)
   + c110 * ch (f110 t) + c111 * ch (f111 t))%float.

Definition convert (r y b : float) (t : table) : corner :=
  let ri := (1 - r)%float in
  let yi := (1 - y)%float in
  let bi := (1 - b)%float in
  let c000 := (ri * yi * bi)%float in
  let c001 := (ri * yi * b)%float in
  let c010 := (ri * y * bi)%float in
  let c011 := (ri * y * b)%float in
  let c100 := (r * yi * bi)%float in
  let c101 := (r * yi * b)%float in
  let c110 := (r * y * bi)%float in
  let c111 := (r * y * b)%float in
  (mix ch0 t c000 c001 c010 c011 c100 c101 c110 c111,
   mix ch1 t c000 c001 c010 c011 c100 c101 c110 c111,
   mix ch2 t c000 c001 c010 c011 c100 c101 c110 c111).

Definition convert_255 (t : table) (c : RGB Z) : result (RGB Z) :=
  r <- int_truediv (rgb_r c) 255 ;;
  y <- int_truediv (rgb_g c) 255 ;;
  b <- int_truediv (rgb_b c) 255 ;;
  let out := convert r y b t in
  r' <- round_scaled (ch0 out) 255 ;;
  g' <- round_scaled (ch1 out) 255 ;;
  b' <- round_scaled (ch2 out) 255 ;;
  ret (mkRGB r' g' b').

Definition ryb_to_rgb (ryb : RGB Z) : result (RGB Z) :=
  convert_255 IRISSON_RYB_TO_RGB ryb.

Definition rgb_to_ryb (rgb : RGB Z) : result (RGB Z) :=
  convert_255 RGB_TO_RYB rgb.

(** ** Hexadecimal strings *)

Local Open Scope string_scope.

(** [s.rjust(w, '0')] *)
Definition zero_pad (w : nat) (s : string) : string :=
  String.concat "" (repeat "0" (w - String.length s)) ++ s.

(** [format(z, '02x')]: lowercase digits, zero-padded to width 2, the sign
    counted in the width. *)
Definition format_02x (z : Z) : string :=
  match z with
  | Z0 => "00"
  | Zpos p => zero_pad 2 (HexString.Raw.of_pos p "")
  | Zneg p => "-" ++ zero_pad 1 (HexString.Raw.of_pos p "")
  end.

Definition rgb_to_hex (r g b : Z) : string :=
  "#" ++ format_02x r ++ format_02x g ++ format_02x b.

(** [s.lstrip('#')]: every leading ['#'] is removed. *)
Fixpoint lstrip_hash (s : string) : string :=
  match s with
  | String c s' => if Ascii.eqb c "#" then lstrip_hash s' else s
  | EmptyString => s
  end.

(** [int(s, 16)] on ASCII text, after CPython's [PyLong_FromString]: blanks
    around, an optional sign, an optional [0x] prefix, then hex digits with
    single underscores between them. *)
Definition is_space (c : ascii) : bool :=
  let n := N_of_ascii c in
  (N.eqb n 32 || (N.leb 9 n && N.leb n 13))%bool.

Fixpoint skip_space (s : string) : string :=
  match s with
  | String c s' => if is_space c then skip_space s' else s
  | EmptyString => s
  end.

Fixpoint scan16 (s : string) (acc : Z) (seen prev_us : bool)
    : option (Z * bool * string) :=
  match s with
  | String c s' =>
      if Ascii.eqb c "_" then
        if prev_us then None else scan16 s' acc seen true
      else
        match HexString.ascii_to_digit c with
        | Some d => scan16 s' (16 * acc + Z.of_N d)%Z true false
        | None => if prev_us then None else Some (acc, seen, s)
        end
  | EmptyString => if prev_us then None else Some (acc, seen, s)
  end.

Definition strip_0x (s : string) : string :=
  match s with
  | String "0" (String x rest) =>
      if (Ascii.eqb x "x" || Ascii.eqb x "X")%bool then
        match rest with
        | String "_" rest' => rest'
        | _ => rest
        end
      else s
  | _ => s
  end.

Definition parse16 (s : string) : option Z :=
  let s1 := skip_space s in
  let '(neg, s2) :=
    match s1 with
    | String "+" t => (false, t)
    | String "-" t => (true, t)
    | _ => (false, s1)
    end in
  let s3 := strip_0x s2 in
  match s3 with
  | String "_" _ => None
  | _ =>
      match scan16 s3 0%Z false false with
      | Some (v, true, rest) =>
          match skip_space rest with
          | EmptyString => Some (if neg then (- v)%Z else v)
          | _ => None
          end
      | _ => None
      end
  end.

Definition int_base16 (s : string) : result Z :=
  match parse16 s with
  | Some v => ret v
  | None => raise ValueError
  end.

Definition hex_to_rgb (color : string) : result (RGB Z) :=
  let color := lstrip_hash color in
  r <- int_base16 (substring 0 2 color) ;;
  g <- int_base16 (substring 2 2 color) ;;
  b <- int_base16 (substring 4 2 color) ;;
  ret (mkRGB r g b).

Local Close Scope string_scope.

(** ** The [Color] class *)

Record Color : Set := mkColor {
  _hsl : HSL num;
  _ryb : bool }.

Definition Color_new (h s l : num) (ryb : bool) : Color :=
  mkColor (mkHSL h s l) ryb.

Definition hsl (c : Color) : HSL num := _hsl c.

Definition rgb (c : Color) : result (RGB Z) :=
  v <- hsl_to_rgb (hsl_h (_hsl c)) (hsl_s (_hsl c)) (hsl_l (_hsl c)) ;;
  if _ryb c then ryb_to_rgb v else ret v.

Definition ryb (c : Color) : result (RGB Z) :=
  v <- hsl_to_rgb (hsl_h (_hsl c)) (hsl_s (_hsl c)) (hsl_l (_hsl c)) ;;
  if negb (_ryb c) then rgb_to_ryb v else ret v.

Definition hsl_rgbspace (c : Color) : result (HSL Z) :=
  v <- rgb c ;; rgb_to_hsl (rgb_r v) (rgb_g v) (rgb_b v).

Definition hex (c : Color) : result string :=
  v <- rgb c ;; ret (rgb_to_hex (rgb_r v) (rgb_g v) (rgb_b v)).

(** [Color.rgbnorm]: the RGB channels divided by 255. *)
Definition rgbnorm (c : Color) : result (RGB float) :=
  v <- rgb c ;;
  r <- int_truediv (rgb_r v) 255 ;;
  g <- int_truediv (rgb_g v) 255 ;;
  b <- int_truediv (rgb_b v) 255 ;;
  ret (mkRGB r g b).

(** [Color.hslnorm]: hue over 360, saturation and lightness over 100. *)
Definition hslnorm (c : Color) : result (HSL float) :=
  h <- num_truediv (hsl_h (_hsl c)) (PyInt 360) ;;
  s <- num_truediv (hsl_s (_hsl c)) (PyInt 100) ;;
  l <- num_truediv (hsl_l (_hsl c)) (PyInt 100) ;;
  ret (mkHSL h s l).

Definition from_rgb (r g b : Z) (ryb : bool) : result Color :=
  v <- (if ryb then rgb_to_ryb (mkRGB r g b) else ret (mkRGB r g b)) ;;
  x <- rgb_to_hsl (rgb_r v) (rgb_g v) (rgb_b v) ;;
  ret (Color_new (PyInt (hsl_h x)) (PyInt (hsl_s x)) (PyInt (hsl_l x)) ryb).

Definition from_hex (color : string) : result Color :=
  v <- hex_to_rgb color ;;
  from_rgb (rgb_r v) (rgb_g v) (rgb_b v) false.

Definition rotate (c : Color) (theta : num) : result Color :=
  t <- num_add (hsl_h (_hsl c)) theta ;;
  h <- num_mod t (PyInt 360) ;;
  ret (Color_new h (hsl_s (_hsl c)) (hsl_l (_hsl c)) (_ryb c)).

(** [min(max(x, 0), 100)] *)
Definition clamp_0_100 (x : num) : num :=
  num_min (num_max x (PyInt 0)) (PyInt 100).

Definition lighten (c : Color) (add mult : num) : result Color :=
  t <- num_add (hsl_l (hsl c)) add ;;
  l <- num_mul mult t ;;
  ret (Color_new (hsl_h (hsl c)) (hsl_s (hsl c)) (clamp_0_100 l) (_ryb c)).

Definition saturate (c : Color) (add mult : num) : result Color :=
  t <- num_add (hsl_s (hsl c)) add ;;
  s <- num_mul mult t ;;
  ret (Color_new (hsl_h (hsl c)) (clamp_0_100 s) (hsl_l (hsl c)) (_ryb c)).

(** A tuple of colours: every element is evaluated, left to right. *)
Fixpoint tuple_of (l : list (result Color)) : result (list Color) :=
  match l with
  | [] => ret []
  | m :: l' => c <- m ;; cs <- tuple_of l' ;; ret (c :: cs)
  end.

Definition complement (c : Color) : result (list Color) :=
  tuple_of [rotate c (PyInt 180)].

Definition triad (c : Color) : result (list Color) :=
  tuple_of [rotate c (PyInt 120); rotate c (PyInt (-120))].





Definition shades (c : Color) : result (list Color) :=
  tuple_of [lighten c (PyInt 0) (PyFloat 0.5);
            lighten c (PyInt (-20)) (PyInt 1);
            lighten c (PyInt 20) (PyInt 1);
            lighten c (PyInt 0) (PyFloat 1.5)].

(** ** The slider of [slider.py]

    [Slider.action_increment] as an update of the [_value] field (the
    redraw and the message it posts are not modelled): the value moves by
    [delta], wraps modulo [maximum + 1] when the slider wraps, and is then
    clamped to [0, maximum]. *)
Record Slider : Set := mkSlider {
  _value : Z;
  _maximum : Z;
  _wrap : bool }.

Definition action_increment (sl : Slider) (delta : Z) : result Slider :=
  let v := _value sl + delta in
  v <- (if _wrap sl then
          if _maximum sl + 1 =? 0 then raise ZeroDivisionError
          else ret (v mod (_maximum sl + 1))
        else ret v) ;;
  let v := Z.min v (_maximum sl) in
  let v := Z.max 0 v in
  ret (mkSlider v (_maximum sl) (_wrap sl)).

(** One channel of the red, green or blue gradient in
    [Slider._makegradient]: [int(i/width*255 + .5)]. *)
Definition fade_byte (i width : Z) : result Z :=
  f <- int_truediv i width ;;
  round_scaled f 255.

(** The conversion to HSL followed by the conversion back to RGB. *)
Definition rgb_hsl_roundtrip (r g b : Z) : result (RGB Z) :=
  x <- rgb_to_hsl r g b ;;
  hsl_to_rgb (PyInt (hsl_h x)) (PyInt (hsl_s x)) (PyInt (hsl_l x)).

(** ** Predicates used in the statements *)

(** A lowercase hexadecimal digit, [0-9a-f]. *)
Definition lower_hex (c : ascii) : bool :=
  let n := N_of_ascii c in
  ((N.leb 48 n && N.leb n 57) || (N.leb 97 n && N.leb n 102))%bool.

(** The shape [#rrggbb]: a hash sign and six lowercase hex digits. *)
Definition is_hex_color (s : string) : bool :=
  match s with
  | String c rest =>
      (Ascii.eqb c "#" && Nat.eqb (String.length rest) 6
       && forallb lower_hex (list_ascii_of_string rest))%bool
  | EmptyString => false
  end.

(** The value of two hexadecimal digits of either case. *)
Definition byte_of (a b : ascii) : option Z :=
  match HexString.ascii_to_digit a, HexString.ascii_to_digit b with
  | Some x, Some y => Some (16 * Z.of_N x + Z.of_N y)
  | _, _ => None
  end.

Definition num_is_nan (x : num) : bool :=
  match x with
  | PyInt _ => false
  | PyFloat f => match Prim2SF f with S754_nan => true | _ => false end
  end.

(** [0 <= x <= 100] *)
Definition in_0_100 (x : num) : bool :=
  (num_leb (PyInt 0) x && num_leb x (PyInt 100))%bool.

Definition all_bytes : list nat := seq 0 256.

(** Two hexadecimal digits parse to their value. *)
Definition pair_parses (a b : ascii) : bool :=
  match byte_of a b with
  | Some v =>
      match int_base16 (String a (String b EmptyString)) with
      | inr w => (w =? v) && (0 <=? v) && (v <=? 255)
      | inl _ => false
      end
  | None => true
  end.

(** A byte formats to two lowercase digits that parse back to it. *)
Definition byte_formats (z : Z) : bool :=
  match format_02x z with
  | String a (String b EmptyString) =>
      lower_hex a && lower_hex b
      && match byte_of a b with Some v => v =? z | None => false end
  | _ => false
  end.

(** ** Real values of floats

    [2^e] as a real number. *)
Definition pow2 (e : Z) : R := powerRZ 2 e.

(** The real number a finite float stands for. *)
Definition SF_value (f : spec_float) : R :=
  match f with
  | S754_finite s m e => (IZR (cond_Zopp s (Zpos m)) * pow2 e)%R
  | _ => 0%R
  end.

(** Neither an infinity nor NaN. *)
Definition SF_finite (f : spec_float) : Prop :=
  match f with
  | S754_finite _ _ _ | S754_zero _ => True
  | _ => False
  end.

(** [x] lies in the interval of the mantissa [m] at exponent [e]. *)
Definition bracket (m e : Z) (x : R) : Prop :=
  (0 <= m)%Z /\ (IZR m * pow2 e <= x < (IZR m + 1) * pow2 e)%R.

(** [x] with the sign bit [s]. *)
Definition signed (s : bool) (x : R) : R := if s then (- x)%R else x.

(** The absolute rounding error allowed on results of size at most 1024. *)
Definition ulp_bound : R := pow2 (-42).

(** The real value and the finiteness of a primitive float. *)
Definition FV (x : float) : R := SF_value (Prim2SF x).

Definition FFin (x : float) : Prop := SF_finite (Prim2SF x).

(** The float [x] is finite and within [k] rounding errors of the real [v]. *)
Definition near (x : float) (v k : R) : Prop :=
  FFin x /\ (Rabs (FV x - v) <= k * ulp_bound)%R.

(** Every entry of a corner table is a finite float in [0,1]. *)
Definition unit_float (c : float) : Prop :=
  FFin c /\ (0 <= FV c <= 1)%R.

Definition unit_corner (c : corner) : Prop :=
  unit_float (ch0 c) /\ unit_float (ch1 c) /\ unit_float (ch2 c).

Definition unit_table (t : table) : Prop :=
  unit_corner (f000 t) /\ unit_corner (f001 t) /\ unit_corner (f010 t)
  /\ unit_corner (f011 t) /\ unit_corner (f100 t) /\ unit_corner (f101 t)
  /\ unit_corner (f110 t) /\ unit_corner (f111 t).

(** [f] is the float of the byte [k]: [k / 255]. *)
Definition chan (f : float) (k : Z) : Prop :=
  0 <= k <= 255 /\ int_truediv k 255 = ret f.

(** A grey triple comes back as a grey triple at most one unit away. *)
Definition grey_ok (k : Z) : bool :=
  match rgb_hsl_roundtrip k k k with
  | inr v =>
      (rgb_r v =? rgb_g v) && (rgb_g v =? rgb_b v)
      && (Z.abs (rgb_r v - k) <=? 1)
  | inl _ => false
  end.

(** Every channel is a byte. *)
Definition is_bytes (v : RGB Z) : Prop :=
  0 <= rgb_r v <= 255 /\ 0 <= rgb_g v <= 255 /\ 0 <= rgb_b v <= 255.

(** Hue in [0,360], saturation and lightness in [0,100]. *)
Definition is_hsl (v : HSL Z) : Prop :=
  0 <= hsl_h v <= 360 /\ 0 <= hsl_s v <= 100 /\ 0 <= hsl_l v <= 100.

(** A colour built from an integer HSL triple. *)
Definition int_color (v : HSL Z) (ryb : bool) : Color :=
  Color_new (PyInt (hsl_h v)) (PyInt (hsl_s v)) (PyInt (hsl_l v)) ryb.

(** A grey triple has hue 0, saturation 0 and the rounded percentage of
    its level as lightness. *)
Definition grey_hsl_ok (k : Z) : bool :=
  match rgb_to_hsl k k k with
  | inr v =>
      (hsl_h v =? 0) && (hsl_s v =? 0) && (hsl_l v =? (200 * k + 255) / 510)
  | inl _ => false
  end.

(** Trilinear interpolation of eight corner values. *)
Definition trilinear (x y z v000 v001 v010 v011 v100 v101 v110 v111 : R) : R :=
  ((1 - x) * (1 - y) * (1 - z) * v000 + (1 - x) * (1 - y) * z * v001
   + (1 - x) * y * (1 - z) * v010 + (1 - x) * y * z * v011
   + x * (1 - y) * (1 - z) * v100 + x * (1 - y) * z * v101
   + x * y * (1 - z) * v110 + x * y * z * v111)%R.

(** The exact interpolant of one channel of a table. *)
Definition interpolant (ch : corner -> float) (t : table) (x y z : R) : R :=
  trilinear x y z (FV (ch (f000 t))) (FV (ch (f001 t))) (FV (ch (f010 t)))
    (FV (ch (f011 t))) (FV (ch (f100 t))) (FV (ch (f101 t)))
    (FV (ch (f110 t))) (FV (ch (f111 t))).

(** The hue ramp of [colorsys._v] on one turn: 0 at 0, up to 1 on
    [1/6, 1/2], back to 0 from 2/3 on. *)
Definition trapezoid (theta : R) : R :=
  Rmax 0 (Rmin 1 (2 - 6 * Rabs (theta - 1 / 3))).

(** [min(l, 1 - l)] *)
Definition tent (l : R) : R := Rmin l (1 - l).

(** The hue of [rgb_to_hls] inverts: with the channels scaled to
    [x = (c - min) / (max - min)] and [eta] six times the hue before the
    reduction modulo one, the ramp at the channel's angle gives the channel
    back. *)
Definition sextant (xr xg xb eta : R) : Prop :=
  (xr = 1 /\ eta = xg - xb /\ (xg = 0 \/ xb = 0))%R
  \/ (xg = 1 /\ eta = 2 + xb - xr /\ (xr = 0 \/ xb = 0))%R
  \/ (xb = 1 /\ eta = 4 + xr - xg /\ (xr = 0 \/ xg = 0))%R.

Definition reduced (x sigma c : R) : Prop :=
  exists k : Z,
    (0 <= x + sigma - IZR k <= 1)%R /\ trapezoid (x + sigma - IZR k) = c.

(** [theta] is the angle [x + sigma] brought into one turn, up to the
    rounding of the float additions. *)
Definition on_turn (x sigma theta : R) : Prop :=
  exists k : Z,
    (0 <= theta <= 1)%R
    /\ (Rabs (theta - (x + sigma - IZR k)) <= 12 * ulp_bound)%R.

(** * Properties *)

(** ** Rounding error of the binary64 operations *)

Section Pow2.
Local Open Scope R_scope.

Lemma pow2_pos e : 0 < pow2 e.
Proof. apply powerRZ_lt. lra. Qed.

Lemma pow2_add a b : pow2 (a + b) = pow2 a * pow2 b.
Proof. apply powerRZ_add. lra. Qed.

Lemma pow2_0 : pow2 0 = 1.
Proof. reflexivity. Qed.

Lemma pow2_1 : pow2 1 = 2.
Proof. unfold pow2. simpl. lra. Qed.

Lemma pow2_succ e : pow2 (e + 1) = 2 * pow2 e.
Proof. rewrite pow2_add, pow2_1. lra. Qed.

Lemma pow2_IZR n : (0 <= n)%Z -> pow2 n = IZR (2 ^ n).
Proof.
  intros Hn. unfold pow2.
  rewrite <- (Z2Nat.id n Hn) at 1 2.
  rewrite <- pow_powerRZ, <- pow_IZR. reflexivity.
Qed.

Lemma pow2_ge_1 n : (0 <= n)%Z -> 1 <= pow2 n.
Proof.
  intros Hn. rewrite pow2_IZR by assumption.
  apply IZR_le. assert (0 < 2 ^ n)%Z by (apply Z.pow_pos_nonneg; lia). lia.
Qed.

Lemma pow2_le a b : (a <= b)%Z -> pow2 a <= pow2 b.
Proof.
  intros H. replace b with (a + (b - a))%Z by lia.
  rewrite pow2_add.
  pose proof (pow2_pos a). pose proof (pow2_ge_1 (b - a) ltac:(lia)).
  nra.
Qed.

Lemma pow2_lt a b : (a < b)%Z -> pow2 a < pow2 b.
Proof.
  intros H. replace b with (a + 1 + (b - a - 1))%Z by lia.
  rewrite pow2_add, pow2_succ.
  pose proof (pow2_pos a). pose proof (pow2_ge_1 (b - a - 1) ltac:(lia)).
  nra.
Qed.

Lemma pow2_neg e : pow2 (- e) = / pow2 e.
Proof. apply powerRZ_neg'. Qed.

End Pow2.

(** Binary digits *)
Lemma digits2_pos_bounds (p : positive) :
  2 ^ (Zpos (digits2_pos p) - 1) <= Zpos p < 2 ^ Zpos (digits2_pos p).
Proof.
  induction p as [p IH|p IH|]; cbn [digits2_pos].
  - rewrite Pos2Z.inj_succ.
    replace (Z.succ (Zpos (digits2_pos p)) - 1) with (Zpos (digits2_pos p) - 1 + 1) by lia.
    rewrite Z.pow_succ_r by lia. rewrite Z.pow_add_r by lia. simpl (2 ^ 1). lia.
  - rewrite Pos2Z.inj_succ.
    replace (Z.succ (Zpos (digits2_pos p)) - 1) with (Zpos (digits2_pos p) - 1 + 1) by lia.
    rewrite Z.pow_succ_r by lia. rewrite Z.pow_add_r by lia. simpl (2 ^ 1). lia.
  - simpl. lia.
Qed.

Lemma Zdigits2_bounds (m : Z) :
  0 < m -> 2 ^ (Zdigits2 m - 1) <= m < 2 ^ Zdigits2 m.
Proof.
  destruct m as [|p|p]; try lia. intros _. apply digits2_pos_bounds.
Qed.

Lemma Zdigits2_nonneg (m : Z) : 0 <= Zdigits2 m.
Proof. destruct m; simpl; lia. Qed.

Lemma bracket_shr_1 (mrs : shr_record) (e : Z) (x : R) :
  bracket (shr_m mrs) e x -> bracket (shr_m (shr_1 mrs)) (e + 1) x.
Proof.
  destruct mrs as [m r s]. unfold bracket. cbn [shr_m].
  intros [Hm Hx]. rewrite pow2_succ.
  pose proof (pow2_pos e) as He.
  destruct m as [|[p|p|]|]; cbn [shr_1 shr_m]; try lia.
  - split; [lia|]. lra.
  - split; [lia|]. rewrite Pos2Z.inj_xI, plus_IZR, mult_IZR in Hx. lra.
  - split; [lia|]. rewrite Pos2Z.inj_xO, mult_IZR in Hx. lra.
  - split; [lia|]. lra.
Qed.

Lemma bracket_iter_shr_1 (x : R) (p : positive) :
  forall mrs e, bracket (shr_m mrs) e x ->
                bracket (shr_m (SpecFloat.iter_pos shr_1 p mrs)) (e + Zpos p) x.
Proof.
  induction p as [p IH|p IH|]; intros mrs e H; cbn [SpecFloat.iter_pos].
  - apply bracket_shr_1 in H. apply IH in H. apply IH in H.
    replace (e + Zpos p~1) with (e + 1 + Zpos p + Zpos p) by lia. exact H.
  - apply IH in H. apply IH in H.
    replace (e + Zpos p~0) with (e + Zpos p + Zpos p) by lia. exact H.
  - apply bracket_shr_1. exact H.
Qed.

Lemma bracket_shr (x : R) (mrs : shr_record) (e n : Z) :
  bracket (shr_m mrs) e x ->
  bracket (shr_m (fst (shr mrs e n))) (snd (shr mrs e n)) x
  /\ snd (shr mrs e n) = e + Z.max n 0
  /\ (n <= 0 -> fst (shr mrs e n) = mrs).
Proof.
  intros H. destruct n as [|p|p]; cbn [shr fst snd].
  - split; [exact H|]. split; [lia|reflexivity].
  - split; [apply bracket_iter_shr_1; exact H|]. split; lia.
  - split; [exact H|]. split; [lia|reflexivity].
Qed.

Lemma shr_m_of_loc (m : Z) (l : location) : shr_m (shr_record_of_loc m l) = m.
Proof. destruct l as [|[]]; reflexivity. Qed.

Lemma loc_of_loc (m : Z) (l : location) :
  loc_of_shr_record (shr_record_of_loc m l) = l.
Proof. destruct l as [|[]]; reflexivity. Qed.

Lemma round_nearest_even_cases (m : Z) (l : location) :
  round_nearest_even m l = m \/ round_nearest_even m l = m + 1.
Proof.
  destruct l as [|[]]; cbn [round_nearest_even]; auto.
  destruct (Z.even m); auto.
Qed.

Lemma bracket_unique (m1 m2 e : Z) (x : R) :
  bracket m1 e x -> bracket m2 e x -> m1 = m2.
Proof.
  intros [_ H1] [_ H2]. pose proof (pow2_pos e) as He.
  assert (IZR m1 < IZR m2 + 1)%R by nra.
  assert (IZR m2 < IZR m1 + 1)%R by nra.
  rewrite <- plus_IZR in *. apply lt_IZR in H, H0. lia.
Qed.

Lemma bracket_exact (m e : Z) : 0 <= m -> bracket m e (IZR m * pow2 e).
Proof.
  intros Hm. split; [exact Hm|]. pose proof (pow2_pos e). lra.
Qed.

Lemma pow2_le_inv (a b : Z) : (pow2 a <= pow2 b)%R -> a <= b.
Proof.
  intros H. destruct (Z_lt_le_dec b a) as [Hlt|]; [|assumption].
  apply pow2_lt in Hlt. lra.
Qed.

Lemma pow2_lt_inv (a b : Z) : (pow2 a < pow2 b)%R -> a < b.
Proof.
  intros H. destruct (Z_lt_le_dec a b) as [|Hle]; [assumption|].
  apply pow2_le in Hle. lra.
Qed.

Lemma fexp_eq (z : Z) : fexp prec emax z = Z.max (z - 53) (-1074).
Proof. reflexivity. Qed.

Lemma IZR_bracket_zero (m e : Z) : bracket m e 0 -> m = 0.
Proof.
  intros [Hm [H _]]. pose proof (pow2_pos e) as He.
  assert (IZR m <= 0)%R by nra.
  apply le_IZR in H0. lia.
Qed.

Lemma second_shift_exact (m1 e' : Z) :
  0 <= m1 <= 2 ^ 53 -> -1074 <= e' ->
  let p := shr (shr_record_of_loc m1 loc_Exact) e'
               (fexp prec emax (Zdigits2 m1 + e') - e') in
  0 <= shr_m (fst p)
  /\ (IZR (shr_m (fst p)) * pow2 (snd p) = IZR m1 * pow2 e')%R
  /\ (0 < shr_m (fst p) -> snd p <= e' + 1).
Proof.
  intros Hm He. rewrite fexp_eq. cbv zeta.
  destruct (Z.eq_dec m1 0) as [->|Hnz].
  - cbn [Zdigits2 shr_record_of_loc].
    destruct (bracket_shr 0 (Build_shr_record 0 false false) e'
                (Z.max (0 + e' - 53) (-1074) - e')) as (B & _ & _).
    { cbn [shr_m]. split; [lia|]. pose proof (pow2_pos e'). lra. }
    apply IZR_bracket_zero in B. rewrite B.
    split; [lia|]. split; [lra|lia].
  - destruct (Z.eq_dec m1 (2 ^ 53)) as [->|Hne].
    + change (Zdigits2 (2 ^ 53)) with 54.
      replace (Z.max (54 + e' - 53) (-1074) - e') with 1 by lia.
      cbn [shr_record_of_loc shr fst snd SpecFloat.iter_pos].
      change (2 ^ 53) with 9007199254740992.
      cbn [shr_1 shr_m].
      split; [lia|]. split; [|lia].
      rewrite pow2_succ. lra.
    + assert (Hd : Zdigits2 m1 <= 53).
      { pose proof (Zdigits2_bounds m1 ltac:(lia)) as [Hlo _].
        assert (2 ^ (Zdigits2 m1 - 1) < 2 ^ 53) by lia.
        apply Z.pow_lt_mono_r_iff in H; lia. }
      destruct (bracket_shr (IZR m1 * pow2 e') (shr_record_of_loc m1 loc_Exact) e'
                  (Z.max (Zdigits2 m1 + e' - 53) (-1074) - e')) as (_ & E & N).
      { rewrite shr_m_of_loc. apply bracket_exact. lia. }
      rewrite N by lia. rewrite E.
      rewrite shr_m_of_loc.
      replace (e' + Z.max (Z.max (Zdigits2 m1 + e' - 53) (-1074) - e') 0) with e' by lia.
      split; [lia|]. split; [reflexivity|lia].
Qed.

Lemma binary_round_aux_bound (sx : bool) (m e : Z) (l : location) (x : R) :
  bracket m e x ->
  (l = loc_Exact -> x = (IZR m * pow2 e)%R) ->
  (l = loc_Exact /\ 0 < m) \/ e <= fexp prec emax (Zdigits2 m + e) ->
  (x <= 1024)%R ->
  exists v : R,
    (0 <= v)%R /\ (Rabs (v - x) <= pow2 (-42))%R
    /\ SF_finite (binary_round_aux prec emax sx m e l)
    /\ SF_value (binary_round_aux prec emax sx m e l) = signed sx v.
Proof.
  intros Hb Hex Hl Hx.
  unfold binary_round_aux, shr_fexp.
  rewrite fexp_eq in Hl. rewrite (fexp_eq (Zdigits2 m + e)).
  set (d := Zdigits2 m) in *.
  set (n := Z.max (d + e - 53) (-1074) - e).
  destruct (bracket_shr x (shr_record_of_loc m l) e n) as (B1 & E1 & N1).
  { rewrite shr_m_of_loc; exact Hb. }
  destruct (bracket_shr (IZR m * pow2 e) (shr_record_of_loc m l) e n)
    as (B0 & _ & _).
  { rewrite shr_m_of_loc. apply bracket_exact. apply Hb. }
  destruct (shr (shr_record_of_loc m l) e n) as [mrs' e'] eqn:S1.
  cbv beta iota. rewrite fexp_eq.
  cbn [fst snd] in B1, E1, N1, B0.
  set (m' := shr_m mrs') in *.
  set (m1 := round_nearest_even m' (loc_of_shr_record mrs')).
  pose proof (pow2_pos e) as Pe. pose proof (pow2_pos e') as Pe'.
  assert (Hd0 : 0 <= d) by apply Zdigits2_nonneg.
  (* the shifted mantissa has at most 53 digits *)
  assert (Hm' : 0 <= m' < 2 ^ 53).
  { split; [apply B1|].
    destruct Hb as [Hm0 _]. destruct B0 as [_ [B0 _]].
    destruct (Z.eq_dec m 0) as [Hz|Hz].
    - subst m. assert (IZR m' <= 0)%R by nra. apply le_IZR in H.
      assert (0 < 2 ^ 53) by (apply Z.pow_pos_nonneg; lia). lia.
    - pose proof (Zdigits2_bounds m ltac:(lia)) as [_ Hhi]. fold d in Hhi.
      apply IZR_lt in Hhi. rewrite <- pow2_IZR in Hhi by lia.
      assert (H1 : (IZR m' * pow2 e' < pow2 (d + e))%R).
      { rewrite pow2_add. nra. }
      replace (d + e) with ((d + e - e') + e') in H1 by lia.
      rewrite pow2_add in H1.
      assert (H2 : (IZR m' < pow2 (d + e - e'))%R) by nra.
      assert (H3 : (pow2 (d + e - e') <= pow2 53)%R) by (apply pow2_le; lia).
      rewrite (pow2_IZR 53) in H3 by lia.
      apply lt_IZR. lra. }
  assert (Hm1 : m1 = m' \/ m1 = m' + 1) by apply round_nearest_even_cases.
  assert (He' : -1074 <= e') by lia.
  pose proof (second_shift_exact m1 e' ltac:(lia) He') as S2.
  cbv zeta in S2. rewrite fexp_eq in S2.
  destruct (shr (shr_record_of_loc m1 loc_Exact) e'
              (Z.max (Zdigits2 m1 + e' - 53) (-1074) - e')) as [mrs'' e''].
  cbn [fst snd] in S2. destruct S2 as (P2 & V2 & X2).
  (* the error of the rounded mantissa and the size of the exponent *)
  assert (Herr : (Rabs (IZR m1 * pow2 e' - x) <= pow2 (-42))%R
                 /\ (0 < m1 -> e' <= 10)).
  { assert (He1 : Z.max (d + e - 53) (-1074) <= -42).
    { destruct (Z.eq_dec m 0) as [Hz|Hz].
      - assert (d = 0) by (unfold d; rewrite Hz; reflexivity).
        destruct Hl as [[_ Hl]|Hl]; [lia|]. clear - H Hl. lia.
      - pose proof (Zdigits2_bounds m ltac:(destruct Hb; lia)) as [Hlo _].
        fold d in Hlo. apply IZR_le in Hlo.
        assert (Hd1 : 1 <= d).
        { unfold d. destruct Hb as [Hb _]. destruct m; simpl; lia. }
        rewrite <- pow2_IZR in Hlo by lia.
        destruct Hb as [_ [Hb _]].
        assert (pow2 (d - 1 + e) <= pow2 10)%R.
        { rewrite pow2_add. rewrite (pow2_IZR 10) by lia.
          change (IZR (2 ^ 10)) with 1024%R. nra. }
        apply pow2_le_inv in H. clear - H. lia. }
    destruct (Z_lt_le_dec 0 n) as [Hn|Hn]; pose proof Hn as Hn'; unfold n in Hn'.
    - (* a shift took place *)
      assert (He42 : e' <= -42) by (clear - E1 Hn' He1; lia).
      split; [|lia].
      pose proof (pow2_le e' (-42) He42).
      destruct B1 as [_ B1].
      apply Rabs_le.
      destruct Hm1 as [-> | ->]; [|rewrite plus_IZR]; lra.
    - (* no shift *)
      specialize (N1 Hn). subst mrs'.
      assert (Hee : e' = e) by lia. clear E1. subst e'.
      unfold m1, m' in *. rewrite shr_m_of_loc, loc_of_loc in *.
      destruct Hl as [[Hl Hpos]|Hl].
      + subst l. cbn [round_nearest_even].
        rewrite (Hex eq_refl).
        split.
        * apply Rabs_le. pose proof (pow2_pos (-42)). lra.
        * intros _. rewrite (Hex eq_refl) in Hx.
          assert (pow2 e <= pow2 10)%R.
          { rewrite (pow2_IZR 10) by lia. change (IZR (2 ^ 10)) with 1024%R.
            assert (1 <= IZR m)%R by (apply IZR_le; lia). nra. }
          apply pow2_le_inv in H. exact H.
      + assert (He42 : e <= -42) by (clear - Hl Hn' He1; lia).
        split; [|lia].
        pose proof (pow2_le e (-42) He42).
        destruct B1 as [_ B1].
        apply Rabs_le.
        destruct (round_nearest_even_cases m l) as [-> | ->];
          [|rewrite plus_IZR]; lra. }
  destruct Herr as [Herr He10].
  exists (IZR m1 * pow2 e')%R.
  split.
  { assert (0 <= IZR m1)%R by (apply IZR_le; lia). nra. }
  split; [exact Herr|].
  cbv iota beta.
  destruct (shr_m mrs'') as [|p|p] eqn:Em''; try lia.
  - split; [exact I|]. cbn [SF_value].
    rewrite <- V2. unfold signed. destruct sx; lra.
  - assert (0 < m1).
    { destruct (Z.eq_dec m1 0) as [Hz|Hz]; [|lia].
      rewrite Hz in V2. pose proof (pow2_pos e'').
      assert (0 < IZR (Zpos p))%R by (apply IZR_lt; lia). nra. }
    assert (Hle : (e'' <=? emax - prec) = true).
    { apply Z.leb_le. change (emax - prec) with 971. lia. }
    rewrite Hle. split; [exact I|].
    cbn [SF_value]. rewrite <- V2. unfold signed.
    destruct sx; cbn [cond_Zopp]; [rewrite opp_IZR|]; lra.
Qed.

Lemma ulp_bound_small : (0 < ulp_bound <= / 1000000000000)%R.
Proof.
  unfold ulp_bound. split; [apply pow2_pos|].
  change (pow2 (-42)) with (pow2 (- (42))).
  rewrite pow2_neg, (pow2_IZR 42) by lia.
  change (IZR (2 ^ 42)) with 4398046511104%R.
  apply Rinv_le_contravar; lra.
Qed.

Lemma signed_abs (s : bool) (v x : R) :
  (Rabs (v - x) <= ulp_bound -> Rabs (signed s v - signed s x) <= ulp_bound)%R.
Proof.
  unfold signed. destruct s; [|auto].
  intros H. replace (- v - - x)%R with (- (v - x))%R by lra.
  rewrite Rabs_Ropp. exact H.
Qed.

Lemma SF_value_finite (s : bool) (m : positive) (e : Z) :
  SF_value (S754_finite s m e) = signed s (IZR (Zpos m) * pow2 e).
Proof.
  unfold signed. cbn [SF_value]. destruct s; cbn [cond_Zopp];
    [rewrite opp_IZR|]; lra.
Qed.

Lemma signed_xorb (a b : bool) (x y : R) :
  (signed a x * signed b y = signed (xorb a b) (x * y))%R.
Proof. unfold signed. destruct a, b; cbn [xorb]; lra. Qed.

Lemma Rabs_signed (s : bool) (x : R) : Rabs (signed s x) = Rabs x.
Proof. unfold signed. destruct s; [apply Rabs_Ropp|reflexivity]. Qed.

(** Multiplication *)
Lemma SFmul_bound (x y : spec_float) :
  SF_finite x -> SF_finite y ->
  (Rabs (SF_value x * SF_value y) <= 1024)%R ->
  SF_finite (SFmul prec emax x y)
  /\ (Rabs (SF_value (SFmul prec emax x y) - SF_value x * SF_value y)
      <= ulp_bound)%R.
Proof.
  pose proof ulp_bound_small as Hu.
  destruct x as [sx| | |sx mx ex], y as [sy| | |sy my ey];
    cbn [SF_finite]; try contradiction; intros _ _ Hxy; cbn [SFmul].
  1-3: split; [exact I|]; cbn [SF_value];
       apply Rabs_le; lra.
  rewrite !SF_value_finite in *. rewrite signed_xorb in *.
  rewrite Rabs_signed in Hxy.
  set (X := (IZR (Zpos mx) * pow2 ex * (IZR (Zpos my) * pow2 ey))%R) in *.
  assert (EX : X = (IZR (Zpos (mx * my)) * pow2 (ex + ey))%R).
  { unfold X. rewrite Pos2Z.inj_mul, mult_IZR, pow2_add. lra. }
  assert (PX : (0 <= X)%R).
  { rewrite EX. pose proof (pow2_pos (ex + ey)).
    assert (0 < IZR (Zpos (mx * my)))%R by (apply IZR_lt; lia). nra. }
  destruct (binary_round_aux_bound (xorb sx sy) (Zpos (mx * my)) (ex + ey)
              loc_Exact X) as (v & Hv0 & Hv & Hfin & Hval).
  - rewrite EX. apply bracket_exact. lia.
  - intros _. exact EX.
  - left. split; [reflexivity|lia].
  - rewrite Rabs_pos_eq in Hxy by assumption. exact Hxy.
  - split; [exact Hfin|]. rewrite Hval. apply signed_abs. exact Hv.
Qed.

(** Normalisation of an integer mantissa *)
Lemma Pos_iter_xO (m d : positive) :
  Zpos (Pos.iter xO m d) = Zpos m * 2 ^ Zpos d.
Proof.
  induction d as [|d IH] using Pos.peano_ind.
  - cbn [Pos.iter]. rewrite Pos2Z.inj_xO. lia.
  - rewrite Pos.iter_succ, Pos2Z.inj_xO, IH, Pos2Z.inj_succ.
    rewrite Z.pow_succ_r by lia. lia.
Qed.

Lemma shl_align_value (m : positive) (e e0 : Z) :
  (IZR (Zpos (fst (shl_align m e e0))) * pow2 (snd (shl_align m e e0))
   = IZR (Zpos m) * pow2 e)%R.
Proof.
  unfold shl_align. destruct (e0 - e) as [|d|d] eqn:E; cbn [fst snd];
    try reflexivity.
  rewrite Pos_iter_xO, mult_IZR, <- pow2_IZR by lia.
  replace e with (Zpos d + e0) by lia. rewrite pow2_add. lra.
Qed.

Lemma shl_align_le (m : positive) (e e0 : Z) :
  e0 <= e ->
  (IZR (Zpos (fst (shl_align m e e0))) * pow2 e0 = IZR (Zpos m) * pow2 e)%R.
Proof.
  intros H. pose proof (shl_align_value m e e0) as V.
  unfold shl_align in *. destruct (e0 - e) as [|d|d] eqn:E; cbn [fst snd] in *.
  - replace e0 with e by lia. reflexivity.
  - lia.
  - exact V.
Qed.

Lemma binary_round_bound (s : bool) (m : positive) (e : Z) :
  (IZR (Zpos m) * pow2 e <= 1024)%R ->
  SF_finite (binary_round prec emax s m e)
  /\ (Rabs (SF_value (binary_round prec emax s m e)
            - signed s (IZR (Zpos m) * pow2 e)) <= ulp_bound)%R.
Proof.
  intros Hx. unfold binary_round.
  pose proof (shl_align_value m e (fexp prec emax (Zpos (digits2_pos m) + e))) as V.
  destruct (shl_align m e (fexp prec emax (Zpos (digits2_pos m) + e)))
    as [mz ez]. cbn [fst snd] in V.
  destruct (binary_round_aux_bound s (Zpos mz) ez loc_Exact
              (IZR (Zpos m) * pow2 e)) as (v & Hv0 & Hv & Hfin & Hval).
  - rewrite <- V. apply bracket_exact. lia.
  - intros _. symmetry. exact V.
  - left. split; [reflexivity|lia].
  - exact Hx.
  - split; [exact Hfin|]. rewrite Hval. apply signed_abs. exact Hv.
Qed.

Lemma binary_normalize_bound (z e : Z) (sz : bool) :
  (Rabs (IZR z * pow2 e) <= 1024)%R ->
  SF_finite (binary_normalize prec emax z e sz)
  /\ (Rabs (SF_value (binary_normalize prec emax z e sz) - IZR z * pow2 e)
      <= ulp_bound)%R.
Proof.
  pose proof ulp_bound_small as Hu. pose proof (pow2_pos e) as He.
  intros Hx. destruct z as [|p|p]; cbn [binary_normalize].
  - split; [exact I|]. cbn [SF_value]. apply Rabs_le. lra.
  - assert (0 < IZR (Zpos p))%R by (apply IZR_lt; lia).
    rewrite Rabs_pos_eq in Hx by nra.
    apply (binary_round_bound false p e Hx).
  - assert (0 < IZR (Zpos p))%R by (apply IZR_lt; lia).
    change (Zneg p) with (- Zpos p) in *. rewrite opp_IZR in *.
    replace (- IZR (Zpos p) * pow2 e)%R with (- (IZR (Zpos p) * pow2 e))%R
      in * by lra.
    rewrite Rabs_Ropp, Rabs_pos_eq in Hx by nra.
    apply (binary_round_bound true p e Hx).
Qed.

Lemma cond_Zopp_value (s : bool) (m : positive) (mz : positive) (e ez : Z) :
  (IZR (Zpos mz) * pow2 ez = IZR (Zpos m) * pow2 e)%R ->
  (IZR (cond_Zopp s (Zpos mz)) * pow2 ez = SF_value (S754_finite s m e))%R.
Proof.
  intros H. cbn [SF_value]. destruct s; cbn [cond_Zopp];
    [rewrite !opp_IZR|]; lra.
Qed.

(** Addition and subtraction *)
Lemma SFadd_bound (x y : spec_float) :
  SF_finite x -> SF_finite y ->
  (Rabs (SF_value x + SF_value y) <= 1024)%R ->
  SF_finite (SFadd prec emax x y)
  /\ (Rabs (SF_value (SFadd prec emax x y) - (SF_value x + SF_value y))
      <= ulp_bound)%R.
Proof.
  pose proof ulp_bound_small as Hu.
  destruct x as [sx| | |sx mx ex], y as [sy| | |sy my ey];
    cbn [SF_finite]; try contradiction; intros _ _ Hxy; cbn [SFadd].
  - split; [destruct sx, sy; exact I|].
    destruct sx, sy; cbn [SF_value]; apply Rabs_le; lra.
  - split; [exact I|]. cbn [SF_value] in *. apply Rabs_le; lra.
  - split; [exact I|]. cbn [SF_value] in *. apply Rabs_le; lra.
  - pose proof (cond_Zopp_value sx mx _ ex _
                  (shl_align_le mx ex (Z.min ex ey) ltac:(lia))) as Vx.
    pose proof (cond_Zopp_value sy my _ ey _
                  (shl_align_le my ey (Z.min ex ey) ltac:(lia))) as Vy.
    rewrite <- Vx, <- Vy in *.
    rewrite <- Rmult_plus_distr_r, <- plus_IZR in *.
    apply binary_normalize_bound. exact Hxy.
Qed.

Lemma SFsub_bound (x y : spec_float) :
  SF_finite x -> SF_finite y ->
  (Rabs (SF_value x - SF_value y) <= 1024)%R ->
  SF_finite (SFsub prec emax x y)
  /\ (Rabs (SF_value (SFsub prec emax x y) - (SF_value x - SF_value y))
      <= ulp_bound)%R.
Proof.
  pose proof ulp_bound_small as Hu.
  destruct x as [sx| | |sx mx ex], y as [sy| | |sy my ey];
    cbn [SF_finite]; try contradiction; intros _ _ Hxy; cbn [SFsub].
  - split; [destruct sx, sy; exact I|].
    destruct sx, sy; cbn [SF_value]; apply Rabs_le; lra.
  - split; [exact I|]. rewrite !SF_value_finite. cbn [SF_value].
    unfold signed. destruct sy; cbn [negb]; apply Rabs_le; lra.
  - split; [exact I|]. cbn [SF_value] in *. apply Rabs_le; lra.
  - pose proof (cond_Zopp_value sx mx _ ex _
                  (shl_align_le mx ex (Z.min ex ey) ltac:(lia))) as Vx.
    pose proof (cond_Zopp_value sy my _ ey _
                  (shl_align_le my ey (Z.min ex ey) ltac:(lia))) as Vy.
    rewrite <- Vx, <- Vy in *.
    rewrite <- Rmult_minus_distr_r, <- minus_IZR in *.
    apply binary_normalize_bound. exact Hxy.
Qed.

(** Division *)
Lemma new_location_exact (n k : Z) : new_location n k = loc_Exact -> k = 0.
Proof.
  unfold new_location, new_location_even, new_location_odd.
  destruct (Z.even n); destruct (k =? 0) eqn:E; try discriminate;
    intros _; apply Z.eqb_eq; exact E.
Qed.

Lemma SFdiv_core_binary_props (mx my : positive) (ex ey : Z) :
  let X := (IZR (Zpos mx) * pow2 ex / (IZR (Zpos my) * pow2 ey))%R in
  let c := SFdiv_core_binary prec emax (Zpos mx) ex (Zpos my) ey in
  bracket (fst (fst c)) (snd (fst c)) X
  /\ (snd c = loc_Exact -> X = (IZR (fst (fst c)) * pow2 (snd (fst c)))%R)
  /\ snd (fst c) <= fexp prec emax (Zdigits2 (fst (fst c)) + snd (fst c)).
Proof.
  cbv zeta. unfold SFdiv_core_binary. rewrite !fexp_eq.
  set (d1 := Zdigits2 (Zpos mx)). set (d2 := Zdigits2 (Zpos my)).
  set (e' := Z.min (Z.max (d1 + ex - (d2 + ey) - 53) (-1074)) (ex - ey)).
  set (s := ex - ey - e').
  assert (Hs : 0 <= s) by (unfold s, e'; lia).
  set (m' := match s with
             | 0 => Zpos mx
             | Zpos _ => Z.shiftl (Zpos mx) s
             | Zneg _ => 0
             end).
  assert (Hm' : m' = Zpos mx * 2 ^ s).
  { unfold m'. destruct s as [|p|p]; try lia.
    rewrite Z.shiftl_mul_pow2 by lia. reflexivity. }
  pose proof (Z_div_mod m' (Zpos my) ltac:(lia)) as D.
  destruct (Z.div_eucl m' (Zpos my)) as [q r]. destruct D as [D Hr].
  cbn [fst snd].
  pose proof (Zdigits2_bounds (Zpos mx) ltac:(lia)) as [L1 U1]. fold d1 in L1, U1.
  pose proof (Zdigits2_bounds (Zpos my) ltac:(lia)) as [L2 U2]. fold d2 in L2, U2.
  assert (H2s : 0 < 2 ^ s) by (apply Z.pow_pos_nonneg; lia).
  assert (Hq : 0 <= q) by nia.
  pose proof (pow2_pos e') as Pe'. pose proof (pow2_pos ex) as Pex.
  pose proof (pow2_pos ey) as Pey.
  assert (Pmy : (0 < IZR (Zpos my))%R) by (apply IZR_lt; lia).
  assert (EX : (IZR (Zpos mx) * pow2 ex / (IZR (Zpos my) * pow2 ey)
                = (IZR q + IZR r / IZR (Zpos my)) * pow2 e')%R).
  { assert (E1 : (IZR (Zpos mx) * pow2 ex
                  = IZR m' * pow2 e' * pow2 ey)%R).
    { rewrite Hm', mult_IZR, <- pow2_IZR by lia.
      replace ex with (s + e' + ey) by (unfold s; lia).
      rewrite !pow2_add. lra. }
    rewrite E1, D, plus_IZR, mult_IZR. field. lra. }
  rewrite EX.
  assert (Hrho : (0 <= IZR r / IZR (Zpos my) < 1)%R).
  { assert (0 <= IZR r)%R by (apply IZR_le; lia).
    assert (IZR r < IZR (Zpos my))%R by (apply IZR_lt; lia).
    split.
    - apply Rmult_le_pos; [assumption|]. left. apply Rinv_0_lt_compat. lra.
    - apply (Rmult_lt_reg_r (IZR (Zpos my))); [lra|].
      unfold Rdiv. rewrite Rmult_assoc, Rinv_l by lra. lra. }
  split; [|split].
  - split; [exact Hq|]. nra.
  - intros Hl. apply new_location_exact in Hl. subst r.
    unfold Rdiv. rewrite Rmult_0_l, Rplus_0_r. reflexivity.
  - destruct (Z_le_gt_dec e' (-1074)) as [He|He]; [lia|].
    assert (Hs53 : d2 + 52 <= d1 - 1 + s) by (unfold s, e' in *; lia).
    assert (Hbig : 2 ^ (d2 + 52) <= m').
    { rewrite Hm'.
      assert (0 <= d1 - 1).
      { unfold d1. cbn [Zdigits2]. lia. }
      assert (2 ^ (d2 + 52) <= 2 ^ (d1 - 1 + s))
        by (apply Z.pow_le_mono_r; lia).
      rewrite (Z.pow_add_r 2 (d1 - 1) s) in H0 by lia.
      eapply Z.le_trans; [exact H0|].
      apply Z.mul_le_mono_nonneg_r; [lia|exact L1]. }
    assert (Hd2 : 0 <= d2) by (unfold d2; cbn [Zdigits2]; lia).
    rewrite Z.pow_add_r in Hbig by lia.
    assert (H52 : 2 ^ 52 <= q).
    { assert (P52 : 0 < 2 ^ 52) by (apply Z.pow_pos_nonneg; lia).
      assert (Hlt : 2 ^ 52 * Zpos my < (q + 1) * Zpos my).
      { eapply Z.lt_le_trans with (m := 2 ^ d2 * 2 ^ 52).
        - rewrite (Z.mul_comm (2 ^ d2)). apply Z.mul_lt_mono_pos_l; lia.
        - clear - Hbig D Hr. lia. }
      apply Z.mul_lt_mono_pos_r in Hlt; lia. }
    pose proof (Zdigits2_bounds q ltac:(lia)) as [_ Uq].
    assert (2 ^ 52 < 2 ^ Zdigits2 q) by lia.
    apply Z.pow_lt_mono_r_iff in H; [lia|lia|apply Zdigits2_nonneg].
Qed.

Lemma SFdiv_bound (x y : spec_float) :
  SF_finite x -> SF_finite y -> SF_value y <> 0%R ->
  (Rabs (SF_value x / SF_value y) <= 1024)%R ->
  SF_finite (SFdiv prec emax x y)
  /\ (Rabs (SF_value (SFdiv prec emax x y) - SF_value x / SF_value y)
      <= ulp_bound)%R.
Proof.
  pose proof ulp_bound_small as Hu.
  destruct x as [sx| | |sx mx ex], y as [sy| | |sy my ey];
    cbn [SF_finite]; try contradiction; intros _ _ Hy Hxy; cbn [SFdiv];
    try (exfalso; apply Hy; reflexivity).
  - split; [exact I|]. cbn [SF_value]. unfold Rdiv. rewrite Rmult_0_l.
    apply Rabs_le. lra.
  - pose proof (SFdiv_core_binary_props mx my ex ey) as P. cbv zeta in P.
    destruct (SFdiv_core_binary prec emax (Zpos mx) ex (Zpos my) ey)
      as [[q e'] l]. cbn [fst snd] in P. destruct P as (B & E & F).
    rewrite !SF_value_finite in *.
    pose proof (pow2_pos ex) as Pex. pose proof (pow2_pos ey) as Pey.
    assert (Pmy : (0 < IZR (Zpos my))%R) by (apply IZR_lt; lia).
    assert (Pmx : (0 < IZR (Zpos mx))%R) by (apply IZR_lt; lia).
    set (X := (IZR (Zpos mx) * pow2 ex / (IZR (Zpos my) * pow2 ey))%R) in *.
    assert (PX : (0 <= X)%R).
    { unfold X. apply Rmult_le_pos; [nra|].
      left. apply Rinv_0_lt_compat. nra. }
    assert (EQ : (signed sx (IZR (Zpos mx) * pow2 ex)
                  / signed sy (IZR (Zpos my) * pow2 ey)
                  = signed (xorb sx sy) X)%R).
    { unfold signed, X. destruct sx, sy; cbn [xorb]; field; nra. }
    rewrite EQ in *. rewrite Rabs_signed, Rabs_pos_eq in Hxy by assumption.
    destruct (binary_round_aux_bound (xorb sx sy) q e' l X B E
                (or_intror F) Hxy) as (v & Hv0 & Hv & Hfin & Hval).
    split; [exact Hfin|]. rewrite Hval. apply signed_abs. exact Hv.
Qed.


(** ** Harmonies and rotations *)

Lemma rotate_int (h theta : Z) (s l : num) (ryb : bool) :
  rotate (Color_new (PyInt h) s l ryb) (PyInt theta)
  = ret (Color_new (PyInt ((h + theta) mod 360)) s l ryb).
Proof. reflexivity. Qed.





(** ** RYB anchors *)

(** C2: [ryb_to_rgb] maps (0,0,0) to white and (255,255,255) to black, using
    the Irisson table, whose all-ones corner is pure black. *)
Theorem ryb_black_white_anchors :
  ryb_to_rgb (mkRGB 0 0 0) = ret (mkRGB 255 255 255)
  /\ ryb_to_rgb (mkRGB 255 255 255) = ret (mkRGB 0 0 0)
  /\ f111 IRISSON_RYB_TO_RGB = rgb3 0 0 0.
Proof. vm_compute. repeat split. Qed.

(** ** Concrete conversions *)

(** C1, as stated, fails: (2,0,0) converts to HSL (0,100,0) and back to
    (0,0,0), two units away in the red channel; (2,228,230) comes back as
    (2,223,227), five units away in green. *)
Lemma roundtrip_counterexample :
  rgb_to_hsl 2 0 0 = ret (mkHSL 0 100 0)
  /\ rgb_hsl_roundtrip 2 0 0 = ret (mkRGB 0 0 0)
  /\ rgb_hsl_roundtrip 2 228 230 = ret (mkRGB 2 223 227).
Proof. vm_compute. repeat split. Qed.

(** C4, as stated, fails: the hue 360 is returned, for instance for
    (255,0,1). *)
Lemma hue_360_counterexample :
  rgb_to_hsl 255 0 1 = ret (mkHSL 360 100 50).
Proof. vm_compute. reflexivity. Qed.

(** ** Hexadecimal strings *)

Lemma int_base16_error (s : string) (e : exn) :
  int_base16 s = inl e -> e = ValueError.
Proof.
  unfold int_base16. destruct (parse16 s); intros H; inversion H; reflexivity.
Qed.

Lemma hex_to_rgb_error (s : string) (e : exn) :
  hex_to_rgb s = inl e -> e = ValueError.
Proof.
  unfold hex_to_rgb.
  destruct (int_base16 (substring 0 2 (lstrip_hash s))) eqn:E1; simpl.
  { intros H; inversion H; subst. eapply int_base16_error; eassumption. }
  destruct (int_base16 (substring 2 2 (lstrip_hash s))) eqn:E2; simpl.
  { intros H; inversion H; subst. eapply int_base16_error; eassumption. }
  destruct (int_base16 (substring 4 2 (lstrip_hash s))) eqn:E3; simpl.
  { intros H; inversion H; subst. eapply int_base16_error; eassumption. }
  discriminate.
Qed.

Lemma in_all_bytes (c : ascii) : In (nat_of_ascii c) all_bytes.
Proof.
  apply in_seq. pose proof (nat_ascii_bounded c). lia.
Qed.

Lemma all_pairs_parse :
  forallb (fun n => forallb (fun m => pair_parses (ascii_of_nat n) (ascii_of_nat m))
                      all_bytes) all_bytes = true.
Proof. vm_compute. reflexivity. Qed.

Lemma int_base16_pair (a b : ascii) (v : Z) :
  byte_of a b = Some v ->
  int_base16 (String a (String b EmptyString)) = ret v /\ 0 <= v <= 255.
Proof.
  intros Hv.
  pose proof all_pairs_parse as H.
  rewrite forallb_forall in H. specialize (H _ (in_all_bytes a)).
  rewrite forallb_forall in H. specialize (H _ (in_all_bytes b)).
  rewrite !ascii_nat_embedding in H.
  unfold pair_parses in H. rewrite Hv in H.
  destruct (int_base16 _) as [e|w]; [discriminate|].
  apply andb_prop in H as [H H2]. apply andb_prop in H as [H0 H1].
  apply Z.eqb_eq in H0. subst w. split; [reflexivity|lia].
Qed.

Lemma all_bytes_format :
  forallb (fun n => byte_formats (Z.of_nat n)) all_bytes = true.
Proof. vm_compute. reflexivity. Qed.

Lemma format_02x_byte (z : Z) :
  0 <= z <= 255 ->
  exists a b, format_02x z = String a (String b EmptyString)
              /\ lower_hex a = true /\ lower_hex b = true
              /\ byte_of a b = Some z.
Proof.
  intros Hz.
  pose proof all_bytes_format as H.
  rewrite forallb_forall in H.
  specialize (H (Z.to_nat z)).
  rewrite Z2Nat.id in H by lia.
  assert (Hin : In (Z.to_nat z) all_bytes) by (apply in_seq; lia).
  specialize (H Hin). unfold byte_formats in H.
  destruct (format_02x z) as [|a [|b [|]]]; try discriminate.
  exists a, b.
  apply andb_prop in H as [H H2]. apply andb_prop in H as [H0 H1].
  destruct (byte_of a b) as [v|]; [|discriminate].
  apply Z.eqb_eq in H2. subst v. auto.
Qed.

Lemma lower_hex_not_hash (c : ascii) :
  lower_hex c = true -> Ascii.eqb c "#" = false.
Proof.
  destruct c as [[] [] [] [] [] [] [] []]; vm_compute; congruence.
Qed.

(** C5: for channels in 0..255, [hex_to_rgb (rgb_to_hex r g b)] is (r,g,b)
    again, and [rgb_to_hex] has the shape [#rrggbb] with six lowercase,
    zero-padded hexadecimal digits. *)
Theorem hex_roundtrip_exact (r g b : Z) :
  0 <= r <= 255 -> 0 <= g <= 255 -> 0 <= b <= 255 ->
  hex_to_rgb (rgb_to_hex r g b) = ret (mkRGB r g b)
  /\ is_hex_color (rgb_to_hex r g b) = true.
Proof.
  intros Hr Hg Hb.
  destruct (format_02x_byte r Hr) as (r1 & r2 & Er & Lr1 & Lr2 & Vr).
  destruct (format_02x_byte g Hg) as (g1 & g2 & Eg & Lg1 & Lg2 & Vg).
  destruct (format_02x_byte b Hb) as (b1 & b2 & Eb & Lb1 & Lb2 & Vb).
  unfold rgb_to_hex. rewrite Er, Eg, Eb.
  split.
  - unfold hex_to_rgb. cbn [append lstrip_hash].
    change (Ascii.eqb "#" "#") with true. cbv iota.
    rewrite (lower_hex_not_hash r1 Lr1).
    cbn [substring].
    rewrite (proj1 (int_base16_pair _ _ _ Vr)).
    rewrite (proj1 (int_base16_pair _ _ _ Vg)).
    rewrite (proj1 (int_base16_pair _ _ _ Vb)).
    reflexivity.
  - cbn [append is_hex_color String.length list_ascii_of_string forallb].
    rewrite Lr1, Lr2, Lg1, Lg2, Lb1, Lb2. reflexivity.
Qed.

Lemma hex_roundtrip_exact_witness :
  hex_to_rgb (rgb_to_hex 255 0 10) = ret (mkRGB 255 0 10)
  /\ is_hex_color (rgb_to_hex 255 0 10) = true.
Proof. apply (hex_roundtrip_exact 255 0 10); lia. Defined.

Lemma short_third_slice (s : string) :
  (String.length s < 5)%nat -> substring 4 2 s = EmptyString.
Proof.
  destruct s as [|c0 [|c1 [|c2 [|c3 [|c4 s]]]]]; simpl; intros H;
    try reflexivity; lia.
Qed.

(** C3: [hex_to_rgb] on strings that are not six hexadecimal digits.  A sign
    and a blank inside the slices are accepted and give a channel outside
    0..255, against the docstring; text after the sixth character is
    ignored, five digits are enough and several hash signs are stripped; and
    a string that is rejected raises [ValueError], not the [ColorParseError]
    the caller of [from_hex] in [colorapp.py] suppresses. *)
Theorem hex_to_rgb_accepts_non_hex :
  hex_to_rgb "+f-f f" = ret (mkRGB 15 (-15) 15)
  /\ hex_to_rgb "ff0000zz" = ret (mkRGB 255 0 0)
  /\ hex_to_rgb "fffff" = ret (mkRGB 255 255 15)
  /\ hex_to_rgb "##ff0000" = ret (mkRGB 255 0 0)
  /\ hex_to_rgb "ff00" = raise ValueError
  /\ hex_to_rgb "#gg0000" = raise ValueError
  /\ from_hex "ff00" = raise ValueError.
Proof. vm_compute. repeat split. Qed.

(** What [hex_to_rgb] does on every string: after every leading hash sign is
    stripped, six hexadecimal digits of either case give the three byte
    values, each in 0..255; fewer than five remaining characters make
    [hex_to_rgb] fail; and every failure is a [ValueError]. *)
Theorem hex_to_rgb_six_digits_or_error (s : string) :
  (forall a1 a2 a3 a4 a5 a6 r g b,
      lstrip_hash s
      = String a1 (String a2 (String a3 (String a4 (String a5
          (String a6 EmptyString))))) ->
      byte_of a1 a2 = Some r -> byte_of a3 a4 = Some g ->
      byte_of a5 a6 = Some b ->
      hex_to_rgb s = ret (mkRGB r g b)
      /\ 0 <= r <= 255 /\ 0 <= g <= 255 /\ 0 <= b <= 255)
  /\ ((String.length (lstrip_hash s) < 5)%nat ->
      hex_to_rgb s = raise ValueError)
  /\ (forall e, hex_to_rgb s = inl e -> e = ValueError).
Proof.
  split; [|split].
  - intros a1 a2 a3 a4 a5 a6 r g b Hs Hr Hg Hb.
    destruct (int_base16_pair _ _ _ Hr) as [Er Rr].
    destruct (int_base16_pair _ _ _ Hg) as [Eg Rg].
    destruct (int_base16_pair _ _ _ Hb) as [Eb Rb].
    unfold hex_to_rgb. rewrite Hs. cbn [substring].
    rewrite Er, Eg, Eb. auto.
  - intros Hlen.
    destruct (hex_to_rgb s) as [e|v] eqn:E.
    + rewrite (hex_to_rgb_error s e E). reflexivity.
    + exfalso. unfold hex_to_rgb in E.
      rewrite (short_third_slice _ Hlen) in E.
      destruct (int_base16 (substring 0 2 (lstrip_hash s))); [discriminate|].
      destruct (int_base16 (substring 2 2 (lstrip_hash s))); discriminate.
  - apply hex_to_rgb_error.
Qed.

Lemma hex_to_rgb_six_digits_or_error_witness :
  (hex_to_rgb "#1A2b3C" = ret (mkRGB 26 43 60)
   /\ 0 <= 26 <= 255 /\ 0 <= 43 <= 255 /\ 0 <= 60 <= 255)
  /\ hex_to_rgb "#ff0" = raise ValueError
  /\ hex_to_rgb "12345g" = inl ValueError.
Proof.
  split; [|split].
  - apply (proj1 (hex_to_rgb_six_digits_or_error "#1A2b3C")
             "1" "A" "2" "b" "3" "C")%char; reflexivity.
  - apply (proj1 (proj2 (hex_to_rgb_six_digits_or_error "#ff0"))).
    simpl. lia.
  - reflexivity.
Defined.

(** ** Lightness *)

Lemma clamp_in_range (v : num) :
  num_is_nan v = false -> in_0_100 (clamp_0_100 v) = true.
Proof.
  destruct v as [z|f]; unfold clamp_0_100, num_max, num_min, in_0_100;
    cbn [num_ltb num_is_nan].
  - intros _.
    destruct (z <? 0) eqn:E0; [reflexivity|]. cbn [num_ltb].
    destruct (100 <? z) eqn:E1; [reflexivity|]. cbn [num_leb].
    apply Z.ltb_ge in E0, E1.
    apply andb_true_intro; split; apply Z.leb_le; lia.
  - intros Hnan.
    destruct (SF_lt_int (Prim2SF f) 0) eqn:E0; [reflexivity|]. cbn [num_ltb].
    destruct (int_lt_SF 100 (Prim2SF f)) eqn:E1; [reflexivity|]. cbn [num_leb].
    revert Hnan E0 E1. generalize (Prim2SF f). intros sf Hnan E0 E1.
    destruct sf; try discriminate; cbv beta iota; rewrite E0, E1; reflexivity.
Qed.

Lemma clamp_int (z : Z) :
  clamp_0_100 (PyInt z) = PyInt (Z.min (Z.max z 0) 100).
Proof.
  unfold clamp_0_100, num_max, num_min; simpl.
  destruct (z <? 0) eqn:E0; simpl.
  - apply Z.ltb_lt in E0. f_equal. lia.
  - apply Z.ltb_ge in E0.
    destruct (100 <? z) eqn:E1;
      [apply Z.ltb_lt in E1|apply Z.ltb_ge in E1]; f_equal; lia.
Qed.

(** ** What [lighten] and [saturate] can raise *)

Lemma float_of_int_error (z : Z) (e : exn) :
  float_of_int z = inl e -> e = OverflowError.
Proof.
  unfold float_of_int. destruct (SF_of_int z); intros H; inversion H; reflexivity.
Qed.

Lemma to_float_error (x : num) (e : exn) :
  to_float x = inl e -> e = OverflowError.
Proof.
  destruct x; cbn [to_float]; [apply float_of_int_error|discriminate].
Qed.

Lemma num_add_error (x y : num) (e : exn) :
  num_add x y = inl e -> e = OverflowError.
Proof.
  destruct x as [a|f], y as [b|g]; cbn [num_add]; try discriminate;
    repeat match goal with
           | |- context [to_float ?u] =>
               let E := fresh "E" in
               destruct (to_float u) eqn:E; cbn [bind ret];
               [apply to_float_error in E; subst|]
           end;
    intros H; inversion H; reflexivity.
Qed.

Lemma num_mul_error (x y : num) (e : exn) :
  num_mul x y = inl e -> e = OverflowError.
Proof.
  destruct x as [a|f], y as [b|g]; cbn [num_mul]; try discriminate;
    repeat match goal with
           | |- context [to_float ?u] =>
               let E := fresh "E" in
               destruct (to_float u) eqn:E; cbn [bind ret];
               [apply to_float_error in E; subst|]
           end;
    intros H; inversion H; reflexivity.
Qed.

Lemma scaled_error (x a m : num) (e : exn) :
  (t <- num_add x a ;; num_mul m t) = inl e -> e = OverflowError.
Proof.
  destruct (num_add x a) eqn:E; cbn [bind].
  - intros H. inversion H. subst. apply (num_add_error _ _ _ E).
  - apply num_mul_error.
Qed.

Lemma lighten_alt (c : Color) (a m : num) :
  lighten c a m
  = (v <- (t <- num_add (hsl_l (_hsl c)) a ;; num_mul m t) ;;
     ret (Color_new (hsl_h (_hsl c)) (hsl_s (_hsl c)) (clamp_0_100 v) (_ryb c))).
Proof.
  unfold lighten, hsl. destruct (num_add (hsl_l (_hsl c)) a); reflexivity.
Qed.

Lemma saturate_alt (c : Color) (a m : num) :
  saturate c a m
  = (v <- (t <- num_add (hsl_s (_hsl c)) a ;; num_mul m t) ;;
     ret (Color_new (hsl_h (_hsl c)) (clamp_0_100 v) (hsl_l (_hsl c)) (_ryb c))).
Proof.
  unfold saturate, hsl. destruct (num_add (hsl_s (_hsl c)) a); reflexivity.
Qed.

Lemma clamp_nan_or_in_range (v : num) :
  in_0_100 (clamp_0_100 v) = negb (num_is_nan v).
Proof.
  destruct (num_is_nan v) eqn:E; [|apply clamp_in_range; exact E].
  destruct v as [z|f]; [discriminate|].
  unfold clamp_0_100, num_max, num_min, in_0_100 in *.
  cbn [num_ltb num_is_nan negb] in *.
  destruct (Prim2SF f) eqn:Ef; try discriminate.
  cbn [SF_lt_int]. cbn [num_ltb]. rewrite Ef. cbn [int_lt_SF].
  cbn [num_leb]. rewrite Ef. reflexivity.
Qed.

(** C7, as stated, fails in two ways.  When [mult * (l + add)] is not a
    number the new lightness is NaN, which is not in [0,100]: so with [add]
    infinite and [mult] zero.  And when an int operand is too large for a
    float the arithmetic raises and no colour is returned: so with
    [l = 2 ^ 1024] and [add = 0.0]. *)
Lemma lighten_nan_counterexample :
  lighten (Color_new (PyInt 0) (PyInt 100) (PyInt 50) false)
          (PyFloat infinity) (PyInt 0)
  = ret (Color_new (PyInt 0) (PyInt 100) (PyFloat nan) false)
  /\ in_0_100 (PyFloat nan) = false
  /\ lighten (Color_new (PyInt 0) (PyInt 100) (PyInt (2 ^ 1024)) false)
             (PyFloat 0) (PyInt 1)
     = raise OverflowError.
Proof. vm_compute. repeat split. Qed.

(** C7 (as amended): for every colour, [add] and [mult], either the
    evaluation of [mult * (l + add)] raises [OverflowError] and so does
    [lighten], or it gives a number [v] and [lighten] returns a colour with
    the same hue, saturation and flag whose lightness is
    [min(max(v, 0), 100)]; that lightness lies in [0,100] exactly when [v] is
    not NaN.  On ints nothing raises and the lightness is the clamped
    product, so from lightness 50 [add = 1000] gives 100 and [add = -1000]
    gives 0. *)
Theorem lighten_clamps (c : Color) (add mult : num) :
  let scaled := (t <- num_add (hsl_l (hsl c)) add ;; num_mul mult t) in
  ((scaled = raise OverflowError /\ lighten c add mult = raise OverflowError)
   \/ (exists v,
         scaled = ret v
         /\ lighten c add mult
            = ret (Color_new (hsl_h (hsl c)) (hsl_s (hsl c)) (clamp_0_100 v)
                             (_ryb c))
         /\ in_0_100 (clamp_0_100 v) = negb (num_is_nan v)))
  /\ (forall h s l a m ryb,
        lighten (Color_new h s (PyInt l) ryb) (PyInt a) (PyInt m)
        = ret (Color_new h s (PyInt (Z.min (Z.max (m * (l + a)) 0) 100)) ryb))
  /\ (forall h s ryb,
        lighten (Color_new h s (PyInt 50) ryb) (PyInt 1000) (PyInt 1)
        = ret (Color_new h s (PyInt 100) ryb)
        /\ lighten (Color_new h s (PyInt 50) ryb) (PyInt (-1000)) (PyInt 1)
           = ret (Color_new h s (PyInt 0) ryb)).
Proof.
  cbv zeta. split; [|split].
  - rewrite lighten_alt. unfold hsl.
    destruct (t <- num_add (hsl_l (_hsl c)) add ;; num_mul mult t)
      as [e|v] eqn:E.
    + left. rewrite (scaled_error _ _ _ _ E). split; reflexivity.
    + right. exists v. split; [reflexivity|]. split; [reflexivity|].
      apply clamp_nan_or_in_range.
  - intros h s l a m ryb. unfold lighten.
    cbn [hsl _hsl hsl_l hsl_h hsl_s _ryb Color_new num_add num_mul bind ret].
    rewrite clamp_int. reflexivity.
  - intros h s ryb. split; reflexivity.
Qed.

Lemma Rabs_le_inv (x a : R) : (Rabs x <= a -> - a <= x <= a)%R.
Proof. unfold Rabs. destruct (Rcase_abs x); lra. Qed.

(** ** Comparisons and the real order *)

Lemma canonical_bounds (m : positive) (e : Z) :
  SpecFloat.bounded prec emax m e = true ->
  Zpos m < 2 ^ 53 /\ -1074 <= e <= 971 /\ (-1074 < e -> 2 ^ 52 <= Zpos m).
Proof.
  unfold SpecFloat.bounded, canonical_mantissa. rewrite fexp_eq.
  intros H. apply andb_prop in H as [H1 H2].
  apply Z.eqb_eq in H1. apply Z.leb_le in H2. change (emax - prec) with 971 in H2.
  pose proof (digits2_pos_bounds m) as [Lo Hi].
  assert (Hd : Zpos (digits2_pos m) <= 53) by lia.
  split; [|split; [lia|]].
  - eapply Z.lt_le_trans; [exact Hi|]. apply Z.pow_le_mono_r; lia.
  - intros He. assert (Zpos (digits2_pos m) = 53) by lia.
    rewrite H in Lo. exact Lo.
Qed.

Lemma finite_lt_exponent (m1 m2 : positive) (e1 e2 : Z) :
  SpecFloat.bounded prec emax m1 e1 = true -> SpecFloat.bounded prec emax m2 e2 = true ->
  e1 < e2 -> (IZR (Zpos m1) * pow2 e1 < IZR (Zpos m2) * pow2 e2)%R.
Proof.
  intros B1 B2 He.
  destruct (canonical_bounds _ _ B1) as (U1 & R1 & _).
  destruct (canonical_bounds _ _ B2) as (_ & R2 & L2).
  specialize (L2 ltac:(lia)).
  apply IZR_lt in U1. apply IZR_le in L2.
  pose proof (pow2_pos e1) as P1.
  pose proof (pow2_le (e1 + 1) e2 ltac:(lia)) as P2. rewrite pow2_succ in P2.
  change (IZR (2 ^ 53)) with 9007199254740992%R in U1.
  change (IZR (2 ^ 52)) with 4503599627370496%R in L2.
  assert (0 < IZR (Zpos m1))%R by (apply IZR_lt; lia).
  nra.
Qed.

Lemma SFcompare_spec (x y : spec_float) :
  valid_binary x = true -> valid_binary y = true ->
  SF_finite x -> SF_finite y ->
  match SFcompare x y with
  | Some Lt => (SF_value x < SF_value y)%R
  | Some Eq => SF_value x = SF_value y
  | Some Gt => (SF_value y < SF_value x)%R
  | None => False
  end.
Proof.
  destruct x as [sx| | |sx mx ex], y as [sy| | |sy my ey];
    unfold valid_binary; cbn [SF_finite SpecFloat.valid_binary];
    try contradiction; intros Bx By _ _; cbn [SFcompare].
  - reflexivity.
  - rewrite SF_value_finite. cbn [SF_value]. unfold signed.
    pose proof (pow2_pos ey). assert (0 < IZR (Zpos my))%R by (apply IZR_lt; lia).
    destruct sy; nra.
  - rewrite SF_value_finite. cbn [SF_value]. unfold signed.
    pose proof (pow2_pos ex). assert (0 < IZR (Zpos mx))%R by (apply IZR_lt; lia).
    destruct sx; nra.
  - rewrite !SF_value_finite. unfold signed.
    pose proof (pow2_pos ex). pose proof (pow2_pos ey).
    assert (0 < IZR (Zpos mx))%R by (apply IZR_lt; lia).
    assert (0 < IZR (Zpos my))%R by (apply IZR_lt; lia).
    destruct sx, sy; try nra.
    + destruct (Z.compare_spec ex ey) as [E|E|E].
      * subst ey. change (Pos.compare_cont Eq mx my) with (Pos.compare mx my).
        destruct (Pos.compare_spec mx my) as [M|M|M]; cbn [CompOpp].
        -- subst. reflexivity.
        -- assert (IZR (Zpos mx) < IZR (Zpos my))%R by (apply IZR_lt; lia). nra.
        -- assert (IZR (Zpos my) < IZR (Zpos mx))%R by (apply IZR_lt; lia). nra.
      * pose proof (finite_lt_exponent _ _ _ _ Bx By E). lra.
      * pose proof (finite_lt_exponent _ _ _ _ By Bx E). lra.
    + destruct (Z.compare_spec ex ey) as [E|E|E].
      * subst ey. change (Pos.compare_cont Eq mx my) with (Pos.compare mx my).
        destruct (Pos.compare_spec mx my) as [M|M|M].
        -- subst. reflexivity.
        -- assert (IZR (Zpos mx) < IZR (Zpos my))%R by (apply IZR_lt; lia). nra.
        -- assert (IZR (Zpos my) < IZR (Zpos mx))%R by (apply IZR_lt; lia). nra.
      * apply (finite_lt_exponent _ _ _ _ Bx By E).
      * apply (finite_lt_exponent _ _ _ _ By Bx E).
Qed.

Lemma ltb_FV (x y : float) :
  FFin x -> FFin y ->
  if (x <? y)%float then (FV x < FV y)%R else (FV y <= FV x)%R.
Proof.
  intros Hx Hy. rewrite FloatAxioms.ltb_spec. unfold SFltb.
  pose proof (SFcompare_spec _ _ (Prim2SF_valid x) (Prim2SF_valid y) Hx Hy) as H.
  unfold FV. destruct (SFcompare (Prim2SF x) (Prim2SF y)) as [[]|];
    try contradiction; lra.
Qed.

Lemma leb_FV (x y : float) :
  FFin x -> FFin y ->
  if (x <=? y)%float then (FV x <= FV y)%R else (FV y < FV x)%R.
Proof.
  intros Hx Hy. rewrite FloatAxioms.leb_spec. unfold SFleb.
  pose proof (SFcompare_spec _ _ (Prim2SF_valid x) (Prim2SF_valid y) Hx Hy) as H.
  unfold FV. destruct (SFcompare (Prim2SF x) (Prim2SF y)) as [[]|];
    try contradiction; lra.
Qed.

Lemma eqb_FV (x y : float) :
  FFin x -> FFin y ->
  if (x =? y)%float then FV x = FV y else FV x <> FV y.
Proof.
  intros Hx Hy. rewrite FloatAxioms.eqb_spec. unfold SFeqb.
  pose proof (SFcompare_spec _ _ (Prim2SF_valid x) (Prim2SF_valid y) Hx Hy) as H.
  unfold FV. destruct (SFcompare (Prim2SF x) (Prim2SF y)) as [[]|];
    try contradiction; lra.
Qed.

(** ** The primitive operations *)

Lemma mul_FV (x y : float) :
  FFin x -> FFin y -> (Rabs (FV x * FV y) <= 1024)%R ->
  FFin (x * y) /\ (Rabs (FV (x * y) - FV x * FV y) <= ulp_bound)%R.
Proof.
  unfold FFin, FV. rewrite mul_spec. apply SFmul_bound.
Qed.

Lemma add_FV (x y : float) :
  FFin x -> FFin y -> (Rabs (FV x + FV y) <= 1024)%R ->
  FFin (x + y) /\ (Rabs (FV (x + y) - (FV x + FV y)) <= ulp_bound)%R.
Proof.
  unfold FFin, FV. rewrite add_spec. apply SFadd_bound.
Qed.

Lemma sub_FV (x y : float) :
  FFin x -> FFin y -> (Rabs (FV x - FV y) <= 1024)%R ->
  FFin (x - y) /\ (Rabs (FV (x - y) - (FV x - FV y)) <= ulp_bound)%R.
Proof.
  unfold FFin, FV. rewrite sub_spec. apply SFsub_bound.
Qed.

Lemma div_FV (x y : float) :
  FFin x -> FFin y -> FV y <> 0%R -> (Rabs (FV x / FV y) <= 1024)%R ->
  FFin (x / y) /\ (Rabs (FV (x / y) - FV x / FV y) <= ulp_bound)%R.
Proof.
  unfold FFin, FV. rewrite div_spec. apply SFdiv_bound.
Qed.

Lemma FV_zero : FV 0 = 0%R.
Proof. reflexivity. Qed.

Lemma float_div_FV (x y : float) :
  FFin x -> FFin y -> FV y <> 0%R -> (Rabs (FV x / FV y) <= 1024)%R ->
  exists q, float_div x y = ret q /\ FFin q
            /\ (Rabs (FV q - FV x / FV y) <= ulp_bound)%R.
Proof.
  intros Hx Hy Hy0 Hxy. unfold float_div.
  pose proof (eqb_FV y 0 Hy I) as E. rewrite FV_zero in E.
  destruct (y =? 0)%float; [contradiction|].
  exists (x / y)%float. split; [reflexivity|]. apply div_FV; assumption.
Qed.

(** ** Truncation to an int *)

Lemma int_of_float_FV (x : float) :
  FFin x -> (0 <= FV x)%R ->
  exists z, int_of_float x = ret z /\ (IZR z <= FV x < IZR z + 1)%R.
Proof.
  unfold FFin, FV, int_of_float.
  destruct (Prim2SF x) as [s| | |s m e]; cbn [SF_finite]; try contradiction;
    intros _ Hv.
  - exists 0. split; [reflexivity|]. cbn [SF_value]. lra.
  - rewrite SF_value_finite in *. unfold signed in *.
    pose proof (pow2_pos e) as Pe.
    assert (Pm : (0 < IZR (Zpos m))%R) by (apply IZR_lt; lia).
    destruct s; [nra|].
    destruct e as [|p|p].
    + exists (Zpos m). split; [reflexivity|]. rewrite pow2_0. lra.
    + exists (Z.shiftl (Zpos m) (Zpos p)). split; [reflexivity|].
      rewrite Z.shiftl_mul_pow2, mult_IZR, <- pow2_IZR by lia. lra.
    + exists (Z.shiftr (Zpos m) (Zpos p)). split; [reflexivity|].
      rewrite Z.shiftr_div_pow2 by lia.
      assert (H2 : 0 < 2 ^ Zpos p) by (apply Z.pow_pos_nonneg; lia).
      pose proof (Z.div_mod (Zpos m) (2 ^ Zpos p) ltac:(lia)) as D.
      pose proof (Z.mod_pos_bound (Zpos m) (2 ^ Zpos p) H2) as M.
      set (q := Zpos m / 2 ^ Zpos p) in *.
      set (r := Zpos m mod 2 ^ Zpos p) in *.
      change (Zneg p) with (- Zpos p). rewrite pow2_neg, pow2_IZR by lia.
      assert (P2 : (0 < IZR (2 ^ Zpos p))%R) by (apply IZR_lt; lia).
      assert (Er : IZR (Zpos m) = (IZR (2 ^ Zpos p) * IZR q + IZR r)%R).
      { rewrite <- mult_IZR, <- plus_IZR. f_equal. exact D. }
      assert (R0 : (0 <= IZR r)%R) by (apply IZR_le; lia).
      assert (R1 : (IZR r < IZR (2 ^ Zpos p))%R) by (apply IZR_lt; lia).
      rewrite Er.
      split.
      * apply (Rmult_le_reg_r (IZR (2 ^ Zpos p))); [lra|].
        rewrite Rmult_assoc, Rinv_l by lra. nra.
      * apply (Rmult_lt_reg_r (IZR (2 ^ Zpos p))); [lra|].
        rewrite Rmult_assoc, Rinv_l by lra. nra.
Qed.

Lemma int_of_float_range (x : float) (n : Z) :
  FFin x -> (0 <= FV x < IZR n + 1)%R ->
  exists z, int_of_float x = ret z /\ 0 <= z <= n.
Proof.
  intros Hf [H0 H1].
  destruct (int_of_float_FV x Hf H0) as (z & Ez & Lz & Uz).
  exists z. split; [exact Ez|].
  assert (IZR z < IZR (n + 1))%R by (rewrite plus_IZR; lra).
  assert (IZR (-1) < IZR z)%R by (simpl; lra).
  apply lt_IZR in H, H2. lia.
Qed.

(** ** The remainder of a small float *)

Lemma binary_round_canonical (s : bool) (m : positive) (e : Z) :
  SpecFloat.bounded prec emax m e = true ->
  binary_round prec emax s m e = S754_finite s m e.
Proof.
  unfold SpecFloat.bounded, canonical_mantissa. intros H.
  apply andb_prop in H as [H1 H2]. apply Z.eqb_eq in H1.
  unfold binary_round. rewrite H1.
  unfold shl_align. rewrite Z.sub_diag.
  unfold binary_round_aux, shr_fexp. cbn [Zdigits2]. rewrite H1, Z.sub_diag.
  cbn [shr shr_record_of_loc shr_m loc_of_shr_record round_nearest_even Zdigits2].
  rewrite H1, Z.sub_diag. cbn [shr shr_m]. rewrite H2. reflexivity.
Qed.

Lemma Prim2SF_one : Prim2SF 1 = S754_finite false 4503599627370496 (-52).
Proof. reflexivity. Qed.

Lemma FV_one : FV 1 = 1%R.
Proof.
  unfold FV. rewrite Prim2SF_one. cbn [SF_value cond_Zopp].
  change (pow2 (-52)) with (pow2 (- (52))).
  rewrite pow2_neg, (pow2_IZR 52) by lia.
  change (IZR (2 ^ 52)) with 4503599627370496%R. field.
Qed.

Lemma fmod_small (x : float) :
  FFin x -> (Rabs (FV x) < 1)%R -> fmod x 1 = x.
Proof.
  unfold FFin, FV, fmod. intros Hf Hv.
  pose proof (Prim2SF_valid x) as Hb. unfold valid_binary in Hb.
  rewrite Prim2SF_one.
  destruct (Prim2SF x) as [s| | |s m e] eqn:E; cbn [SF_finite] in Hf;
    try contradiction.
  - cbn [SFfmod]. rewrite <- E. apply SF2Prim_Prim2SF.
  - cbn [SpecFloat.valid_binary] in Hb.
    destruct (canonical_bounds m e Hb) as (Um & Re & Lm).
    rewrite SF_value_finite, Rabs_signed in Hv.
    pose proof (pow2_pos e) as Pe.
    assert (Pm : (0 < IZR (Zpos m))%R) by (apply IZR_lt; lia).
    rewrite Rabs_pos_eq in Hv by nra.
    assert (He : e <= -53).
    { destruct (Z_le_gt_dec e (-1074)) as [|Hgt]; [lia|].
      specialize (Lm ltac:(lia)). apply IZR_le in Lm.
      rewrite <- pow2_IZR in Lm by lia.
      assert (pow2 (52 + e) < pow2 0)%R.
      { rewrite pow2_add, pow2_0. nra. }
      apply pow2_lt_inv in H. lia. }
    assert (Hlt : Zpos m < 2 ^ (- e)).
    { apply lt_IZR. rewrite <- pow2_IZR by lia. rewrite pow2_neg.
      apply (Rmult_lt_reg_r (pow2 e)); [lra|].
      rewrite Rinv_l by lra. exact Hv. }
    cbn [SFfmod]. rewrite Z.min_l by lia. rewrite Z.sub_diag.
    rewrite Z.shiftl_0_r.
    rewrite (Z.shiftl_mul_pow2 4503599627370496 (-52 - e)) by lia.
    change 4503599627370496 with (2 ^ 52).
    rewrite <- Z.pow_add_r by lia.
    replace (52 + (-52 - e)) with (- e) by lia.
    rewrite Z.mod_small by lia.
    replace (binary_normalize prec emax (cond_Zopp s (Zpos m)) e s)
      with (S754_finite s m e).
    + rewrite <- E. apply SF2Prim_Prim2SF.
    + destruct s; cbn [cond_Zopp Z.opp binary_normalize];
        symmetry; apply binary_round_canonical; exact Hb.
Qed.

Lemma float_mod_one (x : float) :
  FFin x -> (Rabs (FV x) < 1)%R ->
  exists r, float_mod x 1 = ret r /\ FFin r
            /\ (- ulp_bound <= FV r <= 1 + ulp_bound)%R.
Proof.
  intros Hf Hv. pose proof ulp_bound_small as Hu.
  unfold float_mod.
  change (1 =? 0)%float with false. change (1 <? 0)%float with false.
  cbv iota. rewrite (fmod_small x Hf Hv). cbn [xorb].
  pose proof (eqb_FV x 0 Hf I) as E0. rewrite FV_zero in E0.
  pose proof (ltb_FV x 0 Hf I) as L0. rewrite FV_zero in L0.
  apply Rabs_def2 in Hv.
  destruct (x =? 0)%float.
  - exists 0%float. split; [reflexivity|]. split; [exact I|].
    rewrite FV_zero. lra.
  - destruct (x <? 0)%float.
    + destruct (add_FV x 1 Hf I) as [Hfin Herr].
      { rewrite FV_one. apply Rabs_le. lra. }
      exists (x + 1)%float. split; [reflexivity|]. split; [exact Hfin|].
      rewrite FV_one in Herr. apply Rabs_le_inv in Herr. lra.
    + exists x. split; [reflexivity|]. split; [exact Hf|]. lra.
Qed.

(** ** Rounded results are canonical *)

Lemma Zdigits2_53 (m : Z) : 2 ^ 52 <= m < 2 ^ 53 -> Zdigits2 m = 53.
Proof.
  intros [Lo Hi].
  assert (Pm : 0 < m).
  { assert (0 < 2 ^ 52) by (apply Z.pow_pos_nonneg; lia). lia. }
  pose proof (Zdigits2_bounds m Pm) as [L U].
  pose proof (Zdigits2_nonneg m) as N.
  assert (H1 : 2 ^ 52 < 2 ^ Zdigits2 m) by lia.
  apply Z.pow_lt_mono_r_iff in H1; [|lia|lia].
  assert (H2 : 2 ^ (Zdigits2 m - 1) < 2 ^ 53) by lia.
  apply Z.pow_lt_mono_r_iff in H2; lia.
Qed.

Lemma Zdigits2_le_53 (m : Z) : 0 < m < 2 ^ 53 -> Zdigits2 m <= 53.
Proof.
  intros [Pm Hi].
  pose proof (Zdigits2_bounds m Pm) as [L U].
  assert (H2 : 2 ^ (Zdigits2 m - 1) < 2 ^ 53) by lia.
  apply Z.pow_lt_mono_r_iff in H2; lia.
Qed.

Lemma binary_round_aux_valid (sx : bool) (m e : Z) (l : location) :
  0 <= m -> e <= fexp prec emax (Zdigits2 m + e) ->
  valid_binary (binary_round_aux prec emax sx m e l) = true.
Proof.
  intros Hm Hl.
  unfold binary_round_aux, shr_fexp.
  rewrite fexp_eq in Hl. rewrite (fexp_eq (Zdigits2 m + e)).
  set (d := Zdigits2 m) in *.
  set (e1 := Z.max (d + e - 53) (-1074)) in *.
  destruct (bracket_shr (IZR m * pow2 e) (shr_record_of_loc m l) e (e1 - e))
    as (B0 & E1 & _).
  { rewrite shr_m_of_loc. apply bracket_exact. exact Hm. }
  destruct (shr (shr_record_of_loc m l) e (e1 - e)) as [mrs' e'].
  cbv beta iota. rewrite fexp_eq.
  cbn [fst snd] in B0, E1.
  assert (Ee : e' = e1) by lia. clear E1. subst e'.
  set (m' := shr_m mrs') in *.
  set (m1 := round_nearest_even m' (loc_of_shr_record mrs')).
  pose proof (pow2_pos e) as Pe. pose proof (pow2_pos e1) as Pe1.
  assert (Hd0 : 0 <= d) by apply Zdigits2_nonneg.
  assert (He1 : -1074 <= e1) by (unfold e1; lia).
  (* the size of the shifted mantissa *)
  assert (Hm' : 0 <= m' < 2 ^ 53 /\ (-1074 < e1 -> 2 ^ 52 <= m')
                /\ (m = 0 -> m' = 0 /\ e1 = -1074)).
  { destruct B0 as [P0 [B0 B0']].
    destruct (Z.eq_dec m 0) as [Hz|Hz].
    - assert (Hd : d = 0) by (unfold d; rewrite Hz; reflexivity).
      assert (He : e1 = -1074) by (unfold e1 in *; lia).
      rewrite Hz in B0. assert (IZR m' <= 0)%R by nra. apply le_IZR in H.
      assert (0 < 2 ^ 53) by (apply Z.pow_pos_nonneg; lia).
      repeat split; lia.
    - pose proof (Zdigits2_bounds m ltac:(lia)) as [Lo Hi]. fold d in Lo, Hi.
      assert (Hd1 : 1 <= d) by (unfold d; destruct m; simpl; lia).
      apply IZR_lt in Hi. apply IZR_le in Lo.
      rewrite <- pow2_IZR in Hi, Lo by lia.
      split; [|split; [|lia]].
      + split; [exact P0|].
        assert (H1 : (IZR m' * pow2 e1 < pow2 (d + e))%R).
        { rewrite pow2_add. nra. }
        replace (d + e) with ((d + e - e1) + e1) in H1 by lia.
        rewrite pow2_add in H1.
        assert (H2 : (IZR m' < pow2 (d + e - e1))%R) by nra.
        assert (H3 : (pow2 (d + e - e1) <= pow2 53)%R)
          by (apply pow2_le; unfold e1; lia).
        rewrite (pow2_IZR 53) in H3 by lia.
        apply lt_IZR. lra.
      + intros Hn. assert (Ed : e1 = d + e - 53) by (unfold e1 in *; lia).
        assert (H1 : (pow2 (52 + e1) <= IZR m * pow2 e)%R).
        { replace (52 + e1) with (d - 1 + e) by lia. rewrite pow2_add. nra. }
        rewrite pow2_add in H1.
        assert (H2 : (pow2 52 < IZR m' + 1)%R) by nra.
        rewrite (pow2_IZR 52), <- plus_IZR in H2 by lia.
        apply lt_IZR in H2. lia. }
  destruct Hm' as (Rm' & Lm' & Zm').
  assert (Hm1 : m1 = m' \/ m1 = m' + 1) by apply round_nearest_even_cases.
  destruct (Z.eq_dec m1 0) as [Z1|NZ1].
  - (* the rounded mantissa is zero *)
    rewrite Z1. cbn [Zdigits2 shr_record_of_loc].
    destruct (bracket_shr 0 (Build_shr_record 0 false false) e1
                (Z.max (0 + e1 - 53) (-1074) - e1)) as (B & _ & _).
    { cbn [shr_m]. split; [lia|]. lra. }
    destruct (shr (Build_shr_record 0 false false) e1
                (Z.max (0 + e1 - 53) (-1074) - e1)) as [mrs'' e''].
    cbn [fst snd] in B. apply IZR_bracket_zero in B. rewrite B. reflexivity.
  - destruct (Z.eq_dec m1 (2 ^ 53)) as [E53|N53].
    + (* a carry into the next binade *)
      rewrite E53. change (Zdigits2 (2 ^ 53)) with 54.
      replace (Z.max (54 + e1 - 53) (-1074) - e1) with 1 by lia.
      cbn [shr_record_of_loc shr fst snd SpecFloat.iter_pos].
      change (2 ^ 53) with 9007199254740992.
      cbn [shr_1 shr_m].
      destruct (e1 + 1 <=? emax - prec) eqn:Le; [|reflexivity].
      unfold valid_binary. cbn [SpecFloat.valid_binary].
      unfold SpecFloat.bounded, canonical_mantissa. rewrite fexp_eq, Le.
      change (Zpos (digits2_pos 4503599627370496)) with 53.
      apply andb_true_intro. split; [|reflexivity].
      apply Z.eqb_eq. lia.
    + (* no second shift *)
      assert (R1 : 0 < m1 < 2 ^ 53) by lia.
      pose proof (Zdigits2_le_53 m1 R1) as D1.
      pose proof (Zdigits2_nonneg m1) as D0.
      destruct (bracket_shr (IZR m1 * pow2 e1) (shr_record_of_loc m1 loc_Exact)
                  e1 (Z.max (Zdigits2 m1 + e1 - 53) (-1074) - e1))
        as (_ & E2 & N2).
      { rewrite shr_m_of_loc. apply bracket_exact. lia. }
      specialize (N2 ltac:(lia)).
      destruct (shr (shr_record_of_loc m1 loc_Exact) e1
                  (Z.max (Zdigits2 m1 + e1 - 53) (-1074) - e1)) as [mrs'' e''].
      cbn [fst snd] in E2, N2. subst mrs''. rewrite shr_m_of_loc.
      assert (Ee : e'' = e1) by lia. clear E2. subst e''.
      destruct m1 as [|p|p]; try lia.
      destruct (e1 <=? emax - prec) eqn:Le; [|reflexivity].
      unfold valid_binary. cbn [SpecFloat.valid_binary].
      unfold SpecFloat.bounded, canonical_mantissa. rewrite fexp_eq, Le.
      apply andb_true_intro. split; [|reflexivity].
      apply Z.eqb_eq. change (Zpos (digits2_pos p)) with (Zdigits2 (Zpos p)).
      destruct (Z.eq_dec e1 (-1074)) as [En|En]; [lia|].
      rewrite (Zdigits2_53 (Zpos p)); [lia|].
      specialize (Lm' ltac:(lia)). lia.
Qed.

Lemma digits2_pos_iter_xO (m k : positive) :
  Zpos (digits2_pos (Pos.iter xO m k)) = Zpos (digits2_pos m) + Zpos k.
Proof.
  induction k as [|k IH] using Pos.peano_ind.
  - cbn [Pos.iter digits2_pos]. lia.
  - rewrite Pos.iter_succ. cbn [digits2_pos].
    rewrite Pos2Z.inj_succ, IH. lia.
Qed.

Lemma binary_round_valid (s : bool) (m : positive) (e : Z) :
  valid_binary (binary_round prec emax s m e) = true.
Proof.
  unfold binary_round, shl_align. rewrite fexp_eq.
  set (f := Z.max (Zpos (digits2_pos m) + e - 53) (-1074)).
  destruct (f - e) as [|k|k] eqn:E.
  - apply binary_round_aux_valid; [lia|]. rewrite fexp_eq.
    cbn [Zdigits2]. fold f. lia.
  - apply binary_round_aux_valid; [lia|]. rewrite fexp_eq.
    cbn [Zdigits2]. fold f. lia.
  - apply binary_round_aux_valid; [lia|]. rewrite fexp_eq.
    cbn [Zdigits2]. rewrite digits2_pos_iter_xO.
    replace (Zpos (digits2_pos m) + Zpos k + f - 53)
      with (Zpos (digits2_pos m) + e - 53) by lia.
    fold f. lia.
Qed.

Lemma binary_normalize_valid (z e : Z) (sz : bool) :
  valid_binary (binary_normalize prec emax z e sz) = true.
Proof.
  destruct z; cbn [binary_normalize]; [reflexivity|apply binary_round_valid..].
Qed.

Lemma SFdiv_valid (x y : spec_float) :
  valid_binary (SFdiv prec emax x y) = true.
Proof.
  destruct x as [sx| | |sx mx ex], y as [sy| | |sy my ey]; try reflexivity.
  cbn [SFdiv].
  pose proof (SFdiv_core_binary_props mx my ex ey) as P. cbv zeta in P.
  destruct (SFdiv_core_binary prec emax (Zpos mx) ex (Zpos my) ey)
    as [[q e'] l]. cbn [fst snd] in P. destruct P as (B & _ & F).
  apply binary_round_aux_valid; [apply B|exact F].
Qed.

Lemma near_SF2Prim (sf : spec_float) (v k : R) :
  valid_binary sf = true -> SF_finite sf ->
  (Rabs (SF_value sf - v) <= k * ulp_bound)%R ->
  near (SF2Prim sf) v k.
Proof.
  intros Hv Hf He. unfold near, FFin, FV.
  rewrite (Prim2SF_SF2Prim sf Hv). split; assumption.
Qed.

(** [a / b] on ints of moderate size is within one rounding error of the
    quotient. *)
Lemma SF_raw_int_value (z : Z) :
  SF_finite (SF_raw_int z) /\ SF_value (SF_raw_int z) = IZR z.
Proof.
  destruct z as [|p|p]; cbn [SF_raw_int SF_finite SF_value cond_Zopp];
    (split; [exact I|]); rewrite ?pow2_0; try lra.
  change (- Zpos p) with (Zneg p). lra.
Qed.

Lemma int_truediv_near (a b : Z) :
  b <> 0 -> (Rabs (IZR a / IZR b) <= 1024)%R ->
  exists f, int_truediv a b = ret f /\ near f (IZR a / IZR b) 1.
Proof.
  intros Hb Hab. unfold int_truediv.
  destruct (Z.eqb_spec b 0) as [|_]; [contradiction|].
  destruct (SF_raw_int_value a) as [Fa Va].
  destruct (SF_raw_int_value b) as [Fb Vb].
  assert (Nb : IZR b <> 0%R) by (apply not_0_IZR; exact Hb).
  destruct (SFdiv_bound (SF_raw_int a) (SF_raw_int b) Fa Fb) as [Hf He].
  { rewrite Vb. exact Nb. }
  { rewrite Va, Vb. exact Hab. }
  rewrite Va, Vb in He.
  pose proof (SFdiv_valid (SF_raw_int a) (SF_raw_int b)) as Hv.
  assert (N : near (SF2Prim (SFdiv prec emax (SF_raw_int a) (SF_raw_int b)))
                   (IZR a / IZR b) 1).
  { apply near_SF2Prim; [exact Hv|exact Hf|]. lra. }
  destruct (SFdiv prec emax (SF_raw_int a) (SF_raw_int b)) eqn:E;
    cbn [SF_finite] in Hf; try contradiction;
    eexists; (split; [reflexivity|exact N]).
Qed.

(** [float(z)] for an int of moderate size. *)
Lemma float_of_int_near (z : Z) :
  (Rabs (IZR z) <= 1024)%R ->
  exists f, float_of_int z = ret f /\ near f (IZR z) 1.
Proof.
  intros Hz. unfold float_of_int, SF_of_int.
  destruct (binary_normalize_bound z 0 false) as [Hf He].
  { rewrite pow2_0, Rmult_1_r. exact Hz. }
  rewrite pow2_0, Rmult_1_r in He.
  pose proof (binary_normalize_valid z 0 false) as Hv.
  assert (N : near (SF2Prim (binary_normalize prec emax z 0 false)) (IZR z) 1).
  { apply near_SF2Prim; [exact Hv|exact Hf|]. lra. }
  destruct (binary_normalize prec emax z 0 false) eqn:E;
    cbn [SF_finite] in Hf; try contradiction;
    eexists; (split; [reflexivity|exact N]).
Qed.

(** ** Quotients of bytes *)

Lemma small_quotient (k n : Z) :
  0 < n -> 0 <= k <= n -> (0 <= IZR k / IZR n <= 1)%R.
Proof.
  intros Hn [H0 H1]. apply IZR_le in H0, H1. apply IZR_lt in Hn.
  split.
  - apply Rmult_le_pos; [lra|]. left. apply Rinv_0_lt_compat. lra.
  - apply (Rmult_le_reg_r (IZR n)); [lra|]. unfold Rdiv.
    rewrite Rmult_assoc, Rinv_l by lra. lra.
Qed.

Lemma unit_truediv (k n : Z) :
  0 < n -> 0 <= k <= n ->
  exists f, int_truediv k n = ret f /\ near f (IZR k / IZR n) 1.
Proof.
  intros Hn Hk. apply int_truediv_near; [lia|].
  pose proof (small_quotient k n Hn Hk). apply Rabs_le. lra.
Qed.

(** ** Propagation of rounding errors *)

Lemma near_exact (x : float) : FFin x -> near x (FV x) 0.
Proof.
  intros H. split; [exact H|].
  replace (FV x - FV x)%R with 0%R by lra. rewrite Rabs_R0. lra.
Qed.

Lemma near_weaken (x : float) (v i j : R) :
  near x v i -> (i <= j)%R -> near x v j.
Proof.
  pose proof ulp_bound_small as Hu.
  intros [Hf H] Hij. split; [exact Hf|].
  eapply Rle_trans; [exact H|]. nra.
Qed.

Lemma near_bounds (x : float) (v k : R) :
  near x v k -> (v - k * ulp_bound <= FV x <= v + k * ulp_bound)%R.
Proof. intros [_ H]. apply Rabs_le_inv in H. lra. Qed.

Lemma near_add (x y : float) (a b i j : R) :
  near x a i -> near y b j ->
  (0 <= i)%R -> (0 <= j)%R -> (i + j <= 1000000000)%R ->
  (-1000 <= a + b <= 1000)%R ->
  near (x + y) (a + b) (i + j + 1).
Proof.
  pose proof ulp_bound_small as Hu.
  intros Hx Hy Hi Hj Hij Hab.
  pose proof (near_bounds _ _ _ Hx) as Bx.
  pose proof (near_bounds _ _ _ Hy) as By.
  assert (Hs : ((i + j) * ulp_bound <= 1)%R) by nra.
  destruct (add_FV x y (proj1 Hx) (proj1 Hy)) as [Hf He].
  { apply Rabs_le. nra. }
  split; [exact Hf|]. apply Rabs_le_inv in He. apply Rabs_le. nra.
Qed.

Lemma near_sub (x y : float) (a b i j : R) :
  near x a i -> near y b j ->
  (0 <= i)%R -> (0 <= j)%R -> (i + j <= 1000000000)%R ->
  (-1000 <= a - b <= 1000)%R ->
  near (x - y) (a - b) (i + j + 1).
Proof.
  pose proof ulp_bound_small as Hu.
  intros Hx Hy Hi Hj Hij Hab.
  pose proof (near_bounds _ _ _ Hx) as Bx.
  pose proof (near_bounds _ _ _ Hy) as By.
  assert (Hs : ((i + j) * ulp_bound <= 1)%R) by nra.
  destruct (sub_FV x y (proj1 Hx) (proj1 Hy)) as [Hf He].
  { apply Rabs_le. nra. }
  split; [exact Hf|]. apply Rabs_le_inv in He. apply Rabs_le. nra.
Qed.

Lemma product_error (X Y a b di dj : R) :
  (Rabs (X - a) <= di)%R -> (Rabs (Y - b) <= dj)%R ->
  (Rabs a <= 1)%R -> (Rabs b <= 1)%R ->
  (Rabs (X * Y - a * b) <= di + dj + di * dj)%R.
Proof.
  intros Hx Hy Ha Hb.
  replace (X * Y - a * b)%R
    with ((X - a) * b + a * (Y - b) + (X - a) * (Y - b))%R by ring.
  pose proof (Rabs_pos (X - a)). pose proof (Rabs_pos (Y - b)).
  pose proof (Rabs_pos a). pose proof (Rabs_pos b).
  eapply Rle_trans; [apply Rabs_triang|].
  eapply Rle_trans; [apply Rplus_le_compat_r, Rabs_triang|].
  rewrite !Rabs_mult. nra.
Qed.

Lemma near_mul (x y : float) (a b i j : R) :
  near x a i -> near y b j ->
  (0 <= i)%R -> (0 <= j)%R -> (i + j <= 1000)%R ->
  (Rabs a <= 1)%R -> (Rabs b <= 1)%R ->
  near (x * y) (a * b) (i + j + 2).
Proof.
  pose proof ulp_bound_small as Hu.
  intros [Fx Hx] [Fy Hy] Hi Hj Hij Ha Hb.
  pose proof (product_error _ _ _ _ _ _ Hx Hy Ha Hb) as Hp.
  assert (Hq : (i * ulp_bound * (j * ulp_bound) <= ulp_bound)%R).
  { assert (i * j <= 1000000)%R by nra.
    assert (i * j * ulp_bound <= 1)%R by nra.
    replace (i * ulp_bound * (j * ulp_bound))%R
      with (i * j * ulp_bound * ulp_bound)%R by ring.
    assert (0 <= i * j)%R by nra. nra. }
  assert (Hab : (Rabs (a * b) <= 1)%R).
  { rewrite Rabs_mult. pose proof (Rabs_pos a). pose proof (Rabs_pos b). nra. }
  apply Rabs_le_inv in Hp, Hab.
  destruct (mul_FV x y Fx Fy) as [Hf He].
  { apply Rabs_le. nra. }
  split; [exact Hf|]. apply Rabs_le_inv in He. apply Rabs_le. nra.
Qed.

Lemma near_scale (x c : float) (a K i : R) :
  near x a i -> FFin c -> FV c = K ->
  (0 <= i <= 1000000)%R -> (1 <= K <= 400)%R -> (Rabs a <= 2)%R ->
  near (x * c) (a * K) (K * i + 1).
Proof.
  pose proof ulp_bound_small as Hu.
  intros [Fx Hx] Fc Ec Hi HK Ha.
  apply Rabs_le_inv in Hx, Ha.
  destruct (mul_FV x c Fx Fc) as [Hf He].
  { rewrite Ec. apply Rabs_le. nra. }
  split; [exact Hf|]. rewrite Ec in He.
  apply Rabs_le_inv in He. apply Rabs_le. nra.
Qed.

Lemma SF_value_neg_exp (m p : positive) :
  SF_value (S754_finite false m (Zneg p))
  = (IZR (Zpos m) / IZR (2 ^ Zpos p))%R.
Proof.
  cbn [SF_value cond_Zopp]. change (Zneg p) with (- Zpos p).
  rewrite pow2_neg, pow2_IZR by lia. reflexivity.
Qed.

Ltac fv_const :=
  unfold FV;
  match goal with
  | |- context [Prim2SF ?c] =>
      let sf := eval vm_compute in (Prim2SF c) in
      change (Prim2SF c) with sf
  end;
  rewrite SF_value_neg_exp;
  match goal with
  | |- context [(2 ^ Zpos ?p)%Z] =>
      let v := eval vm_compute in (2 ^ Zpos p)%Z in
      change (2 ^ Zpos p)%Z with v
  end;
  lra.

Lemma FV_half : FV 0.5 = (1 / 2)%R.
Proof. fv_const. Qed.

Lemma FV_2 : FV 2 = 2%R.
Proof. fv_const. Qed.

Lemma FV_4 : FV 4 = 4%R.
Proof. fv_const. Qed.

Lemma FV_6 : FV 6 = 6%R.
Proof. fv_const. Qed.

Lemma FV_100 : FV 100 = 100%R.
Proof. fv_const. Qed.

Lemma FV_255 : FV 255 = 255%R.
Proof. fv_const. Qed.

Lemma FV_360 : FV 360 = 360%R.
Proof. fv_const. Qed.

Lemma near_mul_unit (x y : float) (a b i j : R) :
  near x a i -> near y b j ->
  (0 <= a <= 1)%R -> (0 <= b <= 1)%R ->
  (0 <= i)%R -> (0 <= j)%R -> (i + j <= 1000)%R ->
  near (x * y) (a * b) (i + j + 2) /\ (0 <= a * b <= 1)%R.
Proof.
  intros Hx Hy Ha Hb Hi Hj Hij. split; [|nra].
  apply near_mul; try assumption; apply Rabs_le; lra.
Qed.

(** [int(x * n + .5)] for [x] close to a real in [0,1] is an int in [0,n]. *)
Lemma round_scaled_unit (x c : float) (a i : R) (n : Z) :
  near x a i -> FFin c -> FV c = IZR n -> 1 <= n <= 400 ->
  (0 <= i <= 1000000)%R -> (0 <= a <= 1)%R ->
  exists z, round_scaled x c = ret z /\ 0 <= z <= n.
Proof.
  pose proof ulp_bound_small as Hu.
  intros Hx Fc Ec Hn Hi Ha. unfold round_scaled.
  assert (HK : (1 <= IZR n <= 400)%R) by (split; apply IZR_le; lia).
  pose proof (near_scale x c a (IZR n) i Hx Fc Ec Hi HK
                ltac:(apply Rabs_le; lra)) as Hm.
  assert (Hh : near 0.5 (1 / 2) 0) by (rewrite <- FV_half; apply near_exact; exact I).
  pose proof (near_add _ _ _ _ _ _ Hm Hh ltac:(nra) ltac:(lra) ltac:(nra)
                ltac:(nra)) as Hs.
  pose proof (near_bounds _ _ _ Hs) as B.
  apply int_of_float_range; [exact (proj1 Hs)|].
  assert (Hni : (0 <= IZR n * i <= 400000000)%R) by nra.
  assert ((IZR n * i + 1 + 0 + 1) * ulp_bound <= / 4)%R by nra.
  nra.
Qed.

(** ** Trilinear interpolation stays in the unit cube *)

Lemma near_term (c t : float) (w : R) :
  near c w 10 -> unit_float t -> (0 <= w <= 1)%R ->
  near (c * t) (w * FV t) 12 /\ (0 <= w * FV t <= w)%R.
Proof.
  intros Hc [Ft Ht] Hw.
  destruct (near_mul_unit c t w (FV t) 10 0 Hc (near_exact t Ft) Hw Ht
              ltac:(lra) ltac:(lra) ltac:(lra)) as [H _].
  split; [|nra]. eapply near_weaken; [exact H|lra].
Qed.

Lemma mix_near (ch : corner -> float) (t : table)
    (c0 c1 c2 c3 c4 c5 c6 c7 : float) (w0 w1 w2 w3 w4 w5 w6 w7 : R) :
  near c0 w0 10 -> near c1 w1 10 -> near c2 w2 10 -> near c3 w3 10 ->
  near c4 w4 10 -> near c5 w5 10 -> near c6 w6 10 -> near c7 w7 10 ->
  (0 <= w0)%R -> (0 <= w1)%R -> (0 <= w2)%R -> (0 <= w3)%R ->
  (0 <= w4)%R -> (0 <= w5)%R -> (0 <= w6)%R -> (0 <= w7)%R ->
  (w0 + w1 + w2 + w3 + w4 + w5 + w6 + w7 = 1)%R ->
  unit_float (ch (f000 t)) -> unit_float (ch (f001 t)) ->
  unit_float (ch (f010 t)) -> unit_float (ch (f011 t)) ->
  unit_float (ch (f100 t)) -> unit_float (ch (f101 t)) ->
  unit_float (ch (f110 t)) -> unit_float (ch (f111 t)) ->
  let S := (w0 * FV (ch (f000 t)) + w1 * FV (ch (f001 t))
            + w2 * FV (ch (f010 t)) + w3 * FV (ch (f011 t))
            + w4 * FV (ch (f100 t)) + w5 * FV (ch (f101 t))
            + w6 * FV (ch (f110 t)) + w7 * FV (ch (f111 t)))%R in
  near (mix ch t c0 c1 c2 c3 c4 c5 c6 c7) S 103 /\ (0 <= S <= 1)%R.
Proof.
  intros N0 N1 N2 N3 N4 N5 N6 N7 P0 P1 P2 P3 P4 P5 P6 P7 Hsum
         U0 U1 U2 U3 U4 U5 U6 U7.
  destruct (near_term _ _ _ N0 U0 ltac:(lra)) as [T0 B0].
  destruct (near_term _ _ _ N1 U1 ltac:(lra)) as [T1 B1].
  destruct (near_term _ _ _ N2 U2 ltac:(lra)) as [T2 B2].
  destruct (near_term _ _ _ N3 U3 ltac:(lra)) as [T3 B3].
  destruct (near_term _ _ _ N4 U4 ltac:(lra)) as [T4 B4].
  destruct (near_term _ _ _ N5 U5 ltac:(lra)) as [T5 B5].
  destruct (near_term _ _ _ N6 U6 ltac:(lra)) as [T6 B6].
  destruct (near_term _ _ _ N7 U7 ltac:(lra)) as [T7 B7].
  pose proof (near_add _ _ _ _ _ _ T0 T1 ltac:(lra) ltac:(lra) ltac:(lra)
                ltac:(lra)) as A1.
  pose proof (near_add _ _ _ _ _ _ A1 T2 ltac:(lra) ltac:(lra) ltac:(lra)
                ltac:(lra)) as A2.
  pose proof (near_add _ _ _ _ _ _ A2 T3 ltac:(lra) ltac:(lra) ltac:(lra)
                ltac:(lra)) as A3.
  pose proof (near_add _ _ _ _ _ _ A3 T4 ltac:(lra) ltac:(lra) ltac:(lra)
                ltac:(lra)) as A4.
  pose proof (near_add _ _ _ _ _ _ A4 T5 ltac:(lra) ltac:(lra) ltac:(lra)
                ltac:(lra)) as A5.
  pose proof (near_add _ _ _ _ _ _ A5 T6 ltac:(lra) ltac:(lra) ltac:(lra)
                ltac:(lra)) as A6.
  pose proof (near_add _ _ _ _ _ _ A6 T7 ltac:(lra) ltac:(lra) ltac:(lra)
                ltac:(lra)) as A7.
  cbv zeta. split.
  - unfold mix. eapply near_weaken; [exact A7|lra].
  - lra.
Qed.

Lemma convert_near_interpolant (r y b : float) (rho gam bet : R) (t : table) :
  near r rho 1 -> near y gam 1 -> near b bet 1 ->
  (0 <= rho <= 1)%R -> (0 <= gam <= 1)%R -> (0 <= bet <= 1)%R ->
  unit_table t ->
  near (ch0 (convert r y b t)) (interpolant ch0 t rho gam bet) 103
  /\ (0 <= interpolant ch0 t rho gam bet <= 1)%R
  /\ near (ch1 (convert r y b t)) (interpolant ch1 t rho gam bet) 103
  /\ (0 <= interpolant ch1 t rho gam bet <= 1)%R
  /\ near (ch2 (convert r y b t)) (interpolant ch2 t rho gam bet) 103
  /\ (0 <= interpolant ch2 t rho gam bet <= 1)%R.
Proof.
  intros Nr Ny Nb Hr Hy Hb Ht.
  pose proof (near_exact 1 I) as N1. rewrite FV_one in N1.
  pose proof (near_sub _ _ _ _ _ _ N1 Nr ltac:(lra) ltac:(lra) ltac:(lra)
                ltac:(lra)) as Nri.
  pose proof (near_sub _ _ _ _ _ _ N1 Ny ltac:(lra) ltac:(lra) ltac:(lra)
                ltac:(lra)) as Nyi.
  pose proof (near_sub _ _ _ _ _ _ N1 Nb ltac:(lra) ltac:(lra) ltac:(lra)
                ltac:(lra)) as Nbi.
  apply near_weaken with (j := 2%R) in Nr, Ny, Nb, Nri, Nyi, Nbi; try lra.
  set (ri := (1 - r)%float) in *. set (yi := (1 - y)%float) in *.
  set (bi := (1 - b)%float) in *.
  assert (Hri : (0 <= 1 - rho <= 1)%R) by lra.
  assert (Hyi : (0 <= 1 - gam <= 1)%R) by lra.
  assert (Hbi : (0 <= 1 - bet <= 1)%R) by lra.
  (* the four products of the first two weights *)
  destruct (near_mul_unit ri yi _ _ 2 2 Nri Nyi Hri Hyi ltac:(lra) ltac:(lra)
              ltac:(lra)) as [M00 B00].
  destruct (near_mul_unit ri y _ _ 2 2 Nri Ny Hri Hy ltac:(lra) ltac:(lra)
              ltac:(lra)) as [M01 B01].
  destruct (near_mul_unit r yi _ _ 2 2 Nr Nyi Hr Hyi ltac:(lra) ltac:(lra)
              ltac:(lra)) as [M10 B10].
  destruct (near_mul_unit r y _ _ 2 2 Nr Ny Hr Hy ltac:(lra) ltac:(lra)
              ltac:(lra)) as [M11 B11].
  (* the eight weights *)
  destruct (near_mul_unit _ bi _ _ _ 2 M00 Nbi B00 Hbi ltac:(lra) ltac:(lra)
              ltac:(lra)) as [C000 W000].
  destruct (near_mul_unit _ b _ _ _ 2 M00 Nb B00 Hb ltac:(lra) ltac:(lra)
              ltac:(lra)) as [C001 W001].
  destruct (near_mul_unit _ bi _ _ _ 2 M01 Nbi B01 Hbi ltac:(lra) ltac:(lra)
              ltac:(lra)) as [C010 W010].
  destruct (near_mul_unit _ b _ _ _ 2 M01 Nb B01 Hb ltac:(lra) ltac:(lra)
              ltac:(lra)) as [C011 W011].
  destruct (near_mul_unit _ bi _ _ _ 2 M10 Nbi B10 Hbi ltac:(lra) ltac:(lra)
              ltac:(lra)) as [C100 W100].
  destruct (near_mul_unit _ b _ _ _ 2 M10 Nb B10 Hb ltac:(lra) ltac:(lra)
              ltac:(lra)) as [C101 W101].
  destruct (near_mul_unit _ bi _ _ _ 2 M11 Nbi B11 Hbi ltac:(lra) ltac:(lra)
              ltac:(lra)) as [C110 W110].
  destruct (near_mul_unit _ b _ _ _ 2 M11 Nb B11 Hb ltac:(lra) ltac:(lra)
              ltac:(lra)) as [C111 W111].
  apply near_weaken with (j := 10%R) in C000, C001, C010, C011, C100, C101,
    C110, C111; try lra.
  assert (Hsum : ((1 - rho) * (1 - gam) * (1 - bet) + (1 - rho) * (1 - gam) * bet
                  + (1 - rho) * gam * (1 - bet) + (1 - rho) * gam * bet
                  + rho * (1 - gam) * (1 - bet) + rho * (1 - gam) * bet
                  + rho * gam * (1 - bet) + rho * gam * bet = 1)%R) by ring.
  destruct Ht as (U0 & U1 & U2 & U3 & U4 & U5 & U6 & U7).
  destruct (mix_near ch0 t _ _ _ _ _ _ _ _ _ _ _ _ _ _ _ _
              C000 C001 C010 C011 C100 C101 C110 C111
              (proj1 W000) (proj1 W001) (proj1 W010) (proj1 W011)
              (proj1 W100) (proj1 W101) (proj1 W110) (proj1 W111) Hsum
              (proj1 U0) (proj1 U1) (proj1 U2) (proj1 U3)
              (proj1 U4) (proj1 U5) (proj1 U6) (proj1 U7)) as (X0 & Y0).
  destruct (mix_near ch1 t _ _ _ _ _ _ _ _ _ _ _ _ _ _ _ _
              C000 C001 C010 C011 C100 C101 C110 C111
              (proj1 W000) (proj1 W001) (proj1 W010) (proj1 W011)
              (proj1 W100) (proj1 W101) (proj1 W110) (proj1 W111) Hsum
              (proj1 (proj2 U0)) (proj1 (proj2 U1)) (proj1 (proj2 U2))
              (proj1 (proj2 U3)) (proj1 (proj2 U4)) (proj1 (proj2 U5))
              (proj1 (proj2 U6)) (proj1 (proj2 U7))) as (X1 & Y1).
  destruct (mix_near ch2 t _ _ _ _ _ _ _ _ _ _ _ _ _ _ _ _
              C000 C001 C010 C011 C100 C101 C110 C111
              (proj1 W000) (proj1 W001) (proj1 W010) (proj1 W011)
              (proj1 W100) (proj1 W101) (proj1 W110) (proj1 W111) Hsum
              (proj2 (proj2 U0)) (proj2 (proj2 U1)) (proj2 (proj2 U2))
              (proj2 (proj2 U3)) (proj2 (proj2 U4)) (proj2 (proj2 U5))
              (proj2 (proj2 U6)) (proj2 (proj2 U7))) as (X2 & Y2).
  exact (conj X0 (conj Y0 (conj X1 (conj Y1 (conj X2 Y2))))).
Qed.

Lemma convert_near (r y b : float) (rho gam bet : R) (t : table) :
  near r rho 1 -> near y gam 1 -> near b bet 1 ->
  (0 <= rho <= 1)%R -> (0 <= gam <= 1)%R -> (0 <= bet <= 1)%R ->
  unit_table t ->
  exists S0 S1 S2 : R,
    near (ch0 (convert r y b t)) S0 103 /\ (0 <= S0 <= 1)%R
    /\ near (ch1 (convert r y b t)) S1 103 /\ (0 <= S1 <= 1)%R
    /\ near (ch2 (convert r y b t)) S2 103 /\ (0 <= S2 <= 1)%R.
Proof.
  intros Nr Ny Nb Hr Hy Hb Ht.
  exists (interpolant ch0 t rho gam bet), (interpolant ch1 t rho gam bet),
    (interpolant ch2 t rho gam bet).
  apply convert_near_interpolant; assumption.
Qed.

Lemma unit_float_by_leb (c : float) :
  FFin c -> (0 <=? c)%float = true -> (c <=? 1)%float = true -> unit_float c.
Proof.
  intros Hf H0 H1. split; [exact Hf|].
  pose proof (leb_FV 0 c I Hf) as L0. rewrite H0, FV_zero in L0.
  pose proof (leb_FV c 1 Hf I) as L1. rewrite H1, FV_one in L1.
  lra.
Qed.

Ltac unit_table_tac :=
  unfold unit_table, unit_corner;
  cbn [f000 f001 f010 f011 f100 f101 f110 f111];
  repeat match goal with
         | |- unit_float _ =>
             apply unit_float_by_leb; [exact I|reflexivity|reflexivity]
         | |- _ /\ _ => split
         end.

Lemma unit_table_IRISSON : unit_table IRISSON_RYB_TO_RGB.
Proof. unfold IRISSON_RYB_TO_RGB. unit_table_tac. Qed.

Lemma unit_table_RGB_TO_RYB : unit_table RGB_TO_RYB.
Proof. unfold RGB_TO_RYB. unit_table_tac. Qed.

Lemma unit_table_GOSSET : unit_table GOSSET_RYB_TO_RGB.
Proof. unfold GOSSET_RYB_TO_RGB. unit_table_tac. Qed.

Lemma byte_unit (k : Z) : 0 <= k <= 255 -> (0 <= IZR k / 255 <= 1)%R.
Proof.
  intros [H0 H1]. apply IZR_le in H0, H1.
  split.
  - apply Rmult_le_pos; lra.
  - apply (Rmult_le_reg_r 255); [lra|]. unfold Rdiv.
    rewrite Rmult_assoc, Rinv_l by lra. lra.
Qed.

Lemma convert_255_range (t : table) (r g b : Z) :
  unit_table t ->
  0 <= r <= 255 -> 0 <= g <= 255 -> 0 <= b <= 255 ->
  exists r' g' b',
    convert_255 t (mkRGB r g b) = ret (mkRGB r' g' b')
    /\ 0 <= r' <= 255 /\ 0 <= g' <= 255 /\ 0 <= b' <= 255.
Proof.
  intros Ht Hr Hg Hb. unfold convert_255. cbn [rgb_r rgb_g rgb_b].
  destruct (unit_truediv r 255 ltac:(lia) ltac:(lia)) as (fr & Er & Nr).
  destruct (unit_truediv g 255 ltac:(lia) ltac:(lia)) as (fg & Eg & Ng).
  destruct (unit_truediv b 255 ltac:(lia) ltac:(lia)) as (fb & Eb & Nb).
  rewrite Er, Eg, Eb. cbn [bind ret].
  destruct (convert_near fr fg fb _ _ _ t Nr Ng Nb (byte_unit r Hr)
              (byte_unit g Hg) (byte_unit b Hb) Ht)
    as (S0 & S1 & S2 & X0 & Y0 & X1 & Y1 & X2 & Y2).
  destruct (round_scaled_unit _ 255 S0 103 255 X0 I FV_255 ltac:(lia)
              ltac:(lra) Y0) as (r' & Er' & Rr').
  destruct (round_scaled_unit _ 255 S1 103 255 X1 I FV_255 ltac:(lia)
              ltac:(lra) Y1) as (g' & Eg' & Rg').
  destruct (round_scaled_unit _ 255 S2 103 255 X2 I FV_255 ltac:(lia)
              ltac:(lra) Y2) as (b' & Eb' & Rb').
  exists r', g', b'. rewrite Er', Eg', Eb'. cbn [bind ret]. auto.
Qed.



(** ** Quotients *)

Lemma near_div_const (x c : float) (a K i : R) :
  near x a i -> FFin c -> FV c = K -> (1 <= K)%R ->
  (Rabs a <= 1000)%R -> (0 <= i <= 1000000)%R ->
  exists q, float_div x c = ret q /\ near q (a / K) (i + 1).
Proof.
  pose proof ulp_bound_small as Hu.
  intros [Fx Hx] Fc Ec HK Ha Hi.
  apply Rabs_le_inv in Hx, Ha.
  assert (PK : (0 < / K)%R) by (apply Rinv_0_lt_compat; lra).
  assert (IK : (/ K <= 1)%R).
  { rewrite <- Rinv_1. apply Rinv_le_contravar; lra. }
  assert (Hiu : (i * ulp_bound <= 1)%R) by nra.
  assert (Bq : (- 1024 <= FV x * / K <= 1024)%R) by nra.
  destruct (float_div_FV x c Fx Fc) as (q & Eq & Fq & Hq).
  { rewrite Ec. lra. }
  { rewrite Ec. apply Rabs_le. exact Bq. }
  exists q. split; [exact Eq|]. split; [exact Fq|].
  rewrite Ec in Hq. apply Rabs_le_inv in Hq. unfold Rdiv in *.
  apply Rabs_le. nra.
Qed.

Lemma near_div_unit (x y : float) (a b i j : R) :
  near x a i -> near y b j ->
  (0 <= a <= b)%R -> (/ 255 <= b <= 2)%R ->
  (0 <= i)%R -> (0 <= j)%R -> (i + j <= 1000)%R ->
  exists q, float_div x y = ret q
            /\ near q (a / b) (300 * (i + j) + 1) /\ (0 <= a / b <= 1)%R.
Proof.
  pose proof ulp_bound_small as Hu.
  intros [Fx Hx] [Fy Hy] Ha Hb Hi Hj Hij.
  apply Rabs_le_inv in Hx, Hy.
  set (X := FV x) in *. set (Y := FV y) in *.
  assert (Hiu : (i * ulp_bound <= / 1000000000)%R) by nra.
  assert (Hju : (j * ulp_bound <= / 1000000000)%R) by nra.
  assert (HY : (/ 300 <= Y)%R) by lra.
  assert (Pb : (0 < b)%R) by lra.
  assert (Qab : (0 <= a / b <= 1)%R).
  { split.
    - apply Rmult_le_pos; [lra|]. left. apply Rinv_0_lt_compat. lra.
    - apply (Rmult_le_reg_r b); [lra|]. unfold Rdiv.
      rewrite Rmult_assoc, Rinv_l by lra. lra. }
  set (D := (X / Y - a / b)%R).
  assert (ED : (D * (Y * b) = (X - a) * b - a * (Y - b))%R).
  { unfold D. field. lra. }
  assert (B1 : (- ((i + j) * ulp_bound) * b <= D * (Y * b)
                <= (i + j) * ulp_bound * b)%R).
  { rewrite ED. nra. }
  assert (B2 : (- ((i + j) * ulp_bound) <= D * Y <= (i + j) * ulp_bound)%R).
  { replace (D * (Y * b))%R with (D * Y * b)%R in B1 by ring.
    split; apply (Rmult_le_reg_r b); lra. }
  assert (B3 : (- (300 * (i + j) * ulp_bound) <= D
                <= 300 * (i + j) * ulp_bound)%R).
  { assert (0 <= (i + j) * ulp_bound)%R by nra. nra. }
  assert (B4 : (300 * (i + j) * ulp_bound <= 1)%R) by nra.
  destruct (float_div_FV x y Fx Fy) as (q & Eq & Fq & Hq).
  { fold Y. lra. }
  { fold X Y. apply Rabs_le. unfold D in B3. lra. }
  exists q. split; [exact Eq|]. split; [|exact Qab].
  split; [exact Fq|]. fold X Y in Hq. apply Rabs_le_inv in Hq.
  apply Rabs_le. unfold D in B3. lra.
Qed.

(** ** Channels of a byte triple *)

Lemma chan_near (f : float) (k : Z) : chan f k -> near f (IZR k / 255) 1.
Proof.
  intros [Hk E].
  destruct (unit_truediv k 255 ltac:(lia) ltac:(lia)) as (f' & E' & N).
  rewrite E in E'. injection E' as <-. exact N.
Qed.

Lemma chan_unit (f : float) (k : Z) : chan f k -> (0 <= IZR k / 255 <= 1)%R.
Proof. intros [Hk _]. apply byte_unit. exact Hk. Qed.

Lemma chan_exists (k : Z) : 0 <= k <= 255 -> exists f, chan f k.
Proof.
  intros Hk.
  destruct (unit_truediv k 255 ltac:(lia) ltac:(lia)) as (f & E & _).
  exists f. split; assumption.
Qed.

Lemma chan_le (f g : float) (j k : Z) :
  chan f j -> chan g k -> (FV f <= FV g)%R -> j <= k.
Proof.
  pose proof ulp_bound_small as Hu.
  intros Hf Hg H.
  pose proof (near_bounds _ _ _ (chan_near _ _ Hf)) as Bf.
  pose proof (near_bounds _ _ _ (chan_near _ _ Hg)) as Bg.
  assert (IZR j < IZR (k + 1))%R by (rewrite plus_IZR; lra).
  apply lt_IZR in H0. lia.
Qed.

Lemma chan_fun (f g : float) (k : Z) : chan f k -> chan g k -> f = g.
Proof. intros [_ E1] [_ E2]. rewrite E1 in E2. injection E2 as <-. reflexivity. Qed.

Lemma chan_max (f g : float) (j k : Z) :
  chan f j -> chan g k -> chan (float_max f g) (Z.max j k).
Proof.
  intros Hf Hg. unfold float_max.
  pose proof (ltb_FV f g (proj1 (chan_near _ _ Hf)) (proj1 (chan_near _ _ Hg))) as L.
  destruct (f <? g)%float.
  - assert (j <= k) by (apply (chan_le f g); [assumption..|lra]).
    rewrite Z.max_r by lia. exact Hg.
  - assert (k <= j) by (apply (chan_le g f); assumption).
    rewrite Z.max_l by lia. exact Hf.
Qed.

Lemma chan_min (f g : float) (j k : Z) :
  chan f j -> chan g k -> chan (float_min f g) (Z.min j k).
Proof.
  intros Hf Hg. unfold float_min.
  pose proof (ltb_FV g f (proj1 (chan_near _ _ Hg)) (proj1 (chan_near _ _ Hf))) as L.
  destruct (g <? f)%float.
  - assert (k <= j) by (apply (chan_le g f); [assumption..|lra]).
    rewrite Z.min_r by lia. exact Hg.
  - assert (j <= k) by (apply (chan_le f g); assumption).
    rewrite Z.min_l by lia. exact Hf.
Qed.

(** ** [colorsys.rgb_to_hls] on byte channels *)

Lemma div255_le (j k : Z) : j <= k -> (IZR j / 255 <= IZR k / 255)%R.
Proof. intros H. apply IZR_le in H. lra. Qed.

Lemma clamp_unit (v : R) :
  (- ulp_bound <= v <= 1 + ulp_bound)%R ->
  exists a : R, (0 <= a <= 1)%R /\ (Rabs (v - a) <= 1 * ulp_bound)%R.
Proof.
  pose proof ulp_bound_small as Hu. intros Hv.
  destruct (Rle_dec v 0) as [H0|H0].
  - exists 0%R. split; [lra|]. apply Rabs_le. lra.
  - destruct (Rle_dec v 1) as [H1|H1].
    + exists v. split; [lra|]. apply Rabs_le. lra.
    + exists 1%R. split; [lra|]. apply Rabs_le. lra.
Qed.

Lemma near_lit (c : float) (v : R) : FFin c -> FV c = v -> near c v 0.
Proof. intros Hf <-. apply near_exact. exact Hf. Qed.

Lemma rgb_to_hls_range (fr fg fb : float) (r g b : Z) :
  chan fr r -> chan fg g -> chan fb b ->
  exists (h l s : float) (ah al aS : R),
    colorsys.rgb_to_hls fr fg fb = ret (h, l, s)
    /\ near h ah 1 /\ (0 <= ah <= 1)%R
    /\ near l al 4 /\ (0 <= al <= 1)%R
    /\ near s aS 2101 /\ (0 <= aS <= 1)%R.
Proof.
  pose proof ulp_bound_small as Hu.
  intros Cr Cg Cb. unfold colorsys.rgb_to_hls.
  pose proof (chan_max _ _ _ _ (chan_max _ _ _ _ Cr Cg) Cb) as Cmax.
  pose proof (chan_min _ _ _ _ (chan_min _ _ _ _ Cr Cg) Cb) as Cmin.
  set (maxc := float_max (float_max fr fg) fb) in *.
  set (minc := float_min (float_min fr fg) fb) in *.
  set (M := Z.max (Z.max r g) b) in *. set (m := Z.min (Z.min r g) b) in *.
  pose proof (chan_near _ _ Cr) as Nr. pose proof (chan_near _ _ Cg) as Ng.
  pose proof (chan_near _ _ Cb) as Nb.
  pose proof (chan_near _ _ Cmax) as Nmax.
  pose proof (chan_near _ _ Cmin) as Nmin.
  pose proof (chan_unit _ _ Cmax) as Umax.
  pose proof (chan_unit _ _ Cmin) as Umin.
  pose proof (div255_le m r ltac:(unfold m; lia)) as Lr.
  pose proof (div255_le m g ltac:(unfold m; lia)) as Lg.
  pose proof (div255_le m b ltac:(unfold m; lia)) as Lb.
  pose proof (div255_le r M ltac:(unfold M; lia)) as Ur.
  pose proof (div255_le g M ltac:(unfold M; lia)) as Ug.
  pose proof (div255_le b M ltac:(unfold M; lia)) as Ub.
  set (mu := (IZR M / 255)%R) in *. set (nu := (IZR m / 255)%R) in *.
  set (rho := (IZR r / 255)%R) in *. set (gam := (IZR g / 255)%R) in *.
  set (bet := (IZR b / 255)%R) in *.
  pose proof (near_add _ _ _ _ _ _ Nmax Nmin ltac:(lra) ltac:(lra) ltac:(lra)
                ltac:(lra)) as Nsum.
  pose proof (near_sub _ _ _ _ _ _ Nmax Nmin ltac:(lra) ltac:(lra) ltac:(lra)
                ltac:(lra)) as Nrange.
  destruct (near_div_const _ 2 _ 2 _ Nsum I FV_2 ltac:(lra)
              ltac:(apply Rabs_le; lra) ltac:(lra)) as (l & El & Nl).
  rewrite El. cbn [bind ret].
  assert (Nl4 : near l ((mu + nu) / 2) 4) by (eapply near_weaken; [exact Nl|lra]).
  pose proof (eqb_FV minc maxc (proj1 Nmin) (proj1 Nmax)) as Eq.
  destruct (minc =? maxc)%float.
  { exists 0%float, l, 0%float, 0%R, ((mu + nu) / 2)%R, 0%R.
    assert (N0 : near 0 0 0) by (apply near_lit; [exact I|exact FV_zero]).
    split; [reflexivity|].
    split; [eapply near_weaken; [exact N0|lra]|]. split; [lra|].
    split; [exact Nl4|]. split; [lra|].
    split; [eapply near_weaken; [exact N0|lra]|]. lra. }
  assert (HmM : m < M).
  { assert (m <= M) by (unfold m, M; lia).
    destruct (Z.eq_dec m M) as [E|E]; [|lia].
    exfalso. apply Eq. rewrite E in Cmin.
    rewrite (chan_fun _ _ _ Cmin Cmax). reflexivity. }
  assert (Gap : (/ 255 <= mu - nu)%R).
  { assert (IZR m + 1 <= IZR M)%R by (rewrite <- plus_IZR; apply IZR_le; lia).
    unfold mu, nu. lra. }
  (* saturation *)
  assert (Hs : exists s aS,
             (if (l <=? 0.5)%float then float_div (maxc - minc) (maxc + minc)
              else float_div (maxc - minc) (2 - maxc - minc)) = ret s
             /\ near s aS 2101 /\ (0 <= aS <= 1)%R).
  { destruct (l <=? 0.5)%float.
    - destruct (near_div_unit _ _ _ _ _ _ Nrange Nsum ltac:(lra) ltac:(lra)
                  ltac:(lra) ltac:(lra) ltac:(lra)) as (s & Es & Ns & Bs).
      exists s, ((mu - nu) / (mu + nu))%R. split; [exact Es|].
      split; [eapply near_weaken; [exact Ns|lra]|exact Bs].
    - pose proof (near_sub _ _ _ _ _ _ (near_lit 2 2 I FV_2) Nmax ltac:(lra)
                    ltac:(lra) ltac:(lra) ltac:(lra)) as N2.
      pose proof (near_sub _ _ _ _ _ _ N2 Nmin ltac:(lra) ltac:(lra)
                    ltac:(lra) ltac:(lra)) as N3.
      destruct (near_div_unit _ _ _ _ _ _ Nrange N3 ltac:(lra) ltac:(lra)
                  ltac:(lra) ltac:(lra) ltac:(lra)) as (s & Es & Ns & Bs).
      exists s, ((mu - nu) / (2 - mu - nu))%R. split; [exact Es|].
      split; [eapply near_weaken; [exact Ns|lra]|exact Bs]. }
  destruct Hs as (s & aS & Es & Ns & Bs). rewrite Es. cbn [bind ret].
  (* the three differences from the maximum *)
  pose proof (near_sub _ _ _ _ _ _ Nmax Nr ltac:(lra) ltac:(lra) ltac:(lra)
                ltac:(lra)) as Dr.
  pose proof (near_sub _ _ _ _ _ _ Nmax Ng ltac:(lra) ltac:(lra) ltac:(lra)
                ltac:(lra)) as Dg.
  pose proof (near_sub _ _ _ _ _ _ Nmax Nb ltac:(lra) ltac:(lra) ltac:(lra)
                ltac:(lra)) as Db.
  destruct (near_div_unit _ _ _ _ _ _ Dr Nrange ltac:(lra) ltac:(lra)
              ltac:(lra) ltac:(lra) ltac:(lra)) as (rc & Erc & Nrc & Brc).
  destruct (near_div_unit _ _ _ _ _ _ Dg Nrange ltac:(lra) ltac:(lra)
              ltac:(lra) ltac:(lra) ltac:(lra)) as (gc & Egc & Ngc & Bgc).
  destruct (near_div_unit _ _ _ _ _ _ Db Nrange ltac:(lra) ltac:(lra)
              ltac:(lra) ltac:(lra) ltac:(lra)) as (bc & Ebc & Nbc & Bbc).
  rewrite Erc, Egc, Ebc. cbn [bind ret].
  set (Rr := ((mu - rho) / (mu - nu))%R) in *.
  set (Rg := ((mu - gam) / (mu - nu))%R) in *.
  set (Rb := ((mu - bet) / (mu - nu))%R) in *.
  (* the hue before wrapping *)
  assert (Hh : exists eta,
             near (if (fr =? maxc)%float then (bc - gc)%float
                   else if (fg =? maxc)%float then (2 + rc - bc)%float
                        else (4 + gc - rc)%float) eta 3604
             /\ (-1 <= eta <= 5)%R).
  { destruct (fr =? maxc)%float; [|destruct (fg =? maxc)%float].
    - exists (Rb - Rg)%R. split; [|lra].
      pose proof (near_sub _ _ _ _ _ _ Nbc Ngc ltac:(lra) ltac:(lra)
                    ltac:(lra) ltac:(lra)) as H.
      eapply near_weaken; [exact H|lra].
    - exists (2 + Rr - Rb)%R. split; [|lra].
      pose proof (near_add _ _ _ _ _ _ (near_lit 2 2 I FV_2) Nrc ltac:(lra)
                    ltac:(lra) ltac:(lra) ltac:(lra)) as H1.
      pose proof (near_sub _ _ _ _ _ _ H1 Nbc ltac:(lra) ltac:(lra)
                    ltac:(lra) ltac:(lra)) as H.
      eapply near_weaken; [exact H|lra].
    - exists (4 + Rg - Rr)%R. split; [|lra].
      pose proof (near_add _ _ _ _ _ _ (near_lit 4 4 I FV_4) Ngc ltac:(lra)
                    ltac:(lra) ltac:(lra) ltac:(lra)) as H1.
      pose proof (near_sub _ _ _ _ _ _ H1 Nrc ltac:(lra) ltac:(lra)
                    ltac:(lra) ltac:(lra)) as H.
      eapply near_weaken; [exact H|lra]. }
  destruct Hh as (eta & Nh & Bh).
  destruct (near_div_const _ 6 _ 6 _ Nh I FV_6 ltac:(lra)
              ltac:(apply Rabs_le; lra) ltac:(lra)) as (h6 & Eh6 & Nh6).
  rewrite Eh6. cbn [bind ret].
  pose proof (near_bounds _ _ _ Nh6) as B6.
  destruct (float_mod_one h6 (proj1 Nh6)) as (h' & Eh' & Fh' & Bh').
  { apply Rabs_def1; lra. }
  rewrite Eh'. cbn [bind ret].
  destruct (clamp_unit _ Bh') as (ah & Bah & Nah).
  exists h', l, s, ah, ((mu + nu) / 2)%R, aS.
  split; [reflexivity|].
  split; [split; assumption|]. split; [exact Bah|].
  split; [exact Nl4|]. split; [lra|].
  split; [exact Ns|exact Bs].
Qed.



(** ** The remainder modulo 1 *)

Lemma fmod_one_near (x : float) :
  FFin x -> exists v : R, near (fmod x 1) v 1 /\ (Rabs v < 1)%R.
Proof.
  pose proof ulp_bound_small as Hu.
  unfold FFin, fmod. rewrite Prim2SF_one.
  destruct (Prim2SF x) as [s| | |s m e]; cbn [SF_finite]; try contradiction;
    intros _.
  - exists 0%R. split.
    + cbn [SFfmod]. apply near_SF2Prim; [reflexivity|exact I|].
      cbn [SF_value]. apply Rabs_le. lra.
    + rewrite Rabs_R0. lra.
  - cbn [SFfmod].
    set (ez := Z.min e (-52)).
    set (Y := Z.shiftl 4503599627370496 (-52 - ez)).
    set (X := Z.shiftl (Zpos m) (e - ez)).
    assert (HY : Y = 2 ^ (- ez)).
    { unfold Y. rewrite Z.shiftl_mul_pow2 by (unfold ez; lia).
      change 4503599627370496 with (2 ^ 52).
      rewrite <- Z.pow_add_r by (unfold ez; lia). f_equal. lia. }
    assert (PY : 0 < Y).
    { rewrite HY. apply Z.pow_pos_nonneg; unfold ez; lia. }
    pose proof (Z.mod_pos_bound X Y PY) as [R0 R1].
    set (R := X mod Y) in *.
    assert (HV : (0 <= IZR R * pow2 ez < 1)%R).
    { pose proof (pow2_pos ez) as Pe.
      apply IZR_le in R0. apply IZR_lt in R1.
      rewrite HY, <- pow2_IZR, pow2_neg in R1 by (unfold ez; lia).
      split; [nra|].
      apply (Rmult_lt_reg_r (/ pow2 ez)).
      - apply Rinv_0_lt_compat. exact Pe.
      - rewrite Rmult_assoc, Rinv_r by lra. lra. }
    exists (IZR (cond_Zopp s R) * pow2 ez)%R.
    assert (HA : (Rabs (IZR (cond_Zopp s R) * pow2 ez) < 1)%R).
    { destruct s; cbn [cond_Zopp]; [rewrite opp_IZR|];
        apply Rabs_def1; lra. }
    split; [|exact HA].
    destruct (binary_normalize_bound (cond_Zopp s R) ez s) as [Hf He].
    { lra. }
    apply near_SF2Prim; [apply binary_normalize_valid|exact Hf|lra].
Qed.

Lemma float_mod_one_gen (x : float) :
  FFin x ->
  exists r, float_mod x 1 = ret r /\ FFin r
            /\ (- (2 * ulp_bound) <= FV r <= 1 + ulp_bound)%R.
Proof.
  intros Hf. pose proof ulp_bound_small as Hu.
  unfold float_mod.
  change (1 =? 0)%float with false. change (1 <? 0)%float with false.
  cbv iota. cbn [xorb].
  destruct (fmod_one_near x Hf) as (v & [Fm Hm] & Hv).
  apply Rabs_le_inv in Hm. apply Rabs_def2 in Hv.
  set (m := fmod x 1) in *.
  pose proof (ltb_FV m 0 Fm I) as L0. rewrite FV_zero in L0.
  destruct (m =? 0)%float.
  - exists 0%float. split; [reflexivity|]. split; [exact I|].
    rewrite FV_zero. lra.
  - destruct (m <? 0)%float.
    + destruct (add_FV m 1 Fm I) as [Hfin Herr].
      { rewrite FV_one. apply Rabs_le. lra. }
      exists (m + 1)%float. split; [reflexivity|]. split; [exact Hfin|].
      rewrite FV_one in Herr. apply Rabs_le_inv in Herr. lra.
    + exists m. split; [reflexivity|]. split; [exact Fm|]. lra.
Qed.

(** ** [colorsys.hls_to_rgb] on the unit cube *)

Lemma product_error_2 (X Y a b di dj : R) :
  (Rabs (X - a) <= di)%R -> (Rabs (Y - b) <= dj)%R ->
  (Rabs a <= 2)%R -> (Rabs b <= 2)%R ->
  (Rabs (X * Y - a * b) <= 2 * (di + dj) + di * dj)%R.
Proof.
  intros Hx Hy Ha Hb.
  replace (X * Y - a * b)%R
    with ((X - a) * b + a * (Y - b) + (X - a) * (Y - b))%R by ring.
  pose proof (Rabs_pos (X - a)). pose proof (Rabs_pos (Y - b)).
  pose proof (Rabs_pos a). pose proof (Rabs_pos b).
  eapply Rle_trans; [apply Rabs_triang|].
  eapply Rle_trans; [apply Rplus_le_compat_r, Rabs_triang|].
  rewrite !Rabs_mult. nra.
Qed.

Lemma near_mul_2 (x y : float) (a b i j : R) :
  near x a i -> near y b j ->
  (0 <= i)%R -> (0 <= j)%R -> (i + j <= 1000)%R ->
  (Rabs a <= 2)%R -> (Rabs b <= 2)%R ->
  near (x * y) (a * b) (2 * (i + j) + 2).
Proof.
  pose proof ulp_bound_small as Hu.
  intros [Fx Hx] [Fy Hy] Hi Hj Hij Ha Hb.
  pose proof (product_error_2 _ _ _ _ _ _ Hx Hy Ha Hb) as Hp.
  assert (Hq : (i * ulp_bound * (j * ulp_bound) <= ulp_bound)%R).
  { assert (i * j <= 1000000)%R by nra.
    assert (i * j * ulp_bound <= 1)%R by nra.
    replace (i * ulp_bound * (j * ulp_bound))%R
      with (i * j * ulp_bound * ulp_bound)%R by ring.
    assert (0 <= i * j)%R by nra. nra. }
  assert (Hab : (Rabs (a * b) <= 4)%R).
  { rewrite Rabs_mult. pose proof (Rabs_pos a). pose proof (Rabs_pos b). nra. }
  apply Rabs_le_inv in Hp, Hab.
  assert (Hs : ((i + j) * ulp_bound <= 1)%R) by nra.
  destruct (mul_FV x y Fx Fy) as [Hf He].
  { apply Rabs_le. nra. }
  split; [exact Hf|]. apply Rabs_le_inv in He. apply Rabs_le. nra.
Qed.

Lemma FV_ONE_SIXTH : (Rabs (FV colorsys.ONE_SIXTH - 1 / 6) <= ulp_bound)%R.
Proof.
  assert (H : (1 / 6 - / 4398046511104 <= FV colorsys.ONE_SIXTH
               <= 1 / 6 + / 4398046511104)%R).
  { unfold colorsys.ONE_SIXTH. split; fv_const. }
  assert (Hu' : ulp_bound = (/ 4398046511104)%R).
  { unfold ulp_bound. change (pow2 (-42)) with (pow2 (- (42))).
    rewrite pow2_neg, (pow2_IZR 42) by lia. reflexivity. }
  rewrite Hu'. apply Rabs_le. lra.
Qed.

Lemma FV_TWO_THIRD : (Rabs (FV colorsys.TWO_THIRD - 2 / 3) <= ulp_bound)%R.
Proof.
  assert (H : (2 / 3 - / 4398046511104 <= FV colorsys.TWO_THIRD
               <= 2 / 3 + / 4398046511104)%R).
  { unfold colorsys.TWO_THIRD. split; fv_const. }
  assert (Hu' : ulp_bound = (/ 4398046511104)%R).
  { unfold ulp_bound. change (pow2 (-42)) with (pow2 (- (42))).
    rewrite pow2_neg, (pow2_IZR 42) by lia. reflexivity. }
  rewrite Hu'. apply Rabs_le. lra.
Qed.

Lemma clamp_interval (v lo hi k : R) :
  (lo <= hi)%R -> (0 <= k)%R ->
  (lo - k * ulp_bound <= v <= hi + k * ulp_bound)%R ->
  exists a : R, (lo <= a <= hi)%R /\ (Rabs (v - a) <= k * ulp_bound)%R.
Proof.
  pose proof ulp_bound_small as Hu. intros Hlh Hk Hv.
  assert (0 <= k * ulp_bound)%R by nra.
  destruct (Rle_dec v lo) as [H0|H0].
  - exists lo. split; [lra|]. apply Rabs_le. lra.
  - destruct (Rle_dec v hi) as [H1|H1].
    + exists v. split; [lra|]. apply Rabs_le. lra.
    + exists hi. split; [lra|]. apply Rabs_le. lra.
Qed.

Lemma ramp_near (m1 d t : float) (a1 a2 theta : R) :
  near m1 a1 13 -> near d (a2 - a1) 27 -> near t theta 2 ->
  (0 <= a1 <= a2)%R -> (a2 <= 1)%R -> (0 <= theta <= 1 / 6)%R ->
  exists ar : R, near (m1 + d * t * 6) ar 300 /\ (a1 <= ar <= a2)%R.
Proof.
  intros N1 Nd Nt Ha Ha2 Ht.
  destruct (near_mul_unit d t _ _ 27 2 Nd Nt ltac:(lra) ltac:(lra)
              ltac:(lra) ltac:(lra) ltac:(lra)) as [Np Bp].
  pose proof (near_scale _ 6 _ 6 _ Np I FV_6 ltac:(lra) ltac:(lra)
                ltac:(apply Rabs_le; lra)) as N6.
  assert (B6 : (0 <= (a2 - a1) * theta * 6 <= a2 - a1)%R) by nra.
  pose proof (near_add _ _ _ _ _ _ N1 N6 ltac:(lra) ltac:(lra) ltac:(lra)
                ltac:(lra)) as Ns.
  exists (a1 + (a2 - a1) * theta * 6)%R.
  split; [eapply near_weaken; [exact Ns|lra]|lra].
Qed.

Lemma _v_range (m1 m2 hue : float) (a1 a2 : R) :
  near m1 a1 13 -> near m2 a2 13 ->
  (0 <= a1 <= a2)%R -> (a2 <= 1)%R -> FFin hue ->
  exists r ar, colorsys._v m1 m2 hue = ret r
               /\ near r ar 300 /\ (a1 <= ar <= a2)%R.
Proof.
  pose proof ulp_bound_small as Hu.
  intros N1 N2 Ha Ha2 Fh. unfold colorsys._v.
  destruct (float_mod_one_gen hue Fh) as (t & Et & Ft & Bt).
  rewrite Et. cbn [bind ret].
  pose proof (near_sub _ _ _ _ _ _ N2 N1 ltac:(lra) ltac:(lra) ltac:(lra)
                ltac:(lra)) as Nd.
  apply near_weaken with (j := 27%R) in Nd; [|lra].
  pose proof FV_ONE_SIXTH as V6. apply Rabs_le_inv in V6.
  pose proof FV_TWO_THIRD as V23. apply Rabs_le_inv in V23.
  pose proof (ltb_FV t colorsys.ONE_SIXTH Ft I) as L6.
  destruct (t <? colorsys.ONE_SIXTH)%float.
  { destruct (clamp_interval (FV t) 0 (1 / 6) 2 ltac:(lra) ltac:(lra)
                ltac:(lra)) as (theta & Bth & Nth).
    destruct (ramp_near m1 (m2 - m1) t a1 a2 theta N1 Nd (conj Ft Nth)
                Ha Ha2 Bth) as (ar & Nr & Br).
    eexists. exists ar. split; [reflexivity|]. split; assumption. }
  pose proof (ltb_FV t 0.5 Ft I) as L5. rewrite FV_half in L5.
  destruct (t <? 0.5)%float.
  { exists m2, a2. split; [reflexivity|].
    split; [eapply near_weaken; [exact N2|lra]|lra]. }
  pose proof (ltb_FV t colorsys.TWO_THIRD Ft I) as L23.
  destruct (t <? colorsys.TWO_THIRD)%float.
  { destruct (sub_FV colorsys.TWO_THIRD t I Ft) as [Fd Hd].
    { apply Rabs_le. lra. }
    apply Rabs_le_inv in Hd.
    destruct (clamp_interval (FV (colorsys.TWO_THIRD - t)) 0 (1 / 6) 2
                ltac:(lra) ltac:(lra) ltac:(lra)) as (theta & Bth & Nth).
    destruct (ramp_near m1 (m2 - m1) (colorsys.TWO_THIRD - t) a1 a2 theta
                N1 Nd (conj Fd Nth) Ha Ha2 Bth) as (ar & Nr & Br).
    eexists. exists ar. split; [reflexivity|]. split; assumption. }
  exists m1, a1. split; [reflexivity|].
  split; [eapply near_weaken; [exact N1|lra]|lra].
Qed.

Lemma percent_le_half (f : float) (k : Z) :
  near f (IZR k / 100) 1 ->
  if (f <=? 0.5)%float then k <= 50 else 50 <= k.
Proof.
  pose proof ulp_bound_small as Hu.
  intros N. pose proof (near_bounds _ _ _ N) as B.
  pose proof (leb_FV f 0.5 (proj1 N) I) as L. rewrite FV_half in L.
  destruct (f <=? 0.5)%float.
  - assert (IZR k < IZR 51)%R by lra. apply lt_IZR in H. lia.
  - assert (IZR 49 < IZR k)%R by lra. apply lt_IZR in H. lia.
Qed.

Lemma hls_to_rgb_between (fh fl fs : float) (eta : R) (kl ks : Z) :
  near fh eta 1 -> (0 <= eta <= 1)%R ->
  near fl (IZR kl / 100) 1 -> near fs (IZR ks / 100) 1 ->
  0 <= kl <= 100 -> 0 <= ks <= 100 ->
  let lam := (IZR kl / 100)%R in
  let sig := (IZR ks / 100)%R in
  let lo := (lam - sig * Rmin lam (1 - lam))%R in
  let hi := (lam + sig * Rmin lam (1 - lam))%R in
  (0 <= lo <= hi)%R /\ (hi <= 1)%R
  /\ exists (r g b : float) (ar ag ab : R),
      colorsys.hls_to_rgb fh fl fs = ret (r, g, b)
      /\ near r ar 300 /\ (lo <= ar <= hi)%R
      /\ near g ag 300 /\ (lo <= ag <= hi)%R
      /\ near b ab 300 /\ (lo <= ab <= hi)%R.
Proof.
  pose proof ulp_bound_small as Hu.
  intros Nh Bh Nl Ns Hl Hs. cbv zeta. unfold colorsys.hls_to_rgb.
  pose proof (small_quotient kl 100 ltac:(lia) Hl) as Bl.
  pose proof (small_quotient ks 100 ltac:(lia) Hs) as Bs.
  set (lam := (IZR kl / 100)%R) in *. set (sig := (IZR ks / 100)%R) in *.
  assert (Hmin : (0 <= Rmin lam (1 - lam) <= lam)%R
                 /\ (Rmin lam (1 - lam) <= 1 - lam)%R).
  { unfold Rmin. destruct (Rle_dec lam (1 - lam)); lra. }
  set (mn := Rmin lam (1 - lam)) in *.
  assert (Hlo : (0 <= lam - sig * mn <= lam + sig * mn)%R
                /\ (lam + sig * mn <= 1)%R) by nra.
  split; [apply Hlo|]. split; [apply Hlo|].
  destruct (fs =? 0)%float.
  { exists fl, fl, fl, lam, lam, lam. split; [reflexivity|].
    assert (N : near fl lam 300) by (eapply near_weaken; [exact Nl|lra]).
    assert (B : (lam - sig * mn <= lam <= lam + sig * mn)%R) by nra.
    repeat (split; try assumption); lra. }
  (* the two extreme channel values *)
  assert (Hm : near (2 * fl - (if (fl <=? 0.5)%float then fl * (1 + fs)
                               else fl + fs - fl * fs)) (lam - sig * mn) 13
               /\ near (if (fl <=? 0.5)%float then fl * (1 + fs)
                        else fl + fs - fl * fs) (lam + sig * mn) 13).
  { pose proof (near_mul_2 2 fl 2 lam 0 1 (near_lit 2 2 I FV_2) Nl
                  ltac:(lra) ltac:(lra) ltac:(lra)
                  ltac:(apply Rabs_le; lra) ltac:(apply Rabs_le; lra)) as N2l.
    pose proof (percent_le_half fl kl Nl) as Hk.
    destruct (fl <=? 0.5)%float.
    - assert (Hlam : (lam <= 1 / 2)%R).
      { unfold lam. apply IZR_le in Hk. lra. }
      assert (Emn : mn = lam).
      { unfold mn, Rmin. destruct (Rle_dec lam (1 - lam)); lra. }
      pose proof (near_add _ _ _ _ _ _ (near_lit 1 1 I FV_one) Ns ltac:(lra)
                    ltac:(lra) ltac:(lra) ltac:(lra)) as N1s.
      pose proof (near_mul_2 _ _ _ _ _ _ Nl N1s ltac:(lra) ltac:(lra)
                    ltac:(lra) ltac:(apply Rabs_le; lra)
                    ltac:(apply Rabs_le; lra)) as Nm2.
      pose proof (near_sub _ _ _ _ _ _ N2l Nm2 ltac:(lra) ltac:(lra)
                    ltac:(lra) ltac:(nra)) as Nm1.
      rewrite Emn.
      replace (lam - sig * lam)%R with (2 * lam - lam * (1 + sig))%R by ring.
      replace (lam + sig * lam)%R with (lam * (1 + sig))%R by ring.
      split; [eapply near_weaken; [exact Nm1|lra]|].
      eapply near_weaken; [exact Nm2|lra].
    - assert (Hlam : (1 / 2 <= lam)%R).
      { unfold lam. apply IZR_le in Hk. lra. }
      assert (Emn : mn = (1 - lam)%R).
      { unfold mn, Rmin. destruct (Rle_dec lam (1 - lam)); lra. }
      pose proof (near_add _ _ _ _ _ _ Nl Ns ltac:(lra) ltac:(lra)
                    ltac:(lra) ltac:(lra)) as Nls.
      destruct (near_mul_unit fl fs _ _ 1 1 Nl Ns Bl Bs ltac:(lra)
                  ltac:(lra) ltac:(lra)) as [Nlxs Blxs].
      pose proof (near_sub _ _ _ _ _ _ Nls Nlxs ltac:(lra) ltac:(lra)
                    ltac:(lra) ltac:(lra)) as Nm2.
      pose proof (near_sub _ _ _ _ _ _ N2l Nm2 ltac:(lra) ltac:(lra)
                    ltac:(lra) ltac:(nra)) as Nm1.
      rewrite Emn.
      replace (lam - sig * (1 - lam))%R
        with (2 * lam - (lam + sig - lam * sig))%R by ring.
      replace (lam + sig * (1 - lam))%R with (lam + sig - lam * sig)%R by ring.
      split; [eapply near_weaken; [exact Nm1|lra]|].
      eapply near_weaken; [exact Nm2|lra]. }
  destruct Hm as (Nm1 & Nm2).
  set (m2 := if (fl <=? 0.5)%float then (fl * (1 + fs))%float
             else (fl + fs - fl * fs)%float) in *.
  set (m1 := (2 * fl - m2)%float) in *.
  pose proof (near_bounds _ _ _ Nh) as BH.
  assert (U3 : unit_float colorsys.ONE_THIRD).
  { apply unit_float_by_leb; [exact I|reflexivity|reflexivity]. }
  destruct U3 as [F3 B3].
  destruct (add_FV fh colorsys.ONE_THIRD (proj1 Nh) F3) as [Fp _].
  { apply Rabs_le. lra. }
  destruct (sub_FV fh colorsys.ONE_THIRD (proj1 Nh) F3) as [Fm _].
  { apply Rabs_le. lra. }
  destruct (_v_range m1 m2 _ _ _ Nm1 Nm2 (proj1 Hlo) (proj2 Hlo) Fp)
    as (r & ar & Er & Nr & Br).
  destruct (_v_range m1 m2 _ _ _ Nm1 Nm2 (proj1 Hlo) (proj2 Hlo) (proj1 Nh))
    as (g & ag & Eg & Ng & Bg).
  destruct (_v_range m1 m2 _ _ _ Nm1 Nm2 (proj1 Hlo) (proj2 Hlo) Fm)
    as (b & ab & Eb & Nb & Bb).
  rewrite Er. cbn [bind ret]. rewrite Eg. cbn [bind ret].
  rewrite Eb. cbn [bind ret].
  exists r, g, b, ar, ag, ab. split; [reflexivity|].
  repeat (split; try assumption); lra.
Qed.

Lemma hls_to_rgb_range (fh fl fs : float) (eta : R) (kl ks : Z) :
  near fh eta 1 -> (0 <= eta <= 1)%R ->
  near fl (IZR kl / 100) 1 -> near fs (IZR ks / 100) 1 ->
  0 <= kl <= 100 -> 0 <= ks <= 100 ->
  exists (r g b : float) (ar ag ab : R),
    colorsys.hls_to_rgb fh fl fs = ret (r, g, b)
    /\ near r ar 300 /\ (0 <= ar <= 1)%R
    /\ near g ag 300 /\ (0 <= ag <= 1)%R
    /\ near b ab 300 /\ (0 <= ab <= 1)%R.
Proof.
  intros Nh Bh Nl Ns Hl Hs.
  destruct (hls_to_rgb_between fh fl fs eta kl ks Nh Bh Nl Ns Hl Hs)
    as (B1 & B2 & r & g & b & ar & ag & ab & E & Nr & Br & Ng & Bg & Nb & Bb).
  exists r, g, b, ar, ag, ab. split; [exact E|].
  repeat (split; try assumption); lra.
Qed.

(** ** The conversion back from HSL *)

Lemma hsl_to_rgb_range (h s l : Z) :
  0 <= h <= 360 -> 0 <= s <= 100 -> 0 <= l <= 100 ->
  exists r g b,
    hsl_to_rgb (PyInt h) (PyInt s) (PyInt l) = ret (mkRGB r g b)
    /\ 0 <= r <= 255 /\ 0 <= g <= 255 /\ 0 <= b <= 255.
Proof.
  intros Hh Hs Hl. unfold hsl_to_rgb. cbn [num_truediv].
  destruct (unit_truediv h 360 ltac:(lia) Hh) as (fh & Eh & Nh).
  destruct (unit_truediv l 100 ltac:(lia) Hl) as (fl & El & Nl).
  destruct (unit_truediv s 100 ltac:(lia) Hs) as (fs & Es & Ns).
  rewrite Eh, El, Es. cbn [bind ret].
  destruct (hls_to_rgb_range fh fl fs _ l s Nh
              (small_quotient h 360 ltac:(lia) Hh) Nl Ns Hl Hs)
    as (r & g & b & ar & ag & ab & E & Nr & Br & Ng & Bg & Nb & Bb).
  rewrite E. cbn [bind ret].
  destruct (round_scaled_unit r 255 ar 300 255 Nr I FV_255 ltac:(lia)
              ltac:(lra) Br) as (ri & Eri & Rri).
  destruct (round_scaled_unit g 255 ag 300 255 Ng I FV_255 ltac:(lia)
              ltac:(lra) Bg) as (gi & Egi & Rgi).
  destruct (round_scaled_unit b 255 ab 300 255 Nb I FV_255 ltac:(lia)
              ltac:(lra) Bb) as (bi & Ebi & Rbi).
  rewrite Eri, Egi, Ebi. cbn [bind ret].
  exists ri, gi, bi. auto.
Qed.

Lemma rgb_to_hsl_range (r g b : Z) :
  0 <= r <= 255 -> 0 <= g <= 255 -> 0 <= b <= 255 ->
  exists h s l,
    rgb_to_hsl r g b = ret (mkHSL h s l)
    /\ 0 <= h <= 360 /\ 0 <= s <= 100 /\ 0 <= l <= 100.
Proof.
  intros Hr Hg Hb. unfold rgb_to_hsl.
  destruct (chan_exists r Hr) as (fr & Cr).
  destruct (chan_exists g Hg) as (fg & Cg).
  destruct (chan_exists b Hb) as (fb & Cb).
  rewrite (proj2 Cr), (proj2 Cg), (proj2 Cb). cbn [bind ret].
  destruct (rgb_to_hls_range fr fg fb r g b Cr Cg Cb)
    as (h & l & s & ah & al & aS & E & Nh & Bh & Nl & Bl & Ns & Bs).
  rewrite E. cbn [bind ret].
  destruct (round_scaled_unit h 360 ah 1 360 Nh I FV_360 ltac:(lia)
              ltac:(lra) Bh) as (hi & Ehi & Rhi).
  destruct (round_scaled_unit s 100 aS 2101 100 Ns I FV_100 ltac:(lia)
              ltac:(lra) Bs) as (si & Esi & Rsi).
  destruct (round_scaled_unit l 100 al 4 100 Nl I FV_100 ltac:(lia)
              ltac:(lra) Bl) as (li & Eli & Rli).
  rewrite Ehi, Esi, Eli. cbn [bind ret].
  exists hi, si, li. auto.
Qed.

(** C4 (as amended): for channels in 0..255 [rgb_to_hsl] returns an integer
    triple with hue in [0,360], both ends included, and saturation and
    lightness in [0,100]. *)
Theorem rgb_to_hsl_in_range (r g b : Z) :
  0 <= r <= 255 -> 0 <= g <= 255 -> 0 <= b <= 255 ->
  exists h s l,
    rgb_to_hsl r g b = ret (mkHSL h s l)
    /\ 0 <= h <= 360 /\ 0 <= s <= 100 /\ 0 <= l <= 100.
Proof. apply rgb_to_hsl_range. Qed.

Lemma rgb_to_hsl_in_range_witness :
  exists h s l,
    rgb_to_hsl 12 200 77 = ret (mkHSL h s l)
    /\ 0 <= h <= 360 /\ 0 <= s <= 100 /\ 0 <= l <= 100.
Proof. apply (rgb_to_hsl_in_range 12 200 77); lia. Defined.

Lemma all_greys_ok : forallb (fun n => grey_ok (Z.of_nat n)) all_bytes = true.
Proof. vm_compute. reflexivity. Qed.

Lemma grey_roundtrip (k : Z) : 0 <= k <= 255 -> grey_ok k = true.
Proof.
  intros Hk. pose proof all_greys_ok as H. rewrite forallb_forall in H.
  specialize (H (Z.to_nat k)). rewrite Z2Nat.id in H by lia.
  apply H. apply in_seq. lia.
Qed.

(** The round trip always lands on bytes, and on a grey input it lands on a
    grey at most one unit away. *)
Lemma roundtrip_range_grey (r g b : Z) :
  0 <= r <= 255 -> 0 <= g <= 255 -> 0 <= b <= 255 ->
  exists r' g' b',
    rgb_hsl_roundtrip r g b = ret (mkRGB r' g' b')
    /\ 0 <= r' <= 255 /\ 0 <= g' <= 255 /\ 0 <= b' <= 255
    /\ (r = g -> g = b -> r' = g' /\ g' = b' /\ Z.abs (r' - r) <= 1).
Proof.
  intros Hr Hg Hb.
  destruct (rgb_to_hsl_range r g b Hr Hg Hb) as (h & s & l & E & Rh & Rs & Rl).
  destruct (hsl_to_rgb_range h s l Rh Rs Rl) as (r' & g' & b' & E' & R').
  assert (Ert : rgb_hsl_roundtrip r g b = ret (mkRGB r' g' b')).
  { unfold rgb_hsl_roundtrip. rewrite E. cbn [bind ret hsl_h hsl_s hsl_l].
    exact E'. }
  exists r', g', b'. split; [exact Ert|].
  destruct R' as (R1 & R2 & R3).
  repeat (split; [assumption|]).
  intros <- <-. pose proof (grey_roundtrip r Hr) as G.
  unfold grey_ok in G. rewrite Ert in G. cbn [ret rgb_r rgb_g rgb_b] in G.
  apply andb_prop in G as [G G3]. apply andb_prop in G as [G1 G2].
  apply Z.eqb_eq in G1, G2. apply Z.leb_le in G3. auto.
Qed.

(** ** Colours on integer HSL triples *)

Lemma hsl_to_rgb_bytes (v : HSL Z) :
  is_hsl v ->
  exists w, hsl_to_rgb (PyInt (hsl_h v)) (PyInt (hsl_s v)) (PyInt (hsl_l v))
            = ret w /\ is_bytes w.
Proof.
  intros (Hh & Hs & Hl).
  destruct (hsl_to_rgb_range _ _ _ Hh Hs Hl) as (r & g & b & E & R).
  exists (mkRGB r g b). split; [exact E|exact R].
Qed.

Lemma convert_255_bytes (t : table) (v : RGB Z) :
  unit_table t -> is_bytes v -> exists w, convert_255 t v = ret w /\ is_bytes w.
Proof.
  intros Ht (Hr & Hg & Hb). destruct v as [r g b]. cbn [rgb_r rgb_g rgb_b] in *.
  destruct (convert_255_range t r g b Ht Hr Hg Hb) as (r' & g' & b' & E & R).
  exists (mkRGB r' g' b'). split; [exact E|exact R].
Qed.

Lemma rgb_to_hsl_is_hsl (v : RGB Z) :
  is_bytes v ->
  exists w, rgb_to_hsl (rgb_r v) (rgb_g v) (rgb_b v) = ret w /\ is_hsl w.
Proof.
  intros (Hr & Hg & Hb).
  destruct (rgb_to_hsl_range _ _ _ Hr Hg Hb) as (h & s & l & E & R).
  exists (mkHSL h s l). split; [exact E|exact R].
Qed.

Lemma color_rgb_bytes (v : HSL Z) (flag : bool) :
  is_hsl v -> exists w, rgb (int_color v flag) = ret w /\ is_bytes w.
Proof.
  intros Hv. unfold rgb, int_color, Color_new. cbn [_hsl _ryb hsl_h hsl_s hsl_l].
  destruct (hsl_to_rgb_bytes v Hv) as (w & E & Bw). rewrite E. cbn [bind ret].
  destruct flag.
  - apply convert_255_bytes; [apply unit_table_IRISSON|exact Bw].
  - exists w. split; [reflexivity|exact Bw].
Qed.

Lemma color_ryb_bytes (v : HSL Z) (flag : bool) :
  is_hsl v -> exists w, ryb (int_color v flag) = ret w /\ is_bytes w.
Proof.
  intros Hv. unfold ryb, int_color, Color_new. cbn [_hsl _ryb hsl_h hsl_s hsl_l].
  destruct (hsl_to_rgb_bytes v Hv) as (w & E & Bw). rewrite E. cbn [bind ret].
  destruct flag; cbn [negb].
  - exists w. split; [reflexivity|exact Bw].
  - apply convert_255_bytes; [apply unit_table_RGB_TO_RYB|exact Bw].
Qed.

(** X1: for a hue in 0..360 and saturation and lightness in 0..100
    [hsl_to_rgb] raises nothing and returns three bytes. *)
Theorem hsl_to_rgb_in_range (h s l : Z) :
  0 <= h <= 360 -> 0 <= s <= 100 -> 0 <= l <= 100 ->
  exists r g b,
    hsl_to_rgb (PyInt h) (PyInt s) (PyInt l) = ret (mkRGB r g b)
    /\ 0 <= r <= 255 /\ 0 <= g <= 255 /\ 0 <= b <= 255.
Proof. apply hsl_to_rgb_range. Qed.

Lemma hsl_to_rgb_in_range_witness :
  exists r g b,
    hsl_to_rgb (PyInt 181) (PyInt 98) (PyInt 45) = ret (mkRGB r g b)
    /\ 0 <= r <= 255 /\ 0 <= g <= 255 /\ 0 <= b <= 255.
Proof. apply (hsl_to_rgb_in_range 181 98 45); lia. Defined.

(** X2: the [rgb] and [ryb] views of a colour on an in-range integer HSL
    triple are byte triples, in RGB space and in RYB space alike; in RYB
    space [rgb] is [ryb_to_rgb] of the [ryb] view, in RGB space [ryb] is
    [rgb_to_ryb] of the [rgb] view. *)
Theorem color_views_are_bytes (v : HSL Z) (flag : bool) :
  is_hsl v ->
  (exists w, rgb (int_color v flag) = ret w /\ is_bytes w)
  /\ (exists w, ryb (int_color v flag) = ret w /\ is_bytes w)
  /\ rgb (int_color v true) = (w <- ryb (int_color v true) ;; ryb_to_rgb w)
  /\ ryb (int_color v false) = (w <- rgb (int_color v false) ;; rgb_to_ryb w).
Proof.
  intros Hv.
  split; [apply color_rgb_bytes; exact Hv|].
  split; [apply color_ryb_bytes; exact Hv|].
  unfold rgb, ryb, int_color, Color_new. cbn [_hsl _ryb hsl_h hsl_s hsl_l negb].
  destruct (hsl_to_rgb _ _ _); split; reflexivity.
Qed.

Lemma color_views_are_bytes_witness :
  (exists w, rgb (int_color (mkHSL 30 80 40) true) = ret w /\ is_bytes w)
  /\ (exists w, ryb (int_color (mkHSL 30 80 40) true) = ret w /\ is_bytes w)
  /\ rgb (int_color (mkHSL 30 80 40) true)
     = (w <- ryb (int_color (mkHSL 30 80 40) true) ;; ryb_to_rgb w)
  /\ ryb (int_color (mkHSL 30 80 40) false)
     = (w <- rgb (int_color (mkHSL 30 80 40) false) ;; rgb_to_ryb w).
Proof.
  apply (color_views_are_bytes (mkHSL 30 80 40) true).
  unfold is_hsl. simpl. lia.
Defined.

Lemma from_rgb_is_hsl (v : RGB Z) (flag : bool) :
  is_bytes v ->
  exists w, from_rgb (rgb_r v) (rgb_g v) (rgb_b v) flag = ret (int_color w flag)
            /\ is_hsl w.
Proof.
  intros Hv. unfold from_rgb.
  assert (H : exists u, (if flag then rgb_to_ryb (mkRGB (rgb_r v) (rgb_g v) (rgb_b v))
                         else ret (mkRGB (rgb_r v) (rgb_g v) (rgb_b v))) = ret u
                        /\ is_bytes u).
  { destruct flag.
    - apply convert_255_bytes; [apply unit_table_RGB_TO_RYB|exact Hv].
    - eexists. split; [reflexivity|exact Hv]. }
  destruct H as (u & Eu & Bu). rewrite Eu. cbn [bind ret].
  destruct (rgb_to_hsl_is_hsl u Bu) as (w & Ew & Bw). rewrite Ew. cbn [bind ret].
  exists w. split; [reflexivity|exact Bw].
Qed.

(** X3: on three bytes [from_rgb] raises nothing and returns a colour that
    keeps the given flag and holds an integer HSL triple with hue in 0..360
    and saturation and lightness in 0..100, with or without the detour
    through [rgb_to_ryb]. *)
Theorem from_rgb_in_range (r g b : Z) (flag : bool) :
  0 <= r <= 255 -> 0 <= g <= 255 -> 0 <= b <= 255 ->
  exists h s l,
    from_rgb r g b flag = ret (Color_new (PyInt h) (PyInt s) (PyInt l) flag)
    /\ 0 <= h <= 360 /\ 0 <= s <= 100 /\ 0 <= l <= 100.
Proof.
  intros Hr Hg Hb.
  destruct (from_rgb_is_hsl (mkRGB r g b) flag (conj Hr (conj Hg Hb)))
    as ([h s l] & E & R).
  exists h, s, l. split; [exact E|exact R].
Qed.

Lemma from_rgb_in_range_witness :
  exists h s l,
    from_rgb 12 200 77 true = ret (Color_new (PyInt h) (PyInt s) (PyInt l) true)
    /\ 0 <= h <= 360 /\ 0 <= s <= 100 /\ 0 <= l <= 100.
Proof. apply (from_rgb_in_range 12 200 77 true); lia. Defined.

(** X4: [hsl_rgbspace] of a colour on an in-range integer HSL triple raises
    nothing and is again an in-range integer HSL triple, in both colour
    spaces. *)
Theorem hsl_rgbspace_in_range (v : HSL Z) (flag : bool) :
  is_hsl v ->
  exists w, hsl_rgbspace (int_color v flag) = ret w /\ is_hsl w.
Proof.
  intros Hv. unfold hsl_rgbspace.
  destruct (color_rgb_bytes v flag Hv) as (u & Eu & Bu).
  rewrite Eu. cbn [bind ret]. apply rgb_to_hsl_is_hsl. exact Bu.
Qed.

Lemma hsl_rgbspace_in_range_witness :
  exists w, hsl_rgbspace (int_color (mkHSL 250 100 50) true) = ret w /\ is_hsl w.
Proof.
  apply (hsl_rgbspace_in_range (mkHSL 250 100 50) true).
  unfold is_hsl. simpl. lia.
Defined.

(** ** Hexadecimal views *)

Lemma rgb_to_hex_parses (v : RGB Z) :
  is_bytes v ->
  hex_to_rgb (rgb_to_hex (rgb_r v) (rgb_g v) (rgb_b v)) = ret v
  /\ is_hex_color (rgb_to_hex (rgb_r v) (rgb_g v) (rgb_b v)) = true.
Proof.
  destruct v as [r g b]. unfold is_bytes. cbn [rgb_r rgb_g rgb_b].
  intros (Hr & Hg & Hb).
  destruct (format_02x_byte r Hr) as (r1 & r2 & Er & Lr1 & Lr2 & Vr).
  destruct (format_02x_byte g Hg) as (g1 & g2 & Eg & Lg1 & Lg2 & Vg).
  destruct (format_02x_byte b Hb) as (b1 & b2 & Eb & Lb1 & Lb2 & Vb).
  unfold rgb_to_hex. rewrite Er, Eg, Eb.
  split.
  - unfold hex_to_rgb. cbn [append lstrip_hash].
    change (Ascii.eqb "#" "#") with true. cbv iota.
    rewrite (lower_hex_not_hash r1 Lr1).
    cbn [substring].
    rewrite (proj1 (int_base16_pair _ _ _ Vr)).
    rewrite (proj1 (int_base16_pair _ _ _ Vg)).
    rewrite (proj1 (int_base16_pair _ _ _ Vb)).
    reflexivity.
  - cbn [append is_hex_color String.length list_ascii_of_string forallb].
    rewrite Lr1, Lr2, Lg1, Lg2, Lb1, Lb2. reflexivity.
Qed.

(** X5: the [hex] view of a colour on an in-range integer HSL triple is a
    string of the shape [#rrggbb], and [hex_to_rgb] reads the colour's [rgb]
    view back from it; [from_hex] of that string is [from_rgb] of the [rgb]
    view. *)
Theorem color_hex_parses_back (v : HSL Z) (flag : bool) :
  is_hsl v ->
  exists (w : RGB Z) (s : string),
    rgb (int_color v flag) = ret w /\ hex (int_color v flag) = ret s
    /\ is_hex_color s = true /\ hex_to_rgb s = ret w
    /\ from_hex s = from_rgb (rgb_r w) (rgb_g w) (rgb_b w) false.
Proof.
  intros Hv. destruct (color_rgb_bytes v flag Hv) as (w & Ew & Bw).
  exists w, (rgb_to_hex (rgb_r w) (rgb_g w) (rgb_b w)).
  destruct (rgb_to_hex_parses w Bw) as [P Q].
  split; [exact Ew|].
  split; [unfold hex; rewrite Ew; reflexivity|].
  split; [exact Q|]. split; [exact P|].
  unfold from_hex. rewrite P. reflexivity.
Qed.

Lemma color_hex_parses_back_witness :
  exists (w : RGB Z) (s : string),
    rgb (int_color (mkHSL 0 100 50) false) = ret w
    /\ hex (int_color (mkHSL 0 100 50) false) = ret s
    /\ is_hex_color s = true /\ hex_to_rgb s = ret w
    /\ from_hex s = from_rgb (rgb_r w) (rgb_g w) (rgb_b w) false.
Proof.
  apply (color_hex_parses_back (mkHSL 0 100 50) false).
  unfold is_hsl. simpl. lia.
Defined.

(** X6: when six hexadecimal digits remain after the leading hash signs,
    [from_hex] raises nothing: it is [from_rgb] of the three byte values in
    RGB space, a colour on an in-range integer HSL triple. *)
Theorem from_hex_six_digits (s : string) (a1 a2 a3 a4 a5 a6 : ascii)
    (r g b : Z) :
  lstrip_hash s
  = String a1 (String a2 (String a3 (String a4 (String a5
      (String a6 EmptyString))))) ->
  byte_of a1 a2 = Some r -> byte_of a3 a4 = Some g -> byte_of a5 a6 = Some b ->
  from_hex s = from_rgb r g b false
  /\ exists w, from_hex s = ret (int_color w false) /\ is_hsl w.
Proof.
  intros Hs Hr Hg Hb.
  destruct (int_base16_pair _ _ _ Hr) as [Er Rr].
  destruct (int_base16_pair _ _ _ Hg) as [Eg Rg].
  destruct (int_base16_pair _ _ _ Hb) as [Eb Rb].
  assert (E : hex_to_rgb s = ret (mkRGB r g b)).
  { unfold hex_to_rgb. rewrite Hs. cbn [substring].
    rewrite Er, Eg, Eb. reflexivity. }
  assert (F : from_hex s = from_rgb r g b false).
  { unfold from_hex. rewrite E. reflexivity. }
  split; [exact F|]. rewrite F.
  apply (from_rgb_is_hsl (mkRGB r g b) false).
  unfold is_bytes. cbn [rgb_r rgb_g rgb_b]. lia.
Qed.

Lemma from_hex_six_digits_witness :
  from_hex "#1A2b3C" = from_rgb 26 43 60 false
  /\ exists w, from_hex "#1A2b3C" = ret (int_color w false) /\ is_hsl w.
Proof.
  apply (from_hex_six_digits "#1A2b3C" "1" "A" "2" "b" "3" "C" 26 43 60)%char;
    reflexivity.
Defined.

(** ** Saturation *)

(** X7: when [s + add] and [mult * (s + add)] evaluate, to [v], [saturate]
    returns a colour with the same hue, lightness and flag whose saturation
    is [min(max(v, 0), 100)], in [0,100] unless [v] is NaN; on ints the
    saturation is exactly the clamped product. *)
Theorem saturate_clamps (c : Color) (add mult t v : num) :
  num_add (hsl_s (hsl c)) add = ret t ->
  num_mul mult t = ret v ->
  saturate c add mult
  = ret (Color_new (hsl_h (hsl c)) (clamp_0_100 v) (hsl_l (hsl c)) (_ryb c))
  /\ (num_is_nan v = false -> in_0_100 (clamp_0_100 v) = true)
  /\ (forall h s l a m ryb,
        saturate (Color_new h (PyInt s) l ryb) (PyInt a) (PyInt m)
        = ret (Color_new h (PyInt (Z.min (Z.max (m * (s + a)) 0) 100)) l ryb)).
Proof.
  intros Ht Hv.
  split; [|split].
  - unfold saturate. rewrite Ht. cbn [bind ret]. rewrite Hv. reflexivity.
  - apply clamp_in_range.
  - intros h s l a m ryb. unfold saturate.
    cbn [hsl _hsl hsl_l hsl_h hsl_s _ryb Color_new num_add num_mul bind ret].
    rewrite clamp_int. reflexivity.
Qed.

Lemma saturate_clamps_witness :
  saturate (Color_new (PyInt 30) (PyInt 80) (PyInt 50) true)
           (PyInt 10) (PyFloat 1.5)
  = ret (Color_new (PyInt 30) (PyInt 100) (PyInt 50) true)
  /\ in_0_100 (PyInt 100) = true.
Proof.
  pose proof (saturate_clamps
                (Color_new (PyInt 30) (PyInt 80) (PyInt 50) true)
                (PyInt 10) (PyFloat 1.5) (PyInt 90) (PyFloat 135)
                eq_refl eq_refl) as (H1 & H2 & _).
  split; [exact H1 | exact (H2 eq_refl)].
Defined.

(** ** Rotations compose *)

(** X8: on integer hues two rotations compose to the rotation by the sum of
    the angles, a rotation by a multiple of 360 only reduces the hue modulo
    360, and rotating a colour whose hue is already in [0,360) by 0 changes
    nothing. *)
Theorem rotate_composes (h a b k : Z) (s l : num) (ryb : bool) :
  (c1 <- rotate (Color_new (PyInt h) s l ryb) (PyInt a) ;; rotate c1 (PyInt b))
  = rotate (Color_new (PyInt h) s l ryb) (PyInt (a + b))
  /\ rotate (Color_new (PyInt h) s l ryb) (PyInt (360 * k))
     = ret (Color_new (PyInt (h mod 360)) s l ryb)
  /\ rotate (Color_new (PyInt (h mod 360)) s l ryb) (PyInt 0)
     = ret (Color_new (PyInt (h mod 360)) s l ryb).
Proof.
  rewrite !rotate_int. cbn [bind ret]. rewrite rotate_int.
  split; [|split]; do 3 f_equal.
  - rewrite Zplus_mod_idemp_l. f_equal. lia.
  - rewrite Z.mul_comm, Z_mod_plus_full. reflexivity.
  - rewrite Z.add_0_r. apply Z.mod_mod. lia.
Qed.

(** X9: on an integer hue [complement] is an involution up to the reduction
    of the hue modulo 360, and rotating the first colour of [triad] twice
    more by 120 closes the triangle. *)
Theorem complement_involution (h : Z) (s l : num) (ryb : bool) :
  (cs <- complement (Color_new (PyInt h) s l ryb) ;;
   match cs with
   | [c1] => complement c1
   | _ => ret cs
   end)
  = ret [Color_new (PyInt (h mod 360)) s l ryb]
  /\ (cs <- triad (Color_new (PyInt h) s l ryb) ;;
      match cs with
      | [c1; c2] => c3 <- rotate c1 (PyInt 120) ;; rotate c3 (PyInt 120)
      | _ => raise ValueError
      end)
     = ret (Color_new (PyInt (h mod 360)) s l ryb).
Proof.
  unfold complement, triad, tuple_of. rewrite !rotate_int. cbn [bind ret].
  rewrite !rotate_int. cbn [bind ret]. rewrite ?rotate_int.
  split; do 3 f_equal.
  - f_equal. rewrite Zplus_mod_idemp_l.
    replace (h + 180 + 180) with (h + 1 * 360) by lia.
    apply Z_mod_plus_full.
  - rewrite Zplus_mod_idemp_l, <- Z.add_assoc, Zplus_mod_idemp_l.
    replace (h + 120 + (120 + 120)) with (h + 1 * 360) by lia.
    apply Z_mod_plus_full.
Qed.

(** ** Greys *)

Lemma all_greys_hsl : forallb (fun n => grey_hsl_ok (Z.of_nat n)) all_bytes = true.
Proof. vm_compute. reflexivity. Qed.

(** X10: a grey triple (k,k,k) converts to hue 0, saturation 0 and the
    lightness [k * 100 / 255] rounded half up. *)
Theorem grey_to_hsl (k : Z) :
  0 <= k <= 255 ->
  rgb_to_hsl k k k = ret (mkHSL 0 0 ((200 * k + 255) / 510)).
Proof.
  intros Hk. pose proof all_greys_hsl as H. rewrite forallb_forall in H.
  specialize (H (Z.to_nat k)). rewrite Z2Nat.id in H by lia.
  specialize (H ltac:(apply in_seq; lia)). unfold grey_hsl_ok in H.
  destruct (rgb_to_hsl k k k) as [e|[h s l]]; [discriminate|].
  cbn [hsl_h hsl_s hsl_l] in H.
  apply andb_prop in H as [H H3]. apply andb_prop in H as [H1 H2].
  apply Z.eqb_eq in H1, H2, H3. subst. reflexivity.
Qed.

Lemma grey_to_hsl_witness : rgb_to_hsl 128 128 128 = ret (mkHSL 0 0 50).
Proof. apply (grey_to_hsl 128). lia. Defined.

Lemma int_truediv_zero (n : Z) : 0 < n -> int_truediv 0 n = ret 0%float.
Proof.
  intros Hn. unfold int_truediv.
  destruct (Z.eqb_spec n 0) as [|_]; [lia|].
  destruct n as [|p|p]; try lia. reflexivity.
Qed.

(** X11: with saturation 0 [hsl_to_rgb] returns a grey whose level depends
    on the lightness only, not on the hue. *)
Theorem zero_saturation_is_grey (l : Z) :
  0 <= l <= 100 ->
  exists v, 0 <= v <= 255
            /\ forall h, 0 <= h <= 360 ->
                 hsl_to_rgb (PyInt h) (PyInt 0) (PyInt l) = ret (mkRGB v v v).
Proof.
  intros Hl.
  destruct (unit_truediv l 100 ltac:(lia) Hl) as (fl & El & Nl).
  destruct (round_scaled_unit fl 255 _ 1 255 Nl I FV_255 ltac:(lia)
              ltac:(lra) (small_quotient l 100 ltac:(lia) Hl)) as (v & Ev & Rv).
  exists v. split; [exact Rv|]. intros h Hh.
  unfold hsl_to_rgb. cbn [num_truediv].
  destruct (unit_truediv h 360 ltac:(lia) Hh) as (fh & Eh & _).
  rewrite Eh, El, (int_truediv_zero 100) by lia. cbn [bind ret].
  unfold colorsys.hls_to_rgb. change (0 =? 0)%float with true.
  cbv iota. cbn [bind ret]. rewrite Ev. reflexivity.
Qed.

Lemma zero_saturation_is_grey_witness :
  exists v, 0 <= v <= 255
            /\ forall h, 0 <= h <= 360 ->
                 hsl_to_rgb (PyInt h) (PyInt 0) (PyInt 40) = ret (mkRGB v v v).
Proof. apply (zero_saturation_is_grey 40). lia. Defined.

(** ** Black and white *)

Lemma round_scaled_at (x c : float) (a i : R) (n k : Z) :
  near x a i -> FFin c -> FV c = IZR n -> 1 <= n <= 400 ->
  (0 <= i <= 1000000)%R -> (0 <= a <= 1)%R -> (a * IZR n = IZR k)%R ->
  round_scaled x c = ret k.
Proof.
  pose proof ulp_bound_small as Hu.
  intros Hx Fc Ec Hn Hi Ha Hk. unfold round_scaled.
  assert (HK : (1 <= IZR n <= 400)%R) by (split; apply IZR_le; lia).
  pose proof (near_scale x c a (IZR n) i Hx Fc Ec Hi HK
                ltac:(apply Rabs_le; lra)) as Hm.
  pose proof (near_add _ _ _ _ _ _ Hm (near_lit 0.5 (1 / 2) I FV_half)
                ltac:(nra) ltac:(lra) ltac:(nra) ltac:(nra)) as Hs.
  pose proof (near_bounds _ _ _ Hs) as B.
  assert (Hni : (0 <= IZR n * i <= 400000000)%R) by nra.
  assert (He : ((IZR n * i + 1 + 0 + 1) * ulp_bound <= / 4)%R) by nra.
  destruct (int_of_float_FV _ (proj1 Hs) ltac:(nra)) as (z & Ez & Lz & Uz).
  rewrite Ez. f_equal. rewrite Hk in B.
  assert (IZR z < IZR (k + 1))%R by (rewrite plus_IZR; lra).
  assert (IZR (k - 1) < IZR z)%R by (rewrite minus_IZR; lra).
  apply lt_IZR in H, H0. lia.
Qed.

(** X12: lightness 0 gives black and lightness 100 gives white, whatever
    the hue and the saturation. *)
Theorem lightness_extremes (h s : Z) :
  0 <= h <= 360 -> 0 <= s <= 100 ->
  hsl_to_rgb (PyInt h) (PyInt s) (PyInt 0) = ret (mkRGB 0 0 0)
  /\ hsl_to_rgb (PyInt h) (PyInt s) (PyInt 100) = ret (mkRGB 255 255 255).
Proof.
  intros Hh Hs.
  destruct (unit_truediv h 360 ltac:(lia) Hh) as (fh & Eh & Nh).
  destruct (unit_truediv s 100 ltac:(lia) Hs) as (fs & Es & Ns).
  pose proof (small_quotient h 360 ltac:(lia) Hh) as Bh.
  split.
  - destruct (unit_truediv 0 100 ltac:(lia) ltac:(lia)) as (fl & El & Nl).
    unfold hsl_to_rgb. cbn [num_truediv]. rewrite Eh, El, Es. cbn [bind ret].
    destruct (hls_to_rgb_between fh fl fs _ 0 s Nh Bh Nl Ns ltac:(lia) Hs)
      as (_ & _ & r & g & b & ar & ag & ab & E & Nr & Br & Ng & Bg & Nb & Bb).
    rewrite E. cbn [bind ret].
    assert (Z0 : (Rmin (0 / 100) (1 - 0 / 100) = 0)%R).
    { unfold Rmin. destruct (Rle_dec (0 / 100) (1 - 0 / 100)); lra. }
    rewrite Z0 in Br, Bg, Bb.
    rewrite (round_scaled_at r 255 ar 300 255 0 Nr I FV_255) by (lia || lra).
    rewrite (round_scaled_at g 255 ag 300 255 0 Ng I FV_255) by (lia || lra).
    rewrite (round_scaled_at b 255 ab 300 255 0 Nb I FV_255) by (lia || lra).
    reflexivity.
  - destruct (unit_truediv 100 100 ltac:(lia) ltac:(lia)) as (fl & El & Nl).
    unfold hsl_to_rgb. cbn [num_truediv]. rewrite Eh, El, Es. cbn [bind ret].
    destruct (hls_to_rgb_between fh fl fs _ 100 s Nh Bh Nl Ns ltac:(lia) Hs)
      as (_ & _ & r & g & b & ar & ag & ab & E & Nr & Br & Ng & Bg & Nb & Bb).
    rewrite E. cbn [bind ret].
    assert (Z0 : (Rmin (100 / 100) (1 - 100 / 100) = 0)%R).
    { unfold Rmin. destruct (Rle_dec (100 / 100) (1 - 100 / 100)); lra. }
    rewrite Z0 in Br, Bg, Bb.
    rewrite (round_scaled_at r 255 ar 300 255 255 Nr I FV_255) by (lia || lra).
    rewrite (round_scaled_at g 255 ag 300 255 255 Ng I FV_255) by (lia || lra).
    rewrite (round_scaled_at b 255 ab 300 255 255 Nb I FV_255) by (lia || lra).
    reflexivity.
Qed.

Lemma lightness_extremes_witness :
  hsl_to_rgb (PyInt 210) (PyInt 65) (PyInt 0) = ret (mkRGB 0 0 0)
  /\ hsl_to_rgb (PyInt 210) (PyInt 65) (PyInt 100) = ret (mkRGB 255 255 255).
Proof. apply (lightness_extremes 210 65); lia. Defined.

(** ** The interpolation of [convert] *)

(** X13: on finite floats in [0,1] and a table with entries in [0,1], each
    channel of [convert] is finite and within 103 * 2^-42 of the exact
    trilinear interpolant of the table, which lies in [0,1]; this holds for
    the three tables of the module. *)
Theorem convert_interpolates (t : table) (r y b : float) :
  unit_table t -> unit_float r -> unit_float y -> unit_float b ->
  (near (ch0 (convert r y b t)) (interpolant ch0 t (FV r) (FV y) (FV b)) 103
   /\ near (ch1 (convert r y b t)) (interpolant ch1 t (FV r) (FV y) (FV b)) 103
   /\ near (ch2 (convert r y b t)) (interpolant ch2 t (FV r) (FV y) (FV b)) 103)
  /\ (0 <= interpolant ch0 t (FV r) (FV y) (FV b) <= 1)%R
  /\ (0 <= interpolant ch1 t (FV r) (FV y) (FV b) <= 1)%R
  /\ (0 <= interpolant ch2 t (FV r) (FV y) (FV b) <= 1)%R
  /\ unit_table IRISSON_RYB_TO_RGB /\ unit_table RGB_TO_RYB
  /\ unit_table GOSSET_RYB_TO_RGB.
Proof.
  intros Ht [Fr Br] [Fy By] [Fb Bb].
  assert (Nr : near r (FV r) 1)
    by (eapply near_weaken; [apply near_exact; exact Fr|lra]).
  assert (Ny : near y (FV y) 1)
    by (eapply near_weaken; [apply near_exact; exact Fy|lra]).
  assert (Nb : near b (FV b) 1)
    by (eapply near_weaken; [apply near_exact; exact Fb|lra]).
  destruct (convert_near_interpolant r y b _ _ _ t Nr Ny Nb Br By Bb Ht)
    as (X0 & Y0 & X1 & Y1 & X2 & Y2).
  split; [exact (conj X0 (conj X1 X2))|].
  repeat (split; [assumption|]).
  split; [apply unit_table_IRISSON|].
  split; [apply unit_table_RGB_TO_RYB|apply unit_table_GOSSET].
Qed.

Lemma convert_interpolates_witness :
  near (ch0 (convert 0.25 0.5 1 IRISSON_RYB_TO_RGB))
       (interpolant ch0 IRISSON_RYB_TO_RGB (FV 0.25) (FV 0.5) (FV 1)) 103.
Proof.
  refine (proj1 (proj1 (convert_interpolates IRISSON_RYB_TO_RGB 0.25 0.5 1
                          unit_table_IRISSON _ _ _)));
    (apply unit_float_by_leb; [exact I|reflexivity|reflexivity]).
Defined.

(** ** Normalised views *)

Lemma unit_truediv_exact (n : Z) :
  1 <= n <= 400 -> int_truediv n n = ret 1%float ->
  forall k, 0 <= k <= n -> exists f, int_truediv k n = ret f /\ unit_float f.
Proof.
  pose proof ulp_bound_small as Hu.
  intros Hn H1 k Hk.
  destruct (Z.eq_dec k 0) as [->|K0].
  { exists 0%float. split; [apply int_truediv_zero; lia|].
    split; [exact I|]. rewrite FV_zero. lra. }
  destruct (Z.eq_dec k n) as [->|Kn].
  { exists 1%float. split; [exact H1|]. split; [exact I|]. rewrite FV_one. lra. }
  destruct (unit_truediv k n ltac:(lia) Hk) as (f & E & N).
  exists f. split; [exact E|]. split; [exact (proj1 N)|].
  pose proof (near_bounds _ _ _ N) as B.
  assert (Pn : (1 <= IZR n <= 400)%R) by (split; apply IZR_le; lia).
  assert (Lk : (1 <= IZR k)%R) by (apply IZR_le; lia).
  assert (Uk : (IZR k + 1 <= IZR n)%R)
    by (rewrite <- plus_IZR; apply IZR_le; lia).
  assert (In : (/ 400 <= / IZR n)%R) by (apply Rinv_le_contravar; lra).
  assert (In1 : (/ IZR n * IZR n = 1)%R) by (apply Rinv_l; lra).
  unfold Rdiv in B.
  assert (Q0 : (/ 400 <= IZR k * / IZR n)%R) by nra.
  assert (Q1 : (IZR k * / IZR n <= 1 - / 400)%R) by nra.
  lra.
Qed.

(** X14: the normalised views of a colour on an in-range integer HSL triple
    raise nothing and hold finite floats in [0,1]: [hslnorm] in every
    component, and [rgbnorm] in every channel, in both colour spaces. *)
Theorem norms_in_unit_interval (v : HSL Z) (flag : bool) :
  is_hsl v ->
  (exists w, hslnorm (int_color v flag) = ret w
             /\ unit_float (hsl_h w) /\ unit_float (hsl_s w)
             /\ unit_float (hsl_l w))
  /\ (exists w, rgbnorm (int_color v flag) = ret w
                /\ unit_float (rgb_r w) /\ unit_float (rgb_g w)
                /\ unit_float (rgb_b w)).
Proof.
  intros Hv. split.
  - destruct Hv as (Hh & Hs & Hl).
    unfold hslnorm, int_color, Color_new. cbn [_hsl hsl_h hsl_s hsl_l num_truediv].
    destruct (unit_truediv_exact 360 ltac:(lia) eq_refl _ Hh) as (fh & Eh & Uh).
    destruct (unit_truediv_exact 100 ltac:(lia) eq_refl _ Hs) as (fs & Es & Us).
    destruct (unit_truediv_exact 100 ltac:(lia) eq_refl _ Hl) as (fl & El & Ul).
    rewrite Eh, Es, El. cbn [bind ret].
    exists (mkHSL fh fs fl). cbn [hsl_h hsl_s hsl_l]. auto.
  - destruct (color_rgb_bytes v flag Hv) as (w & Ew & Hr & Hg & Hb).
    unfold rgbnorm. rewrite Ew. cbn [bind ret].
    destruct (unit_truediv_exact 255 ltac:(lia) eq_refl _ Hr) as (fr & Er & Ur).
    destruct (unit_truediv_exact 255 ltac:(lia) eq_refl _ Hg) as (fg & Eg & Ug).
    destruct (unit_truediv_exact 255 ltac:(lia) eq_refl _ Hb) as (fb & Eb & Ub).
    rewrite Er, Eg, Eb. cbn [bind ret].
    exists (mkRGB fr fg fb). cbn [rgb_r rgb_g rgb_b]. auto.
Qed.

Lemma norms_in_unit_interval_witness :
  (exists w, hslnorm (int_color (mkHSL 360 0 100) true) = ret w
             /\ unit_float (hsl_h w) /\ unit_float (hsl_s w)
             /\ unit_float (hsl_l w))
  /\ (exists w, rgbnorm (int_color (mkHSL 360 0 100) true) = ret w
                /\ unit_float (rgb_r w) /\ unit_float (rgb_g w)
                /\ unit_float (rgb_b w)).
Proof.
  apply (norms_in_unit_interval (mkHSL 360 0 100) true).
  unfold is_hsl. simpl. lia.
Defined.

(** ** The slider *)

(** X15: with a nonnegative maximum [action_increment] raises nothing,
    keeps the maximum and the wrap mode and leaves the value in
    [0, maximum]; a wrapping slider holds the sum modulo [maximum + 1], a
    non-wrapping one the sum clamped to [0, maximum]. *)
Theorem action_increment_in_range (sl : Slider) (delta : Z) :
  0 <= _maximum sl ->
  exists v,
    action_increment sl delta = ret (mkSlider v (_maximum sl) (_wrap sl))
    /\ 0 <= v <= _maximum sl
    /\ (_wrap sl = true -> v = (_value sl + delta) mod (_maximum sl + 1))
    /\ (_wrap sl = false
        -> v = Z.max 0 (Z.min (_value sl + delta) (_maximum sl))).
Proof.
  intros Hm. unfold action_increment.
  destruct (_wrap sl) eqn:W.
  - destruct (Z.eqb_spec (_maximum sl + 1) 0) as [|_]; [lia|]. cbn [bind ret].
    pose proof (Z.mod_pos_bound (_value sl + delta) (_maximum sl + 1)
                  ltac:(lia)) as B.
    exists ((_value sl + delta) mod (_maximum sl + 1)).
    split; [do 2 f_equal; lia|]. split; [lia|]. split; [reflexivity|discriminate].
  - cbn [bind ret].
    exists (Z.max 0 (Z.min (_value sl + delta) (_maximum sl))).
    split; [reflexivity|]. split; [lia|]. split; [discriminate|reflexivity].
Qed.

Lemma action_increment_in_range_witness :
  exists v,
    action_increment (mkSlider 355 360 true) 10 = ret (mkSlider v 360 true)
    /\ 0 <= v <= 360
    /\ (true = true -> v = (355 + 10) mod (360 + 1))
    /\ (true = false -> v = Z.max 0 (Z.min (355 + 10) 360)).
Proof.
  apply (action_increment_in_range (mkSlider 355 360 true) 10). simpl. lia.
Defined.

(** X16: every cell [i] of a gradient bar of width [width], [0 <= i < width],
    gets a channel value that is a byte: [int(i/width*255 + .5)] raises
    nothing and lies in 0..255, and the first cell gets 0. *)
Theorem fade_byte_in_range (i width : Z) :
  0 <= i < width ->
  (exists z, fade_byte i width = ret z /\ 0 <= z <= 255)
  /\ fade_byte 0 width = ret 0.
Proof.
  intros Hi. split.
  - unfold fade_byte.
    destruct (unit_truediv i width ltac:(lia) ltac:(lia)) as (f & E & N).
    rewrite E. cbn [bind ret].
    apply (round_scaled_unit f 255 _ 1 255 N I FV_255 ltac:(lia) ltac:(lra)).
    apply small_quotient; lia.
  - unfold fade_byte. rewrite int_truediv_zero by lia. reflexivity.
Qed.

Lemma fade_byte_in_range_witness :
  (exists z, fade_byte 17 40 = ret z /\ 0 <= z <= 255)
  /\ fade_byte 0 40 = ret 0.
Proof. apply (fade_byte_in_range 17 40). lia. Defined.

(** ** Shades *)

Lemma FFin_not_nan (x : float) : FFin x -> num_is_nan (PyFloat x) = false.
Proof.
  unfold FFin, num_is_nan. destruct (Prim2SF x); cbn [SF_finite];
    try contradiction; reflexivity.
Qed.

Lemma lighten_scaled (h s : num) (l : Z) (flag : bool) (k : float) :
  0 <= l <= 100 -> FFin k -> (Rabs (FV k) <= 2)%R ->
  exists l', lighten (Color_new h s (PyInt l) flag) (PyInt 0) (PyFloat k)
             = ret (Color_new h s l' flag)
             /\ in_0_100 l' = true.
Proof.
  pose proof ulp_bound_small as Hu.
  intros Hl Fk Bk. unfold lighten, Color_new.
  cbn [hsl _hsl hsl_h hsl_s hsl_l _ryb num_add bind ret num_mul to_float].
  assert (Bl : (0 <= IZR (l + 0) <= 100)%R).
  { rewrite Z.add_0_r. split; apply IZR_le; lia. }
  destruct (float_of_int_near (l + 0)) as (f & Ef & Nf).
  { apply Rabs_le. lra. }
  rewrite Ef. cbn [bind ret].
  pose proof (near_bounds _ _ _ Nf) as Bf. apply Rabs_le_inv in Bk.
  destruct (mul_FV k f Fk (proj1 Nf)) as [Fp _].
  { apply Rabs_le. nra. }
  eexists. split; [reflexivity|].
  apply clamp_in_range. apply FFin_not_nan. exact Fp.
Qed.

(** X17: on an integer lightness in 0..100 [shades] raises nothing and
    returns four colours with the hue, saturation and flag of the original;
    the two middle ones have the lightness 20 lower, not below 0, and 20
    higher, not above 100, and the lightness of the outer two lies in
    [0,100]. *)
Theorem shades_in_range (h s : num) (l : Z) (flag : bool) :
  0 <= l <= 100 ->
  exists l1 l4,
    shades (Color_new h s (PyInt l) flag)
    = ret [Color_new h s l1 flag;
           Color_new h s (PyInt (Z.max (l - 20) 0)) flag;
           Color_new h s (PyInt (Z.min (l + 20) 100)) flag;
           Color_new h s l4 flag]
    /\ in_0_100 l1 = true /\ in_0_100 l4 = true.
Proof.
  intros Hl.
  destruct (lighten_scaled h s l flag 0.5 Hl I) as (l1 & E1 & R1).
  { rewrite FV_half. apply Rabs_le. lra. }
  destruct (lighten_scaled h s l flag 1.5 Hl I) as (l4 & E4 & R4).
  { assert (FV 1.5 = (3 / 2)%R) by fv_const. rewrite H. apply Rabs_le. lra. }
  exists l1, l4. split; [|split; assumption].
  unfold shades, tuple_of. rewrite E1, E4. cbn [bind ret].
  unfold lighten, Color_new.
  cbn [hsl _hsl hsl_h hsl_s hsl_l _ryb num_add bind ret num_mul].
  rewrite !clamp_int.
  replace (Z.min (Z.max (1 * (l + -20)) 0) 100) with (Z.max (l - 20) 0) by lia.
  replace (Z.min (Z.max (1 * (l + 20)) 0) 100) with (Z.min (l + 20) 100) by lia.
  reflexivity.
Qed.

Lemma shades_in_range_witness :
  exists l1 l4,
    shades (Color_new (PyInt 0) (PyInt 100) (PyInt 90) true)
    = ret [Color_new (PyInt 0) (PyInt 100) l1 true;
           Color_new (PyInt 0) (PyInt 100) (PyInt (Z.max (90 - 20) 0)) true;
           Color_new (PyInt 0) (PyInt 100) (PyInt (Z.min (90 + 20) 100)) true;
           Color_new (PyInt 0) (PyInt 100) l4 true]
    /\ in_0_100 l1 = true /\ in_0_100 l4 = true.
Proof. apply (shades_in_range (PyInt 0) (PyInt 100) 90 true). lia. Defined.

(** ** Lightness and saturation are independent *)

(** X18: [lighten] and [saturate] commute: they change different
    components, and when either fails both orders fail with the same
    [OverflowError], the only exception the two can raise. *)
Theorem lighten_saturate_commute (c : Color) (a m a' m' : num) :
  (c1 <- lighten c a m ;; saturate c1 a' m')
  = (c2 <- saturate c a' m' ;; lighten c2 a m)
  /\ (forall e, lighten c a m = inl e -> e = OverflowError)
  /\ (forall e, saturate c a' m' = inl e -> e = OverflowError).
Proof.
  pose proof (scaled_error (hsl_l (_hsl c)) a m) as EL.
  pose proof (scaled_error (hsl_s (_hsl c)) a' m') as ES.
  rewrite (lighten_alt c), (saturate_alt c).
  destruct (t <- num_add (hsl_l (_hsl c)) a ;; num_mul m t) as [e1|v] eqn:HL;
    destruct (t <- num_add (hsl_s (_hsl c)) a' ;; num_mul m' t) as [e2|w] eqn:HS;
    cbn [bind ret].
  - rewrite (EL e1 eq_refl), (ES e2 eq_refl).
    split; [reflexivity|]. split; intros e H; inversion H; reflexivity.
  - split; [|split].
    + rewrite lighten_alt. cbn [_hsl hsl_l hsl_h hsl_s _ryb Color_new].
      rewrite HL. reflexivity.
    + intros e H. inversion H. subst. apply EL. reflexivity.
    + discriminate.
  - split; [|split].
    + rewrite saturate_alt. cbn [_hsl hsl_l hsl_h hsl_s _ryb Color_new].
      rewrite HS. reflexivity.
    + discriminate.
    + intros e H. inversion H. subst. apply ES. reflexivity.
  - split; [|split; discriminate].
    rewrite lighten_alt, saturate_alt.
    cbn [_hsl hsl_l hsl_h hsl_s _ryb Color_new]. rewrite HL, HS. reflexivity.
Qed.

Lemma lighten_saturate_commute_witness :
  OverflowError = OverflowError
  /\ (c1 <- lighten (Color_new (PyInt 10) (PyInt 40) (PyInt (2 ^ 1024)) false)
                    (PyFloat 0) (PyInt 1) ;;
      saturate c1 (PyInt 5) (PyInt 2))
     = (c2 <- saturate (Color_new (PyInt 10) (PyInt 40) (PyInt (2 ^ 1024)) false)
                       (PyInt 5) (PyInt 2) ;;
        lighten c2 (PyFloat 0) (PyInt 1)).
Proof.
  destruct (lighten_saturate_commute
              (Color_new (PyInt 10) (PyInt 40) (PyInt (2 ^ 1024)) false)
              (PyFloat 0) (PyInt 1) (PyInt 5) (PyInt 2)) as (H1 & H2 & _).
  split; [exact (H2 OverflowError eq_refl)|exact H1].
Defined.

(** ** The round trip through integer HSL *)

Ltac piecewise :=
  unfold trapezoid, tent, Rmax, Rmin, Rabs in *;
  repeat match goal with
         | |- context [Rle_dec ?a ?b] => destruct (Rle_dec a b)
         | |- context [Rcase_abs ?a] => destruct (Rcase_abs a)
         | H : context [Rle_dec ?a ?b] |- _ => destruct (Rle_dec a b)
         | H : context [Rcase_abs ?a] |- _ => destruct (Rcase_abs a)
         end;
  try lra.

Lemma trapezoid_range (t : R) : (0 <= trapezoid t <= 1)%R.
Proof. piecewise. Qed.

Lemma trapezoid_rise (t : R) : (0 <= t <= 1 / 6)%R -> trapezoid t = (6 * t)%R.
Proof. intros H. piecewise. Qed.

Lemma trapezoid_top (t : R) : (1 / 6 <= t <= 1 / 2)%R -> trapezoid t = 1%R.
Proof. intros H. piecewise. Qed.

Lemma trapezoid_fall (t : R) :
  (1 / 2 <= t <= 2 / 3)%R -> trapezoid t = (4 - 6 * t)%R.
Proof. intros H. piecewise. Qed.

Lemma trapezoid_low (t : R) : (t <= 0 \/ 2 / 3 <= t)%R -> trapezoid t = 0%R.
Proof. intros H. destruct H; piecewise. Qed.

Lemma trapezoid_lipschitz (a b d : R) :
  (Rabs (a - b) <= d)%R -> (Rabs (trapezoid a - trapezoid b) <= 6 * d)%R.
Proof.
  intros H. apply Rabs_le_inv in H. apply Rabs_le. piecewise.
Qed.

(** The ramp is continuous around the circle: angles in [0,1] that agree up
    to a whole turn and a small [d] have ramp values within [6 * d]. *)
Lemma trapezoid_circle (a b d : R) (k : Z) :
  (0 <= a <= 1)%R -> (0 <= b <= 1)%R -> (d <= 1 / 4)%R ->
  (Rabs (a - b - IZR k) <= d)%R ->
  (Rabs (trapezoid a - trapezoid b) <= 6 * d)%R.
Proof.
  intros Ha Hb Hd H. apply Rabs_le_inv in H.
  assert (G : forall t, (0 <= t)%R -> (trapezoid t <= 6 * t)%R).
  { intros t Ht. piecewise. }
  pose proof (trapezoid_range a) as Ra. pose proof (trapezoid_range b) as Rb.
  destruct (Z_lt_le_dec k 0) as [Kn|Kp].
  - assert (IZR k <= -1)%R by (apply IZR_le; lia).
    rewrite (trapezoid_low b) by lra.
    pose proof (G a ltac:(lra)). apply Rabs_le. lra.
  - destruct (Z.eq_dec k 0) as [->|Kz].
    + apply trapezoid_lipschitz. apply Rabs_le. lra.
    + assert (1 <= IZR k)%R by (apply IZR_le; lia).
      rewrite (trapezoid_low a) by lra.
      pose proof (G b ltac:(lra)). apply Rabs_le. lra.
Qed.

Lemma tent_range (l : R) : (0 <= l <= 1)%R -> (0 <= tent l <= 1 / 2)%R.
Proof. intros H. piecewise. Qed.

Lemma tent_lipschitz (a b d : R) :
  (Rabs (a - b) <= d)%R -> (Rabs (tent a - tent b) <= d)%R.
Proof.
  intros H. apply Rabs_le_inv in H. apply Rabs_le. piecewise.
Qed.

Ltac reduce_with k :=
  exists k; split; [lra|]; piecewise.

Lemma sextant_red (xr xg xb eta : R) :
  (0 <= xr <= 1)%R -> (0 <= xg <= 1)%R -> (0 <= xb <= 1)%R ->
  sextant xr xg xb eta -> reduced (eta / 6) (1 / 3) xr.
Proof.
  intros Hr Hg Hb S. unfold reduced.
  destruct (Rle_dec 4 eta) as [C|C].
  - destruct S as [(E1 & E2 & [E3|E3])|[(E1 & E2 & [E3|E3])|(E1 & E2 & [E3|E3])]];
      subst; reduce_with 1.
  - destruct S as [(E1 & E2 & [E3|E3])|[(E1 & E2 & [E3|E3])|(E1 & E2 & [E3|E3])]];
      subst; reduce_with 0.
Qed.

Lemma sextant_green (xr xg xb eta : R) :
  (0 <= xr <= 1)%R -> (0 <= xg <= 1)%R -> (0 <= xb <= 1)%R ->
  sextant xr xg xb eta -> reduced (eta / 6) 0 xg.
Proof.
  intros Hr Hg Hb S. unfold reduced.
  destruct (Rle_dec 0 eta) as [C|C].
  - destruct S as [(E1 & E2 & [E3|E3])|[(E1 & E2 & [E3|E3])|(E1 & E2 & [E3|E3])]];
      subst; reduce_with 0.
  - destruct S as [(E1 & E2 & [E3|E3])|[(E1 & E2 & [E3|E3])|(E1 & E2 & [E3|E3])]];
      subst; reduce_with (-1).
Qed.

Lemma sextant_blue (xr xg xb eta : R) :
  (0 <= xr <= 1)%R -> (0 <= xg <= 1)%R -> (0 <= xb <= 1)%R ->
  sextant xr xg xb eta -> reduced (eta / 6) (- (1 / 3)) xb.
Proof.
  intros Hr Hg Hb S. unfold reduced.
  destruct (Rle_dec 2 eta) as [C|C].
  - destruct S as [(E1 & E2 & [E3|E3])|[(E1 & E2 & [E3|E3])|(E1 & E2 & [E3|E3])]];
      subst; reduce_with 0.
  - destruct S as [(E1 & E2 & [E3|E3])|[(E1 & E2 & [E3|E3])|(E1 & E2 & [E3|E3])]];
      subst; reduce_with (-1).
Qed.

(** [int(x * n + .5)] is within a half (and the rounding noise) of [a * n]. *)
Lemma round_scaled_nearest (x c : float) (a i : R) (n : Z) :
  near x a i -> FFin c -> FV c = IZR n -> 1 <= n <= 400 ->
  (0 <= i <= 1000000)%R -> (0 <= a <= 1)%R ->
  exists z, round_scaled x c = ret z /\ 0 <= z <= n
            /\ (Rabs (IZR z - a * IZR n) <= 1 / 2 + 1 / 1000)%R.
Proof.
  pose proof ulp_bound_small as Hu.
  intros Hx Fc Ec Hn Hi Ha.
  destruct (round_scaled_unit x c a i n Hx Fc Ec Hn Hi Ha) as (z0 & E0 & R0).
  unfold round_scaled in *.
  assert (HK : (1 <= IZR n <= 400)%R) by (split; apply IZR_le; lia).
  pose proof (near_scale x c a (IZR n) i Hx Fc Ec Hi HK
                ltac:(apply Rabs_le; lra)) as Hm.
  assert (Hh : near 0.5 (1 / 2) 0) by (rewrite <- FV_half; apply near_exact; exact I).
  pose proof (near_add _ _ _ _ _ _ Hm Hh ltac:(nra) ltac:(lra) ltac:(nra)
                ltac:(nra)) as Hs.
  pose proof (near_bounds _ _ _ Hs) as B.
  assert (Hni : (0 <= IZR n * i <= 400000000)%R) by nra.
  assert (He : ((IZR n * i + 1 + 0 + 1) * ulp_bound <= / 1000)%R) by nra.
  destruct (int_of_float_FV _ (proj1 Hs) ltac:(nra)) as (z & Ez & Lz & Uz).
  rewrite Ez in E0. injection E0 as <-.
  exists z. split; [exact Ez|]. split; [exact R0|].
  apply Rabs_le. lra.
Qed.

Lemma float_mod_one_turn (x : float) :
  FFin x -> (Rabs (FV x) < 1)%R ->
  exists (r : float) (k : Z),
    float_mod x 1 = ret r /\ FFin r
    /\ (- ulp_bound <= FV r <= 1 + ulp_bound)%R
    /\ (Rabs (FV r - (FV x - IZR k)) <= ulp_bound)%R.
Proof.
  intros Hf Hv. pose proof ulp_bound_small as Hu.
  unfold float_mod.
  change (1 =? 0)%float with false. change (1 <? 0)%float with false.
  cbv iota. rewrite (fmod_small x Hf Hv). cbn [xorb].
  pose proof (eqb_FV x 0 Hf I) as E0. rewrite FV_zero in E0.
  pose proof (ltb_FV x 0 Hf I) as L0. rewrite FV_zero in L0.
  apply Rabs_def2 in Hv.
  destruct (x =? 0)%float.
  - exists 0%float, 0. split; [reflexivity|]. split; [exact I|].
    rewrite FV_zero, E0. split; [lra|]. apply Rabs_le. lra.
  - destruct (x <? 0)%float.
    + destruct (add_FV x 1 Hf I) as [Hfin Herr].
      { rewrite FV_one. apply Rabs_le. lra. }
      exists (x + 1)%float, (-1). split; [reflexivity|]. split; [exact Hfin|].
      rewrite FV_one in Herr. apply Rabs_le_inv in Herr.
      split; [lra|]. apply Rabs_le. simpl. lra.
    + exists x, 0. split; [reflexivity|]. split; [exact Hf|].
      split; [lra|]. apply Rabs_le. lra.
Qed.

Lemma sum_byte_half_le (j : Z) (v : R) :
  (v <= 1 / 2 + 1 / 1000)%R -> (Rabs (v - IZR j / 255 / 2) <= 1 / 100000)%R ->
  (IZR j / 255 / 2 <= 1 / 2)%R.
Proof.
  intros Hv H. apply Rabs_le_inv in H.
  destruct (Z_le_gt_dec j 255) as [Hj|Hj].
  - apply IZR_le in Hj. lra.
  - assert (256 <= j) by lia. apply IZR_le in H0. lra.
Qed.

Lemma sum_byte_half_ge (j : Z) (v : R) :
  (1 / 2 - 1 / 1000 <= v)%R -> (Rabs (v - IZR j / 255 / 2) <= 1 / 100000)%R ->
  (1 / 2 <= IZR j / 255 / 2)%R.
Proof.
  intros Hv H. apply Rabs_le_inv in H.
  destruct (Z_le_gt_dec 255 j) as [Hj|Hj].
  - apply IZR_le in Hj. lra.
  - assert (j <= 254) by lia. apply IZR_le in H0. lra.
Qed.

(** [colorsys.rgb_to_hls] on byte channels, with the exact hue, lightness
    and saturation the floats approximate. *)
Lemma rgb_to_hls_exact (fr fg fb : float) (r g b : Z) :
  chan fr r -> chan fg g -> chan fb b ->
  let M := Z.max (Z.max r g) b in
  let m := Z.min (Z.min r g) b in
  let mu := (IZR M / 255)%R in
  let nu := (IZR m / 255)%R in
  exists (h l s : float) (aS eta : R) (k : Z),
    colorsys.rgb_to_hls fr fg fb = ret (h, l, s)
    /\ near l ((mu + nu) / 2) 4
    /\ near s aS 2101 /\ (0 <= aS <= 1)%R
    /\ (aS * (2 * tent ((mu + nu) / 2)) = mu - nu)%R
    /\ FFin h /\ (- ulp_bound <= FV h <= 1 + ulp_bound)%R
    /\ (Rabs (FV h - (eta / 6 - IZR k)) <= 3607 * ulp_bound)%R
    /\ (m = M
        \/ (m < M
            /\ sextant ((IZR r / 255 - nu) / (mu - nu))
                       ((IZR g / 255 - nu) / (mu - nu))
                       ((IZR b / 255 - nu) / (mu - nu)) eta)).
Proof.
  pose proof ulp_bound_small as Hu.
  intros Cr Cg Cb. cbv zeta. unfold colorsys.rgb_to_hls.
  pose proof (chan_max _ _ _ _ (chan_max _ _ _ _ Cr Cg) Cb) as Cmax.
  pose proof (chan_min _ _ _ _ (chan_min _ _ _ _ Cr Cg) Cb) as Cmin.
  set (maxc := float_max (float_max fr fg) fb) in *.
  set (minc := float_min (float_min fr fg) fb) in *.
  set (M := Z.max (Z.max r g) b) in *. set (m := Z.min (Z.min r g) b) in *.
  pose proof (chan_near _ _ Cr) as Nr. pose proof (chan_near _ _ Cg) as Ng.
  pose proof (chan_near _ _ Cb) as Nb.
  pose proof (chan_near _ _ Cmax) as Nmax.
  pose proof (chan_near _ _ Cmin) as Nmin.
  pose proof (chan_unit _ _ Cmax) as Umax.
  pose proof (chan_unit _ _ Cmin) as Umin.
  pose proof (div255_le m r ltac:(unfold m; lia)) as Lr.
  pose proof (div255_le m g ltac:(unfold m; lia)) as Lg.
  pose proof (div255_le m b ltac:(unfold m; lia)) as Lb.
  pose proof (div255_le r M ltac:(unfold M; lia)) as Ur.
  pose proof (div255_le g M ltac:(unfold M; lia)) as Ug.
  pose proof (div255_le b M ltac:(unfold M; lia)) as Ub.
  assert (Esum : ((IZR M / 255 + IZR m / 255) / 2 = IZR (M + m) / 255 / 2)%R).
  { rewrite plus_IZR. lra. }
  set (mu := (IZR M / 255)%R) in *. set (nu := (IZR m / 255)%R) in *.
  set (rho := (IZR r / 255)%R) in *. set (gam := (IZR g / 255)%R) in *.
  set (bet := (IZR b / 255)%R) in *.
  pose proof (near_add _ _ _ _ _ _ Nmax Nmin ltac:(lra) ltac:(lra) ltac:(lra)
                ltac:(lra)) as Nsum.
  pose proof (near_sub _ _ _ _ _ _ Nmax Nmin ltac:(lra) ltac:(lra) ltac:(lra)
                ltac:(lra)) as Nrange.
  destruct (near_div_const _ 2 _ 2 _ Nsum I FV_2 ltac:(lra)
              ltac:(apply Rabs_le; lra) ltac:(lra)) as (l & El & Nl).
  rewrite El. cbn [bind ret].
  assert (Nl4 : near l ((mu + nu) / 2) 4) by (eapply near_weaken; [exact Nl|lra]).
  pose proof (eqb_FV minc maxc (proj1 Nmin) (proj1 Nmax)) as Eq.
  destruct (minc =? maxc)%float.
  { assert (EmM : m = M).
    { assert (m <= M) by (unfold m, M; lia).
      assert (M <= m) by (apply (chan_le maxc minc); [assumption..|lra]).
      lia. }
    assert (Emn : mu = nu) by (unfold mu, nu; rewrite EmM; reflexivity).
    exists 0%float, l, 0%float, 0%R, 0%R, 0.
    assert (N0 : near 0 0 0) by (apply near_lit; [exact I|exact FV_zero]).
    split; [reflexivity|].
    split; [exact Nl4|].
    split; [eapply near_weaken; [exact N0|lra]|]. split; [lra|].
    split; [lra|]. split; [exact I|]. rewrite FV_zero.
    split; [lra|]. split; [|left; exact EmM].
    apply Rabs_le. lra. }
  assert (HmM : m < M).
  { assert (m <= M) by (unfold m, M; lia).
    destruct (Z.eq_dec m M) as [E|E]; [|lia].
    exfalso. apply Eq. rewrite E in Cmin.
    rewrite (chan_fun _ _ _ Cmin Cmax). reflexivity. }
  assert (Gap : (/ 255 <= mu - nu)%R).
  { assert (IZR m + 1 <= IZR M)%R by (rewrite <- plus_IZR; apply IZR_le; lia).
    unfold mu, nu. lra. }
  pose proof (near_bounds _ _ _ Nl4) as Bl.
  (* saturation *)
  assert (Hs : exists s aS,
             (if (l <=? 0.5)%float then float_div (maxc - minc) (maxc + minc)
              else float_div (maxc - minc) (2 - maxc - minc)) = ret s
             /\ near s aS 2101 /\ (0 <= aS <= 1)%R
             /\ (aS * (2 * tent ((mu + nu) / 2)) = mu - nu)%R).
  { pose proof (leb_FV l 0.5 (proj1 Nl4) I) as Le. rewrite FV_half in Le.
    destruct (l <=? 0.5)%float.
    - destruct (near_div_unit _ _ _ _ _ _ Nrange Nsum ltac:(lra) ltac:(lra)
                  ltac:(lra) ltac:(lra) ltac:(lra)) as (s & Es & Ns & Bs).
      exists s, ((mu - nu) / (mu + nu))%R. split; [exact Es|].
      split; [eapply near_weaken; [exact Ns|lra]|]. split; [exact Bs|].
      assert (Hhalf : ((mu + nu) / 2 <= 1 / 2)%R).
      { rewrite Esum. apply (sum_byte_half_le _ (FV l)); [lra|].
        rewrite <- Esum. apply Rabs_le. lra. }
      unfold tent. rewrite Rmin_left by lra. field. lra.
    - pose proof (near_sub _ _ _ _ _ _ (near_lit 2 2 I FV_2) Nmax ltac:(lra)
                    ltac:(lra) ltac:(lra) ltac:(lra)) as N2.
      pose proof (near_sub _ _ _ _ _ _ N2 Nmin ltac:(lra) ltac:(lra)
                    ltac:(lra) ltac:(lra)) as N3.
      destruct (near_div_unit _ _ _ _ _ _ Nrange N3 ltac:(lra) ltac:(lra)
                  ltac:(lra) ltac:(lra) ltac:(lra)) as (s & Es & Ns & Bs).
      exists s, ((mu - nu) / (2 - mu - nu))%R. split; [exact Es|].
      split; [eapply near_weaken; [exact Ns|lra]|]. split; [exact Bs|].
      assert (Hhalf : (1 / 2 <= (mu + nu) / 2)%R).
      { rewrite Esum. apply (sum_byte_half_ge _ (FV l)); [lra|].
        rewrite <- Esum. apply Rabs_le. lra. }
      unfold tent. rewrite Rmin_right by lra. field. lra. }
  destruct Hs as (s & aS & Es & Ns & Bs & Is). rewrite Es. cbn [bind ret].
  (* the three differences from the maximum *)
  pose proof (near_sub _ _ _ _ _ _ Nmax Nr ltac:(lra) ltac:(lra) ltac:(lra)
                ltac:(lra)) as Dr.
  pose proof (near_sub _ _ _ _ _ _ Nmax Ng ltac:(lra) ltac:(lra) ltac:(lra)
                ltac:(lra)) as Dg.
  pose proof (near_sub _ _ _ _ _ _ Nmax Nb ltac:(lra) ltac:(lra) ltac:(lra)
                ltac:(lra)) as Db.
  destruct (near_div_unit _ _ _ _ _ _ Dr Nrange ltac:(lra) ltac:(lra)
              ltac:(lra) ltac:(lra) ltac:(lra)) as (rc & Erc & Nrc & Brc).
  destruct (near_div_unit _ _ _ _ _ _ Dg Nrange ltac:(lra) ltac:(lra)
              ltac:(lra) ltac:(lra) ltac:(lra)) as (gc & Egc & Ngc & Bgc).
  destruct (near_div_unit _ _ _ _ _ _ Db Nrange ltac:(lra) ltac:(lra)
              ltac:(lra) ltac:(lra) ltac:(lra)) as (bc & Ebc & Nbc & Bbc).
  rewrite Erc, Egc, Ebc. cbn [bind ret].
  set (Rr := ((mu - rho) / (mu - nu))%R) in *.
  set (Rg := ((mu - gam) / (mu - nu))%R) in *.
  set (Rb := ((mu - bet) / (mu - nu))%R) in *.
  assert (Xr : ((rho - nu) / (mu - nu) = 1 - Rr)%R) by (unfold Rr; field; lra).
  assert (Xg : ((gam - nu) / (mu - nu) = 1 - Rg)%R) by (unfold Rg; field; lra).
  assert (Xb : ((bet - nu) / (mu - nu) = 1 - Rb)%R) by (unfold Rb; field; lra).
  assert (Top : forall (f : float) (k : Z) (c : R),
             chan f k -> c = (IZR k / 255)%R -> FV f = FV maxc ->
             ((mu - c) / (mu - nu) = 0)%R).
  { intros f k c Cf -> E.
    assert (k = M).
    { assert (k <= M) by (apply (chan_le f maxc); [assumption..|lra]).
      assert (M <= k) by (apply (chan_le maxc f); [assumption..|lra]).
      lia. }
    subst k. fold mu. unfold Rdiv. rewrite Rminus_diag. lra. }
  assert (TopZ : forall (f : float) (k : Z),
             chan f k -> FV f = FV maxc -> k = M).
  { intros f k Cf E.
    assert (k <= M) by (apply (chan_le f maxc); [assumption..|lra]).
    assert (M <= k) by (apply (chan_le maxc f); [assumption..|lra]).
    lia. }
  assert (Bot : forall (k : Z), k = m -> ((mu - IZR k / 255) / (mu - nu) = 1)%R).
  { intros k ->. fold nu. field. lra. }
  (* the hue before wrapping *)
  pose proof (eqb_FV fr maxc (proj1 Nr) (proj1 Nmax)) as Er.
  pose proof (eqb_FV fg maxc (proj1 Ng) (proj1 Nmax)) as Eg.
  assert (Hh : exists eta,
             near (if (fr =? maxc)%float then (bc - gc)%float
                   else if (fg =? maxc)%float then (2 + rc - bc)%float
                        else (4 + gc - rc)%float) eta 3604
             /\ (-1 <= eta <= 5)%R
             /\ sextant (1 - Rr) (1 - Rg) (1 - Rb) eta).
  { destruct (fr =? maxc)%float; [|destruct (fg =? maxc)%float].
    - exists (Rb - Rg)%R. split; [|split; [lra|]].
      + pose proof (near_sub _ _ _ _ _ _ Nbc Ngc ltac:(lra) ltac:(lra)
                      ltac:(lra) ltac:(lra)) as H.
        eapply near_weaken; [exact H|lra].
      + left. pose proof (Top fr r rho Cr eq_refl Er) as T. fold Rr in T.
        split; [lra|]. split; [lra|].
        pose proof (TopZ fr r Cr Er) as Tz.
        assert (Hm : g = m \/ b = m) by (clear - HmM Tz; unfold m, M in *; lia).
        destruct Hm as [Hm|Hm]; apply Bot in Hm.
        * left. fold gam in Hm. fold Rg in Hm. lra.
        * right. fold bet in Hm. fold Rb in Hm. lra.
    - exists (2 + Rr - Rb)%R. split; [|split; [lra|]].
      + pose proof (near_add _ _ _ _ _ _ (near_lit 2 2 I FV_2) Nrc ltac:(lra)
                      ltac:(lra) ltac:(lra) ltac:(lra)) as H1.
        pose proof (near_sub _ _ _ _ _ _ H1 Nbc ltac:(lra) ltac:(lra)
                      ltac:(lra) ltac:(lra)) as H.
        eapply near_weaken; [exact H|lra].
      + right; left. pose proof (Top fg g gam Cg eq_refl Eg) as T. fold Rg in T.
        split; [lra|]. split; [lra|].
        pose proof (TopZ fg g Cg Eg) as Tz.
        assert (Hm : r = m \/ b = m) by (clear - HmM Tz; unfold m, M in *; lia).
        destruct Hm as [Hm|Hm]; apply Bot in Hm.
        * left. fold rho in Hm. fold Rr in Hm. lra.
        * right. fold bet in Hm. fold Rb in Hm. lra.
    - exists (4 + Rg - Rr)%R. split; [|split; [lra|]].
      + pose proof (near_add _ _ _ _ _ _ (near_lit 4 4 I FV_4) Ngc ltac:(lra)
                      ltac:(lra) ltac:(lra) ltac:(lra)) as H1.
        pose proof (near_sub _ _ _ _ _ _ H1 Nrc ltac:(lra) ltac:(lra)
                      ltac:(lra) ltac:(lra)) as H.
        eapply near_weaken; [exact H|lra].
      + right; right.
        assert (Hb : b = M).
        { assert (r <> M).
          { intros E. apply Er. rewrite E in Cr.
            rewrite (chan_fun _ _ _ Cr Cmax). reflexivity. }
          assert (g <> M).
          { intros E. apply Eg. rewrite E in Cg.
            rewrite (chan_fun _ _ _ Cg Cmax). reflexivity. }
          clear - H H0. unfold M in *. lia. }
        assert (T : Rb = 0%R).
        { unfold Rb, bet. rewrite Hb. fold mu. unfold Rdiv.
          rewrite Rminus_diag. lra. }
        split; [lra|]. split; [lra|].
        assert (Hm : r = m \/ g = m) by (clear - HmM Hb; unfold m, M in *; lia).
        destruct Hm as [Hm|Hm]; apply Bot in Hm.
        * left. fold rho in Hm. fold Rr in Hm. lra.
        * right. fold gam in Hm. fold Rg in Hm. lra. }
  destruct Hh as (eta & Nh & Bh & Sx).
  destruct (near_div_const _ 6 _ 6 _ Nh I FV_6 ltac:(lra)
              ltac:(apply Rabs_le; lra) ltac:(lra)) as (h6 & Eh6 & Nh6).
  rewrite Eh6. cbn [bind ret].
  pose proof (near_bounds _ _ _ Nh6) as B6.
  destruct (float_mod_one_turn h6 (proj1 Nh6)) as (h' & k & Eh' & Fh' & Bh' & Kh').
  { apply Rabs_def1; lra. }
  rewrite Eh'. cbn [bind ret].
  exists h', l, s, aS, eta, k.
  split; [reflexivity|].
  split; [exact Nl4|]. split; [exact Ns|]. split; [exact Bs|].
  split; [exact Is|]. split; [exact Fh'|]. split; [exact Bh'|].
  split.
  - apply Rabs_le_inv in Kh'. apply Rabs_le. lra.
  - right. split; [exact HmM|]. rewrite Xr, Xg, Xb. exact Sx.
Qed.

(** ** The remainder modulo 1, up to whole turns *)

Lemma fmod_one_turn (x : float) :
  FFin x ->
  exists (v : R) (k : Z),
    near (fmod x 1) v 1 /\ (Rabs v < 1)%R /\ v = (FV x - IZR k)%R.
Proof.
  pose proof ulp_bound_small as Hu.
  unfold FFin, FV, fmod. rewrite Prim2SF_one.
  destruct (Prim2SF x) as [s| | |s m e]; cbn [SF_finite]; try contradiction;
    intros _.
  - exists 0%R, 0. split; [|split].
    + cbn [SFfmod]. apply near_SF2Prim; [reflexivity|exact I|].
      cbn [SF_value]. apply Rabs_le. lra.
    + rewrite Rabs_R0. lra.
    + cbn [SF_value]. lra.
  - cbn [SFfmod].
    set (ez := Z.min e (-52)).
    set (Y := Z.shiftl 4503599627370496 (-52 - ez)).
    set (X := Z.shiftl (Zpos m) (e - ez)).
    assert (HY : Y = 2 ^ (- ez)).
    { unfold Y. rewrite Z.shiftl_mul_pow2 by (unfold ez; lia).
      change 4503599627370496 with (2 ^ 52).
      rewrite <- Z.pow_add_r by (unfold ez; lia). f_equal. lia. }
    assert (PY : 0 < Y).
    { rewrite HY. apply Z.pow_pos_nonneg; unfold ez; lia. }
    pose proof (Z.mod_pos_bound X Y PY) as [R0 R1].
    pose proof (Z.div_mod X Y ltac:(lia)) as DM.
    set (R := X mod Y) in *. set (Q := X / Y) in *.
    pose proof (pow2_pos ez) as Pe.
    assert (HYR : (IZR Y * pow2 ez = 1)%R).
    { rewrite HY, <- pow2_IZR, pow2_neg by (unfold ez; lia).
      apply Rinv_l. lra. }
    assert (HXR : (IZR X * pow2 ez = IZR (Zpos m) * pow2 e)%R).
    { unfold X. rewrite Z.shiftl_mul_pow2 by (unfold ez; lia).
      rewrite mult_IZR, <- pow2_IZR by (unfold ez; lia).
      rewrite Rmult_assoc, <- pow2_add. f_equal. f_equal. lia. }
    assert (HV : (0 <= IZR R * pow2 ez < 1)%R).
    { apply IZR_le in R0. apply IZR_lt in R1.
      split; [nra|]. rewrite <- HYR. nra. }
    assert (HR : (IZR R * pow2 ez = IZR (Zpos m) * pow2 e - IZR Q)%R).
    { assert (EX : IZR X = (IZR Y * IZR Q + IZR R)%R).
      { rewrite <- mult_IZR, <- plus_IZR. f_equal. exact DM. }
      rewrite <- HXR, EX.
      replace ((IZR Y * IZR Q + IZR R) * pow2 ez)%R
        with (IZR Y * pow2 ez * IZR Q + IZR R * pow2 ez)%R by ring.
      rewrite HYR. lra. }
    exists (IZR (cond_Zopp s R) * pow2 ez)%R, (cond_Zopp s Q).
    assert (HA : (Rabs (IZR (cond_Zopp s R) * pow2 ez) < 1)%R).
    { destruct s; cbn [cond_Zopp]; [rewrite opp_IZR|];
        apply Rabs_def1; lra. }
    split; [|split; [exact HA|]].
    + destruct (binary_normalize_bound (cond_Zopp s R) ez s) as [Hf He].
      { lra. }
      apply near_SF2Prim; [apply binary_normalize_valid|exact Hf|lra].
    + cbn [SF_value]. destruct s; cbn [cond_Zopp]; rewrite ?opp_IZR; lra.
Qed.

Lemma float_mod_turn (x : float) :
  FFin x ->
  exists (r : float) (k : Z),
    float_mod x 1 = ret r /\ FFin r
    /\ (- (2 * ulp_bound) <= FV r <= 1 + ulp_bound)%R
    /\ (Rabs (FV r - (FV x - IZR k)) <= 2 * ulp_bound)%R.
Proof.
  intros Hf. pose proof ulp_bound_small as Hu.
  unfold float_mod.
  change (1 =? 0)%float with false. change (1 <? 0)%float with false.
  cbv iota. cbn [xorb].
  destruct (fmod_one_turn x Hf) as (v & k & [Fm Hm] & Hv & Ek).
  apply Rabs_le_inv in Hm. apply Rabs_def2 in Hv.
  set (m := fmod x 1) in *.
  pose proof (ltb_FV m 0 Fm I) as L0. rewrite FV_zero in L0.
  pose proof (eqb_FV m 0 Fm I) as E0. rewrite FV_zero in E0.
  destruct (m =? 0)%float.
  - exists 0%float, k. split; [reflexivity|]. split; [exact I|].
    rewrite FV_zero. split; [lra|]. apply Rabs_le. lra.
  - destruct (m <? 0)%float.
    + destruct (add_FV m 1 Fm I) as [Hfin Herr].
      { rewrite FV_one. apply Rabs_le. lra. }
      exists (m + 1)%float, (k - 1). split; [reflexivity|]. split; [exact Hfin|].
      rewrite FV_one in Herr. apply Rabs_le_inv in Herr.
      split; [lra|]. rewrite minus_IZR. apply Rabs_le. lra.
    + exists m, k. split; [reflexivity|]. split; [exact Fm|].
      split; [lra|]. apply Rabs_le. lra.
Qed.

Lemma ramp_exact (m1 d t : float) (a1 a2 theta : R) :
  near m1 a1 13 -> near d (a2 - a1) 27 -> near t theta 2 ->
  (0 <= a1 <= a2)%R -> (a2 <= 1)%R -> (0 <= theta <= 1 / 6)%R ->
  near (m1 + d * t * 6) (a1 + (a2 - a1) * (6 * theta)) 300.
Proof.
  intros N1 Nd Nt Ha Ha2 Ht.
  destruct (near_mul_unit d t _ _ 27 2 Nd Nt ltac:(lra) ltac:(lra)
              ltac:(lra) ltac:(lra) ltac:(lra)) as [Np Bp].
  pose proof (near_scale _ 6 _ 6 _ Np I FV_6 ltac:(lra) ltac:(lra)
                ltac:(apply Rabs_le; lra)) as N6.
  assert (B6 : (0 <= (a2 - a1) * theta * 6 <= a2 - a1)%R) by nra.
  pose proof (near_add _ _ _ _ _ _ N1 N6 ltac:(lra) ltac:(lra) ltac:(lra)
                ltac:(lra)) as Ns.
  replace (a1 + (a2 - a1) * (6 * theta))%R
    with (a1 + (a2 - a1) * theta * 6)%R by ring.
  eapply near_weaken; [exact Ns|lra].
Qed.

(** [colorsys._v] follows the ramp at the hue reduced to one turn. *)
Lemma _v_near (m1 m2 hue : float) (a1 a2 : R) :
  near m1 a1 13 -> near m2 a2 13 ->
  (0 <= a1 <= a2)%R -> (a2 <= 1)%R -> FFin hue ->
  exists (r : float) (theta : R) (k : Z),
    colorsys._v m1 m2 hue = ret r
    /\ (0 <= theta <= 1)%R
    /\ (Rabs (theta - (FV hue - IZR k)) <= 8 * ulp_bound)%R
    /\ near r (a1 + (a2 - a1) * trapezoid theta) 300.
Proof.
  pose proof ulp_bound_small as Hu.
  intros N1 N2 Ha Ha2 Fh. unfold colorsys._v.
  destruct (float_mod_turn hue Fh) as (t & k & Et & Ft & Bt & Kt).
  rewrite Et. cbn [bind ret]. apply Rabs_le_inv in Kt.
  pose proof (near_sub _ _ _ _ _ _ N2 N1 ltac:(lra) ltac:(lra) ltac:(lra)
                ltac:(lra)) as Nd.
  apply near_weaken with (j := 27%R) in Nd; [|lra].
  pose proof FV_ONE_SIXTH as V6. apply Rabs_le_inv in V6.
  pose proof FV_TWO_THIRD as V23. apply Rabs_le_inv in V23.
  pose proof (ltb_FV t colorsys.ONE_SIXTH Ft I) as L6.
  destruct (t <? colorsys.ONE_SIXTH)%float.
  { destruct (clamp_interval (FV t) 0 (1 / 6) 2 ltac:(lra) ltac:(lra)
                ltac:(lra)) as (theta & Bth & Nth).
    pose proof (ramp_exact m1 (m2 - m1) t a1 a2 theta N1 Nd (conj Ft Nth)
                  Ha Ha2 Bth) as Nr.
    eexists. exists theta, k. split; [reflexivity|]. split; [lra|].
    apply Rabs_le_inv in Nth. split; [apply Rabs_le; lra|].
    rewrite trapezoid_rise by lra. exact Nr. }
  pose proof (ltb_FV t 0.5 Ft I) as L5. rewrite FV_half in L5.
  destruct (t <? 0.5)%float.
  { destruct (clamp_interval (FV t) (1 / 6) (1 / 2) 1 ltac:(lra) ltac:(lra)
                ltac:(lra)) as (theta & Bth & Nth).
    exists m2, theta, k. split; [reflexivity|]. split; [lra|].
    apply Rabs_le_inv in Nth. split; [apply Rabs_le; lra|].
    rewrite trapezoid_top by lra.
    replace (a1 + (a2 - a1) * 1)%R with a2 by ring.
    eapply near_weaken; [exact N2|lra]. }
  pose proof (ltb_FV t colorsys.TWO_THIRD Ft I) as L23.
  destruct (t <? colorsys.TWO_THIRD)%float.
  { destruct (sub_FV colorsys.TWO_THIRD t I Ft) as [Fd Hd].
    { apply Rabs_le. lra. }
    apply Rabs_le_inv in Hd.
    destruct (clamp_interval (FV (colorsys.TWO_THIRD - t)) 0 (1 / 6) 2
                ltac:(lra) ltac:(lra) ltac:(lra)) as (theta & Bth & Nth).
    pose proof (ramp_exact m1 (m2 - m1) (colorsys.TWO_THIRD - t) a1 a2 theta
                  N1 Nd (conj Fd Nth) Ha Ha2 Bth) as Nr.
    eexists. exists (2 / 3 - theta)%R, k. split; [reflexivity|]. split; [lra|].
    apply Rabs_le_inv in Nth. split; [apply Rabs_le; lra|].
    rewrite trapezoid_fall by lra.
    replace (4 - 6 * (2 / 3 - theta))%R with (6 * theta)%R by lra.
    exact Nr. }
  destruct (clamp_interval (FV t) (2 / 3) 1 1 ltac:(lra) ltac:(lra)
              ltac:(lra)) as (theta & Bth & Nth).
  exists m1, theta, k. split; [reflexivity|]. split; [lra|].
  apply Rabs_le_inv in Nth. split; [apply Rabs_le; lra|].
  rewrite trapezoid_low by lra.
  replace (a1 + (a2 - a1) * 0)%R with a1 by ring.
  eapply near_weaken; [exact N1|lra].
Qed.

Lemma FV_ONE_THIRD : (Rabs (FV colorsys.ONE_THIRD - 1 / 3) <= ulp_bound)%R.
Proof.
  assert (H : (1 / 3 - / 4398046511104 <= FV colorsys.ONE_THIRD
               <= 1 / 3 + / 4398046511104)%R).
  { unfold colorsys.ONE_THIRD. split; fv_const. }
  assert (Hu' : ulp_bound = (/ 4398046511104)%R).
  { unfold ulp_bound. change (pow2 (-42)) with (pow2 (- (42))).
    rewrite pow2_neg, (pow2_IZR 42) by lia. reflexivity. }
  rewrite Hu'. apply Rabs_le. lra.
Qed.

Lemma on_turn_exists (x sigma : R) :
  (0 <= x <= 1)%R -> (-1 <= sigma <= 1)%R -> exists theta, on_turn x sigma theta.
Proof.
  pose proof ulp_bound_small as Hu. intros Hx Hs. unfold on_turn.
  destruct (Rle_dec 0 (x + sigma)) as [H0|H0].
  - destruct (Rle_dec (x + sigma) 1) as [H1|H1].
    + exists (x + sigma)%R, 0. split; [lra|]. apply Rabs_le. lra.
    + exists (x + sigma - 1)%R, 1. split; [lra|]. apply Rabs_le. lra.
  - exists (x + sigma + 1)%R, (-1). split; [lra|]. apply Rabs_le. simpl. lra.
Qed.

(** [colorsys.hls_to_rgb]: every channel is the lightness, minus half the
    chroma, plus the chroma times the ramp at the channel's angle. *)
Lemma hls_to_rgb_near (fh fl fs : float) (eta : R) (kl ks : Z) :
  near fh eta 1 -> (0 <= eta <= 1)%R ->
  near fl (IZR kl / 100) 1 -> near fs (IZR ks / 100) 1 ->
  0 <= kl <= 100 -> 0 <= ks <= 100 ->
  let lam := (IZR kl / 100)%R in
  let c := (IZR ks / 100 * tent lam)%R in
  exists (r g b : float) (tr tg tb : R),
    colorsys.hls_to_rgb fh fl fs = ret (r, g, b)
    /\ on_turn eta (1 / 3) tr /\ near r (lam - c + 2 * c * trapezoid tr) 300
    /\ on_turn eta 0 tg /\ near g (lam - c + 2 * c * trapezoid tg) 300
    /\ on_turn eta (- (1 / 3)) tb
    /\ near b (lam - c + 2 * c * trapezoid tb) 300.
Proof.
  pose proof ulp_bound_small as Hu.
  intros Nh Bh Nl Ns Hl Hs. cbv zeta. unfold colorsys.hls_to_rgb.
  pose proof (small_quotient kl 100 ltac:(lia) Hl) as Bl.
  pose proof (small_quotient ks 100 ltac:(lia) Hs) as Bs.
  set (lam := (IZR kl / 100)%R) in *. set (sig := (IZR ks / 100)%R) in *.
  unfold tent.
  assert (Hmin : (0 <= Rmin lam (1 - lam) <= lam)%R
                 /\ (Rmin lam (1 - lam) <= 1 - lam)%R).
  { unfold Rmin. destruct (Rle_dec lam (1 - lam)); lra. }
  set (mn := Rmin lam (1 - lam)) in *.
  assert (Hlo : (0 <= lam - sig * mn <= lam + sig * mn)%R
                /\ (lam + sig * mn <= 1)%R) by nra.
  pose proof (eqb_FV fs 0 (proj1 Ns) I) as E0. rewrite FV_zero in E0.
  destruct (fs =? 0)%float.
  { assert (Z0 : ks = 0).
    { pose proof (near_bounds _ _ _ Ns) as B. rewrite E0 in B.
      assert (IZR ks < IZR 1)%R by (unfold sig in B; lra).
      apply lt_IZR in H. lia. }
    assert (S0 : sig = 0%R) by (unfold sig; rewrite Z0; lra).
    destruct (on_turn_exists eta (1 / 3) Bh ltac:(lra)) as (tr & Tr).
    destruct (on_turn_exists eta 0 Bh ltac:(lra)) as (tg & Tg).
    destruct (on_turn_exists eta (- (1 / 3)) Bh ltac:(lra)) as (tb & Tb).
    exists fl, fl, fl, tr, tg, tb. split; [reflexivity|].
    rewrite S0.
    assert (N : forall t, near fl (lam - 0 * mn + 2 * (0 * mn) * trapezoid t) 300).
    { intros t. replace (lam - 0 * mn + 2 * (0 * mn) * trapezoid t)%R
        with lam by ring.
      eapply near_weaken; [exact Nl|lra]. }
    split; [exact Tr|]. split; [apply N|]. split; [exact Tg|].
    split; [apply N|]. split; [exact Tb|apply N]. }
  (* the two extreme channel values *)
  assert (Hm : near (2 * fl - (if (fl <=? 0.5)%float then fl * (1 + fs)
                               else fl + fs - fl * fs)) (lam - sig * mn) 13
               /\ near (if (fl <=? 0.5)%float then fl * (1 + fs)
                        else fl + fs - fl * fs) (lam + sig * mn) 13).
  { pose proof (near_mul_2 2 fl 2 lam 0 1 (near_lit 2 2 I FV_2) Nl
                  ltac:(lra) ltac:(lra) ltac:(lra)
                  ltac:(apply Rabs_le; lra) ltac:(apply Rabs_le; lra)) as N2l.
    pose proof (percent_le_half fl kl Nl) as Hk.
    destruct (fl <=? 0.5)%float.
    - assert (Hlam : (lam <= 1 / 2)%R).
      { unfold lam. apply IZR_le in Hk. lra. }
      assert (Emn : mn = lam).
      { unfold mn, Rmin. destruct (Rle_dec lam (1 - lam)); lra. }
      pose proof (near_add _ _ _ _ _ _ (near_lit 1 1 I FV_one) Ns ltac:(lra)
                    ltac:(lra) ltac:(lra) ltac:(lra)) as N1s.
      pose proof (near_mul_2 _ _ _ _ _ _ Nl N1s ltac:(lra) ltac:(lra)
                    ltac:(lra) ltac:(apply Rabs_le; lra)
                    ltac:(apply Rabs_le; lra)) as Nm2.
      pose proof (near_sub _ _ _ _ _ _ N2l Nm2 ltac:(lra) ltac:(lra)
                    ltac:(lra) ltac:(nra)) as Nm1.
      rewrite Emn.
      replace (lam - sig * lam)%R with (2 * lam - lam * (1 + sig))%R by ring.
      replace (lam + sig * lam)%R with (lam * (1 + sig))%R by ring.
      split; [eapply near_weaken; [exact Nm1|lra]|].
      eapply near_weaken; [exact Nm2|lra].
    - assert (Hlam : (1 / 2 <= lam)%R).
      { unfold lam. apply IZR_le in Hk. lra. }
      assert (Emn : mn = (1 - lam)%R).
      { unfold mn, Rmin. destruct (Rle_dec lam (1 - lam)); lra. }
      pose proof (near_add _ _ _ _ _ _ Nl Ns ltac:(lra) ltac:(lra)
                    ltac:(lra) ltac:(lra)) as Nls.
      destruct (near_mul_unit fl fs _ _ 1 1 Nl Ns Bl Bs ltac:(lra)
                  ltac:(lra) ltac:(lra)) as [Nlxs Blxs].
      pose proof (near_sub _ _ _ _ _ _ Nls Nlxs ltac:(lra) ltac:(lra)
                    ltac:(lra) ltac:(lra)) as Nm2.
      pose proof (near_sub _ _ _ _ _ _ N2l Nm2 ltac:(lra) ltac:(lra)
                    ltac:(lra) ltac:(nra)) as Nm1.
      rewrite Emn.
      replace (lam - sig * (1 - lam))%R
        with (2 * lam - (lam + sig - lam * sig))%R by ring.
      replace (lam + sig * (1 - lam))%R with (lam + sig - lam * sig)%R by ring.
      split; [eapply near_weaken; [exact Nm1|lra]|].
      eapply near_weaken; [exact Nm2|lra]. }
  destruct Hm as (Nm1 & Nm2).
  set (m2 := if (fl <=? 0.5)%float then (fl * (1 + fs))%float
             else (fl + fs - fl * fs)%float) in *.
  set (m1 := (2 * fl - m2)%float) in *.
  pose proof (near_bounds _ _ _ Nh) as BH.
  pose proof FV_ONE_THIRD as V3. apply Rabs_le_inv in V3.
  destruct (add_FV fh colorsys.ONE_THIRD (proj1 Nh) I) as [Fp Ep].
  { apply Rabs_le. lra. }
  destruct (sub_FV fh colorsys.ONE_THIRD (proj1 Nh) I) as [Fm Em].
  { apply Rabs_le. lra. }
  apply Rabs_le_inv in Ep, Em.
  destruct (_v_near m1 m2 _ _ _ Nm1 Nm2 (proj1 Hlo) (proj2 Hlo) Fp)
    as (r & tr & kr & Er & Br & Kr & Nr).
  destruct (_v_near m1 m2 _ _ _ Nm1 Nm2 (proj1 Hlo) (proj2 Hlo) (proj1 Nh))
    as (g & tg & kg & Eg & Bg & Kg & Ng).
  destruct (_v_near m1 m2 _ _ _ Nm1 Nm2 (proj1 Hlo) (proj2 Hlo) Fm)
    as (b & tb & kb & Eb & Bb & Kb & Nb).
  rewrite Er. cbn [bind ret]. rewrite Eg. cbn [bind ret].
  rewrite Eb. cbn [bind ret].
  apply Rabs_le_inv in Kr, Kg, Kb.
  assert (F : forall t, (lam - sig * mn + (lam + sig * mn - (lam - sig * mn))
                         * trapezoid t
                         = lam - sig * mn + 2 * (sig * mn) * trapezoid t)%R).
  { intros t. ring. }
  rewrite F in Nr, Ng, Nb.
  exists r, g, b, tr, tg, tb. split; [reflexivity|].
  split; [exists kr; split; [exact Br|apply Rabs_le; lra]|].
  split; [exact Nr|].
  split; [exists kg; split; [exact Bg|apply Rabs_le; lra]|].
  split; [exact Ng|].
  split; [exists kb; split; [exact Bb|apply Rabs_le; lra]|].
  exact Nb.
Qed.

(** ** How far the quantised colour is from the original *)

Lemma product_within (p q d : R) :
  (Rabs p <= d)%R -> (Rabs q <= 1)%R -> (Rabs (p * q) <= d)%R.
Proof.
  intros Hp Hq. rewrite Rabs_mult.
  pose proof (Rabs_pos p). pose proof (Rabs_pos q). nra.
Qed.

Lemma chroma_error (L S lq sq dl ds : R) :
  (0 <= L <= 1)%R -> (0 <= S <= 1)%R -> (0 <= lq <= 1)%R ->
  (Rabs (lq - L) <= dl)%R -> (Rabs (sq - S) <= ds)%R ->
  (Rabs (sq * tent lq - S * tent L) <= ds / 2 + dl)%R.
Proof.
  intros HL HS Hlq Hl Hs.
  pose proof (tent_range L HL) as Bb. pose proof (tent_range lq Hlq) as Ba.
  pose proof (tent_lipschitz lq L dl Hl) as Hab.
  replace (sq * tent lq - S * tent L)%R
    with ((sq - S) * (2 * tent lq) * / 2 + (tent lq - tent L) * S)%R by field.
  eapply Rle_trans; [apply Rabs_triang|].
  apply Rplus_le_compat.
  - rewrite Rabs_mult, (Rabs_pos_eq (/ 2)) by lra.
    assert (Rabs ((sq - S) * (2 * tent lq)) <= ds)%R.
    { apply product_within; [exact Hs|]. apply Rabs_le. lra. }
    lra.
  - apply product_within; [exact Hab|]. apply Rabs_le. lra.
Qed.

Lemma channel_error (L C T lq Cq Tq dl dC dt : R) :
  (0 <= C <= 1 / 2)%R -> (0 <= Tq <= 1)%R ->
  (Rabs (lq - L) <= dl)%R -> (Rabs (Cq - C) <= dC)%R ->
  (Rabs (Tq - T) <= dt)%R ->
  (Rabs (lq - Cq + 2 * Cq * Tq - (L - C + 2 * C * T)) <= dl + dC + dt)%R.
Proof.
  intros HC HT Hl Hc Ht.
  replace (lq - Cq + 2 * Cq * Tq - (L - C + 2 * C * T))%R
    with ((lq - L) + (Cq - C) * (2 * Tq - 1) + (Tq - T) * (2 * C))%R by ring.
  eapply Rle_trans; [apply Rabs_triang|].
  apply Rplus_le_compat.
  - eapply Rle_trans; [apply Rabs_triang|].
    apply Rplus_le_compat; [exact Hl|].
    apply product_within; [exact Hc|]. apply Rabs_le. lra.
  - apply product_within; [exact Ht|]. apply Rabs_le. lra.
Qed.

Lemma channel_in_unit (lam sig T : R) :
  (0 <= lam <= 1)%R -> (0 <= sig <= 1)%R -> (0 <= T <= 1)%R ->
  (0 <= lam - sig * tent lam + 2 * (sig * tent lam) * T <= 1)%R.
Proof.
  intros Hl Hs HT.
  assert (Hm : (0 <= tent lam <= lam)%R /\ (tent lam <= 1 - lam)%R).
  { unfold tent, Rmin. destruct (Rle_dec lam (1 - lam)); lra. }
  set (mn := tent lam) in *.
  assert (HP : (0 <= sig * mn <= mn)%R) by nra.
  set (P := (sig * mn)%R) in *.
  assert (HPT : (0 <= P * T <= P)%R) by nra.
  lra.
Qed.

Lemma percent_error (z : Z) (a : R) :
  (Rabs (IZR z - a * IZR 100) <= 1 / 2 + 1 / 1000)%R ->
  (Rabs (IZR z / 100 - a) <= 501 / 100000)%R.
Proof.
  intros H. apply Rabs_le_inv in H. apply Rabs_le. lra.
Qed.

(** One channel of the round trip through integer HSL: the byte that comes
    back is at most five away. *)
Lemma channel_close (L S x eta6 sigma ah tq : R) (hi si li k1 cz c' : Z) :
  (0 <= L <= 1)%R -> (0 <= S <= 1)%R -> (0 <= x <= 1)%R ->
  (IZR cz / 255 = L - S * tent L + 2 * (S * tent L) * x)%R ->
  (Rabs (ah - (eta6 - IZR k1)) <= 3608 * ulp_bound)%R ->
  (Rabs (IZR hi - ah * IZR 360) <= 1 / 2 + 1 / 1000)%R ->
  (Rabs (IZR si - S * IZR 100) <= 1 / 2 + 1 / 1000)%R ->
  (Rabs (IZR li - L * IZR 100) <= 1 / 2 + 1 / 1000)%R ->
  0 <= si <= 100 -> 0 <= li <= 100 ->
  on_turn (IZR hi / 360) sigma tq ->
  (S * tent L = 0)%R \/ reduced eta6 sigma x ->
  (Rabs (IZR c' - (IZR li / 100 - IZR si / 100 * tent (IZR li / 100)
                   + 2 * (IZR si / 100 * tent (IZR li / 100)) * trapezoid tq)
                  * IZR 255) <= 1 / 2 + 1 / 1000)%R ->
  Z.abs (c' - cz) <= 5.
Proof.
  pose proof ulp_bound_small as Hu.
  intros HL HS Hx Ec Hah Hhi Hsi Hli Rsi Rli (k2 & Btq & Ktq) Hred Hc'.
  pose proof (small_quotient li 100 ltac:(lia) Rli) as Blq.
  pose proof (small_quotient si 100 ltac:(lia) Rsi) as Bsq.
  set (lq := (IZR li / 100)%R) in *. set (sq := (IZR si / 100)%R) in *.
  pose proof (percent_error li L Hli) as Dl. fold lq in Dl.
  pose proof (percent_error si S Hsi) as Ds. fold sq in Ds.
  pose proof (chroma_error L S lq sq _ _ HL HS Blq Dl Ds) as DC.
  pose proof (tent_range L HL) as BtL.
  assert (BC : (0 <= S * tent L <= 1 / 2)%R) by nra.
  pose proof (trapezoid_range tq) as BTq.
  (* the ramp value the exact channel corresponds to *)
  assert (HT : exists T : R,
             (IZR cz / 255 = L - S * tent L + 2 * (S * tent L) * T)%R
             /\ (Rabs (trapezoid tq - T) <= 6 * (14 / 10000))%R).
  { destruct Hred as [Z0|(k3 & Bth & Eth)].
    - exists (trapezoid tq). split.
      + rewrite Ec, Z0. ring.
      + replace (trapezoid tq - trapezoid tq)%R with 0%R by ring.
        rewrite Rabs_R0. lra.
    - exists x. split; [exact Ec|]. rewrite <- Eth.
      apply (trapezoid_circle _ _ _ (k3 - k1 - k2)); [exact Btq|exact Bth|lra|].
      apply Rabs_le_inv in Hah, Hhi, Ktq. rewrite !minus_IZR.
      apply Rabs_le. lra. }
  destruct HT as (T & ET & DT).
  pose proof (channel_error L (S * tent L) T lq (sq * tent lq) (trapezoid tq)
                _ _ _ BC BTq Dl DC DT) as DE.
  rewrite <- ET in DE.
  apply Rabs_le_inv in DE, Hc'.
  assert (Hlt : (IZR (c' - cz) < IZR 6)%R /\ (IZR (-6) < IZR (c' - cz))%R).
  { rewrite minus_IZR. split; lra. }
  destruct Hlt as [H1 H2]. apply lt_IZR in H1, H2. lia.
Qed.

Lemma roundtrip_close (r g b : Z) :
  0 <= r <= 255 -> 0 <= g <= 255 -> 0 <= b <= 255 ->
  exists r' g' b',
    rgb_hsl_roundtrip r g b = ret (mkRGB r' g' b')
    /\ Z.abs (r' - r) <= 5 /\ Z.abs (g' - g) <= 5 /\ Z.abs (b' - b) <= 5.
Proof.
  pose proof ulp_bound_small as Hu.
  intros Hr Hg Hb. unfold rgb_hsl_roundtrip, rgb_to_hsl.
  destruct (chan_exists r Hr) as (fr & Cr).
  destruct (chan_exists g Hg) as (fg & Cg).
  destruct (chan_exists b Hb) as (fb & Cb).
  rewrite (proj2 Cr), (proj2 Cg), (proj2 Cb). cbn [bind ret].
  destruct (rgb_to_hls_exact fr fg fb r g b Cr Cg Cb)
    as (h & l & s & aS & eta & k1 & E & Nl & Ns & Bs & Is & Fh & Bh & Kh & Cs).
  cbv zeta in *. rewrite E. cbn [bind ret].
  assert (HM : 0 <= Z.max (Z.max r g) b <= 255) by lia.
  assert (Hm : 0 <= Z.min (Z.min r g) b <= 255) by lia.
  assert (Hmr : Z.min (Z.min r g) b <= r <= Z.max (Z.max r g) b) by lia.
  assert (Hmg : Z.min (Z.min r g) b <= g <= Z.max (Z.max r g) b) by lia.
  assert (Hmb : Z.min (Z.min r g) b <= b <= Z.max (Z.max r g) b) by lia.
  set (M := Z.max (Z.max r g) b) in *. set (m := Z.min (Z.min r g) b) in *.
  pose proof (byte_unit M HM) as Umu. pose proof (byte_unit m Hm) as Unu.
  pose proof (div255_le m r (proj1 Hmr)) as Lr.
  pose proof (div255_le r M (proj2 Hmr)) as Ur.
  pose proof (div255_le m g (proj1 Hmg)) as Lg.
  pose proof (div255_le g M (proj2 Hmg)) as Ug.
  pose proof (div255_le m b (proj1 Hmb)) as Lb.
  pose proof (div255_le b M (proj2 Hmb)) as Ub.
  set (mu := (IZR M / 255)%R) in *. set (nu := (IZR m / 255)%R) in *.
  set (L := ((mu + nu) / 2)%R) in *.
  assert (BL : (0 <= L <= 1)%R) by (unfold L; lra).
  destruct (clamp_interval (FV h) 0 1 1 ltac:(lra) ltac:(lra) ltac:(lra))
    as (ah & Bah & Nah).
  assert (Kah : (Rabs (ah - (eta / 6 - IZR k1)) <= 3608 * ulp_bound)%R).
  { apply Rabs_le_inv in Nah, Kh. apply Rabs_le. lra. }
  destruct (round_scaled_nearest h 360 ah 1 360 (conj Fh Nah) I FV_360
              ltac:(lia) ltac:(lra) Bah) as (hi & Ehi & Rhi & Dhi).
  destruct (round_scaled_nearest s 100 aS 2101 100 Ns I FV_100 ltac:(lia)
              ltac:(lra) Bs) as (si & Esi & Rsi & Dsi).
  destruct (round_scaled_nearest l 100 L 4 100 Nl I FV_100 ltac:(lia)
              ltac:(lra) BL) as (li & Eli & Rli & Dli).
  rewrite Ehi, Esi, Eli. cbn [bind ret hsl_h hsl_s hsl_l].
  unfold hsl_to_rgb. cbn [num_truediv].
  destruct (unit_truediv hi 360 ltac:(lia) Rhi) as (fh & Eh & Nh).
  destruct (unit_truediv li 100 ltac:(lia) Rli) as (fl & El & Nfl).
  destruct (unit_truediv si 100 ltac:(lia) Rsi) as (fs & Es & Nfs).
  rewrite Eh, El, Es. cbn [bind ret].
  destruct (hls_to_rgb_near fh fl fs _ li si Nh
              (small_quotient hi 360 ltac:(lia) Rhi) Nfl Nfs Rli Rsi)
    as (r0 & g0 & b0 & tr & tg & tb & E' & Tr & Nr & Tg & Ng & Tb & Nb).
  cbv zeta in *. rewrite E'. cbn [bind ret].
  pose proof (small_quotient li 100 ltac:(lia) Rli) as Blq.
  pose proof (small_quotient si 100 ltac:(lia) Rsi) as Bsq.
  destruct (round_scaled_nearest r0 255 _ 300 255 Nr I FV_255 ltac:(lia)
              ltac:(lra)
              (channel_in_unit _ _ _ Blq Bsq (trapezoid_range tr)))
    as (r' & Er' & Rr' & Dr').
  destruct (round_scaled_nearest g0 255 _ 300 255 Ng I FV_255 ltac:(lia)
              ltac:(lra)
              (channel_in_unit _ _ _ Blq Bsq (trapezoid_range tg)))
    as (g' & Eg' & Rg' & Dg').
  destruct (round_scaled_nearest b0 255 _ 300 255 Nb I FV_255 ltac:(lia)
              ltac:(lra)
              (channel_in_unit _ _ _ Blq Bsq (trapezoid_range tb)))
    as (b' & Eb' & Rb' & Db').
  rewrite Er', Eg', Eb'. cbn [bind ret].
  exists r', g', b'. split; [reflexivity|].
  assert (EC : (aS * tent L = (mu - nu) / 2)%R) by lra.
  (* the exact channels, scaled between the minimum and the maximum *)
  assert (HX : exists xr xg xb : R,
             (0 <= xr <= 1)%R /\ (0 <= xg <= 1)%R /\ (0 <= xb <= 1)%R
             /\ (IZR r / 255 = L - aS * tent L + 2 * (aS * tent L) * xr)%R
             /\ (IZR g / 255 = L - aS * tent L + 2 * (aS * tent L) * xg)%R
             /\ (IZR b / 255 = L - aS * tent L + 2 * (aS * tent L) * xb)%R
             /\ ((aS * tent L = 0)%R
                 \/ (reduced (eta / 6) (1 / 3) xr /\ reduced (eta / 6) 0 xg
                     /\ reduced (eta / 6) (- (1 / 3)) xb))).
  { destruct Cs as [EmM|[HmM Sx]].
    - assert (Emn : mu = nu) by (unfold mu, nu; rewrite EmM; reflexivity).
      exists 0%R, 0%R, 0%R. rewrite EC, Emn. unfold L. rewrite Emn.
      repeat (split; [lra|]). left. lra.
    - assert (Gap : (0 < mu - nu)%R).
      { apply IZR_lt in HmM. unfold mu, nu. lra. }
      set (xr := ((IZR r / 255 - nu) / (mu - nu))%R) in *.
      set (xg := ((IZR g / 255 - nu) / (mu - nu))%R) in *.
      set (xb := ((IZR b / 255 - nu) / (mu - nu))%R) in *.
      assert (U : forall c : R, (nu <= c <= mu)%R ->
                                (0 <= (c - nu) / (mu - nu) <= 1)%R).
      { intros c Hc. split.
        - apply Rmult_le_pos; [lra|]. left. apply Rinv_0_lt_compat. lra.
        - apply (Rmult_le_reg_r (mu - nu)); [lra|]. unfold Rdiv.
          rewrite Rmult_assoc, Rinv_l by lra. lra. }
      pose proof (U _ (conj Lr Ur)) as Xr. pose proof (U _ (conj Lg Ug)) as Xg.
      pose proof (U _ (conj Lb Ub)) as Xb. fold xr in Xr. fold xg in Xg.
      fold xb in Xb.
      exists xr, xg, xb. rewrite EC. unfold L.
      split; [exact Xr|]. split; [exact Xg|]. split; [exact Xb|].
      split; [unfold xr; field; lra|]. split; [unfold xg; field; lra|].
      split; [unfold xb; field; lra|]. right.
      split; [exact (sextant_red _ _ _ _ Xr Xg Xb Sx)|].
      split; [exact (sextant_green _ _ _ _ Xr Xg Xb Sx)|].
      exact (sextant_blue _ _ _ _ Xr Xg Xb Sx). }
  destruct HX as (xr & xg & xb & Xr & Xg & Xb & Cr' & Cg' & Cb' & Red).
  split; [|split].
  - apply (channel_close L aS xr (eta / 6) (1 / 3) ah tr hi si li k1 r r');
      try assumption.
    destruct Red as [Z0|(R1 & _ & _)]; [left; exact Z0|right; exact R1].
  - apply (channel_close L aS xg (eta / 6) 0 ah tg hi si li k1 g g');
      try assumption.
    destruct Red as [Z0|(_ & R1 & _)]; [left; exact Z0|right; exact R1].
  - apply (channel_close L aS xb (eta / 6) (- (1 / 3)) ah tb hi si li k1 b b');
      try assumption.
    destruct Red as [Z0|(_ & _ & R1)]; [left; exact Z0|right; exact R1].
Qed.

(** X19: for every byte triple the round trip through [rgb_to_hsl] and
    [hsl_to_rgb] returns a triple whose channels are each at most five away
    from the input. *)
Theorem roundtrip_within_5 (r g b : Z) :
  0 <= r <= 255 -> 0 <= g <= 255 -> 0 <= b <= 255 ->
  exists r' g' b',
    rgb_hsl_roundtrip r g b = ret (mkRGB r' g' b')
    /\ Z.abs (r' - r) <= 5 /\ Z.abs (g' - g) <= 5 /\ Z.abs (b' - b) <= 5.
Proof. exact (roundtrip_close r g b). Qed.

Lemma roundtrip_within_5_witness :
  exists r' g' b',
    rgb_hsl_roundtrip 2 228 230 = ret (mkRGB r' g' b')
    /\ Z.abs (r' - 2) <= 5 /\ Z.abs (g' - 228) <= 5 /\ Z.abs (b' - 230) <= 5.
Proof. apply (roundtrip_within_5 2 228 230); lia. Defined.

(** ** [rgb_to_hsl] rounds the textbook HSL values *)

Lemma rgb_to_hsl_exact (r g b : Z) :
  0 <= r <= 255 -> 0 <= g <= 255 -> 0 <= b <= 255 ->
  let M := Z.max (Z.max r g) b in
  let m := Z.min (Z.min r g) b in
  let mu := (IZR M / 255)%R in
  let nu := (IZR m / 255)%R in
  exists (hi si li : Z) (aS eta : R) (k : Z),
    rgb_to_hsl r g b = ret (mkHSL hi si li)
    /\ (Rabs (IZR li - (mu + nu) / 2 * IZR 100) <= 1 / 2 + 1 / 1000)%R
    /\ (Rabs (IZR si - aS * IZR 100) <= 1 / 2 + 1 / 1000)%R
    /\ (aS * (2 * tent ((mu + nu) / 2)) = mu - nu)%R
    /\ (Rabs (IZR hi - (eta / 6 - IZR k) * IZR 360) <= 1 / 2 + 11 / 10000)%R
    /\ (m = M
        \/ (m < M
            /\ sextant ((IZR r / 255 - nu) / (mu - nu))
                       ((IZR g / 255 - nu) / (mu - nu))
                       ((IZR b / 255 - nu) / (mu - nu)) eta)).
Proof.
  pose proof ulp_bound_small as Hu.
  intros Hr Hg Hb. cbv zeta. unfold rgb_to_hsl.
  destruct (chan_exists r Hr) as (fr & Cr).
  destruct (chan_exists g Hg) as (fg & Cg).
  destruct (chan_exists b Hb) as (fb & Cb).
  rewrite (proj2 Cr), (proj2 Cg), (proj2 Cb). cbn [bind ret].
  destruct (rgb_to_hls_exact fr fg fb r g b Cr Cg Cb)
    as (h & l & s & aS & eta & k1 & E & Nl & Ns & Bs & Is & Fh & Bh & Kh & Cs).
  cbv zeta in *. rewrite E. cbn [bind ret].
  assert (HM : 0 <= Z.max (Z.max r g) b <= 255) by lia.
  assert (Hm : 0 <= Z.min (Z.min r g) b <= 255) by lia.
  pose proof (byte_unit _ HM) as Umu. pose proof (byte_unit _ Hm) as Unu.
  destruct (clamp_interval (FV h) 0 1 1 ltac:(lra) ltac:(lra) ltac:(lra))
    as (ah & Bah & Nah).
  destruct (round_scaled_nearest h 360 ah 1 360 (conj Fh Nah) I FV_360
              ltac:(lia) ltac:(lra) Bah) as (hi & Ehi & Rhi & Dhi).
  destruct (round_scaled_nearest s 100 aS 2101 100 Ns I FV_100 ltac:(lia)
              ltac:(lra) Bs) as (si & Esi & Rsi & Dsi).
  destruct (round_scaled_nearest l 100 _ 4 100 Nl I FV_100 ltac:(lia)
              ltac:(lra) ltac:(lra)) as (li & Eli & Rli & Dli).
  rewrite Ehi, Esi, Eli. cbn [bind ret].
  exists hi, si, li, aS, eta, k1. split; [reflexivity|].
  split; [exact Dli|]. split; [exact Dsi|]. split; [exact Is|].
  split; [|exact Cs].
  apply Rabs_le_inv in Nah, Kh, Dhi. apply Rabs_le. lra.
Qed.

Lemma scaled_nearest (z n d : Z) (a : R) :
  0 < d <= 255 -> (a * IZR d = IZR n)%R ->
  (Rabs (IZR z - a) <= 1 / 2 + 11 / 10000)%R ->
  2 * Z.abs (z * d - n) <= d.
Proof.
  intros Hd Ea H. apply Rabs_le_inv in H.
  assert (Hd1 : (0 < IZR d <= 255)%R).
  { split; [apply IZR_lt|apply IZR_le]; lia. }
  assert (E : (IZR (z * d - n) = (IZR z - a) * IZR d)%R).
  { rewrite minus_IZR, mult_IZR, <- Ea. ring. }
  assert (B : (- (IZR d / 2 + 3 / 10) <= IZR (z * d - n)
               <= IZR d / 2 + 3 / 10)%R).
  { rewrite E. nra. }
  assert (H1 : (IZR (2 * (z * d - n)) < IZR (d + 1))%R).
  { rewrite mult_IZR, plus_IZR. lra. }
  assert (H2 : (IZR (- (d + 1)) < IZR (2 * (z * d - n)))%R).
  { rewrite mult_IZR, opp_IZR, plus_IZR. lra. }
  apply lt_IZR in H1, H2. lia.
Qed.

(** X20: [rgb_to_hsl] returns the lightness [100 * (max + min) / 510] and,
    off the grey axis, the saturation [100 * (max - min) / D] with
    [D = min (max + min, 510 - max - min)], each rounded to a nearest
    integer. *)
Theorem rgb_to_hsl_lightness_saturation (r g b : Z) :
  0 <= r <= 255 -> 0 <= g <= 255 -> 0 <= b <= 255 ->
  let M := Z.max (Z.max r g) b in
  let m := Z.min (Z.min r g) b in
  let D := Z.min (M + m) (510 - (M + m)) in
  exists h s l,
    rgb_to_hsl r g b = ret (mkHSL h s l)
    /\ Z.abs (510 * l - 100 * (M + m)) <= 255
    /\ (m < M -> 2 * Z.abs (s * D - 100 * (M - m)) <= D).
Proof.
  intros Hr Hg Hb. cbv zeta.
  destruct (rgb_to_hsl_exact r g b Hr Hg Hb)
    as (hi & si & li & aS & eta & k & E & Dl & Ds & Is & Dh & Cs).
  cbv zeta in *.
  assert (HM : 0 <= Z.max (Z.max r g) b <= 255) by lia.
  assert (Hm : 0 <= Z.min (Z.min r g) b <= 255) by lia.
  assert (HmM : Z.min (Z.min r g) b <= Z.max (Z.max r g) b) by lia.
  set (M := Z.max (Z.max r g) b) in *. set (m := Z.min (Z.min r g) b) in *.
  exists hi, si, li. split; [exact E|]. split.
  - pose proof (scaled_nearest li (50 * (M + m)) 255
                  ((IZR M / 255 + IZR m / 255) / 2 * IZR 100)%R ltac:(lia)) as H.
    assert (2 * Z.abs (li * 255 - 50 * (M + m)) <= 255).
    { apply H.
      - rewrite mult_IZR, plus_IZR. field.
      - apply Rabs_le_inv in Dl. apply Rabs_le. lra. }
    clear - H0. lia.
  - intros Hlt.
    set (D := Z.min (M + m) (510 - (M + m))).
    assert (HD : 0 < D <= 255) by (clear - HM Hm Hlt; unfold D; lia).
    apply (scaled_nearest si (100 * (M - m)) D (aS * IZR 100)%R HD).
    + assert (ET : (2 * tent ((IZR M / 255 + IZR m / 255) / 2)
                    = IZR D / 255)%R).
      { unfold tent, D.
        destruct (Z_le_gt_dec (M + m) (510 - (M + m))) as [Hc|Hc].
        - rewrite Z.min_l by exact Hc. apply IZR_le in Hc.
          rewrite minus_IZR, plus_IZR in *.
          rewrite Rmin_left by lra. lra.
        - rewrite Z.min_r by lia. apply Z.gt_lt, IZR_lt in Hc.
          rewrite minus_IZR, plus_IZR in *.
          rewrite Rmin_right by lra. lra. }
      rewrite ET in Is. rewrite mult_IZR, minus_IZR. lra.
    + apply Rabs_le_inv in Ds. apply Rabs_le. lra.
Qed.

Lemma rgb_to_hsl_lightness_saturation_witness :
  exists h s l,
    rgb_to_hsl 2 228 230 = ret (mkHSL h s l)
    /\ Z.abs (510 * l - 100 * (230 + 2)) <= 255
    /\ (2 < 230 -> 2 * Z.abs (s * 232 - 100 * (230 - 2)) <= 232).
Proof. apply (rgb_to_hsl_lightness_saturation 2 228 230); lia. Defined.

(** X21: off the grey axis, [rgb_to_hsl] returns the textbook hue in
    degrees, [60 * N / (max - min)] up to whole turns, rounded to a nearest
    integer; [N] is [g - b] when red is the maximum, [2 * (max - min) + b - r]
    when green is, and [4 * (max - min) + r - g] when blue is. *)
Theorem rgb_to_hsl_hue (r g b : Z) :
  0 <= r <= 255 -> 0 <= g <= 255 -> 0 <= b <= 255 ->
  let M := Z.max (Z.max r g) b in
  let m := Z.min (Z.min r g) b in
  m < M ->
  exists h s l k N,
    rgb_to_hsl r g b = ret (mkHSL h s l)
    /\ ((r = M /\ N = g - b)
        \/ (g = M /\ N = 2 * (M - m) + (b - r))
        \/ (b = M /\ N = 4 * (M - m) + (r - g)))
    /\ 2 * Z.abs (h * (M - m) - (60 * N + 360 * k * (M - m))) <= M - m.
Proof.
  intros Hr Hg Hb. cbv zeta.
  destruct (rgb_to_hsl_exact r g b Hr Hg Hb)
    as (hi & si & li & aS & eta & k & E & Dl & Ds & Is & Dh & Cs).
  cbv zeta in *.
  assert (HM : 0 <= Z.max (Z.max r g) b <= 255) by lia.
  assert (Hm : 0 <= Z.min (Z.min r g) b <= 255) by lia.
  set (M := Z.max (Z.max r g) b) in *. set (m := Z.min (Z.min r g) b) in *.
  intros Hlt. destruct Cs as [Eq|[_ Sx]]; [lia|].
  assert (Gap : (0 < IZR M - IZR m)%R) by (apply IZR_lt in Hlt; lra).
  assert (Top : forall c : Z,
             ((IZR c / 255 - IZR m / 255) / (IZR M / 255 - IZR m / 255) = 1)%R ->
             c = M).
  { intros c H. apply eq_IZR.
    apply (Rmult_eq_compat_r (IZR M / 255 - IZR m / 255)) in H.
    unfold Rdiv at 1 in H. rewrite Rmult_assoc, Rinv_l in H by lra. lra. }
  assert (Sc : forall c : Z,
             ((IZR c / 255 - IZR m / 255) / (IZR M / 255 - IZR m / 255)
              * IZR (M - m) = IZR c - IZR m)%R).
  { intros c. rewrite minus_IZR. field. lra. }
  assert (HN : exists N : Z,
             ((r = M /\ N = g - b)
              \/ (g = M /\ N = 2 * (M - m) + (b - r))
              \/ (b = M /\ N = 4 * (M - m) + (r - g)))
             /\ (eta * IZR (M - m) = IZR N)%R).
  { destruct Sx as [(E1 & E2 & _)|[(E1 & E2 & _)|(E1 & E2 & _)]].
    - exists (g - b). split; [left; split; [exact (Top r E1)|reflexivity]|].
      rewrite E2, Rmult_minus_distr_r, !Sc, minus_IZR. lra.
    - exists (2 * (M - m) + (b - r)).
      split; [right; left; split; [exact (Top g E1)|reflexivity]|].
      rewrite E2, Rmult_minus_distr_r, Rmult_plus_distr_r, !Sc.
      rewrite plus_IZR, mult_IZR, !minus_IZR. lra.
    - exists (4 * (M - m) + (r - g)).
      split; [right; right; split; [exact (Top b E1)|reflexivity]|].
      rewrite E2, Rmult_minus_distr_r, Rmult_plus_distr_r, !Sc.
      rewrite plus_IZR, mult_IZR, !minus_IZR. lra. }
  destruct HN as (N & HN & EN).
  exists hi, si, li, (- k), N. split; [exact E|]. split; [exact HN|].
  apply (scaled_nearest hi _ (M - m) ((eta / 6 - IZR k) * IZR 360)%R);
    [lia| |exact Dh].
  rewrite plus_IZR, !mult_IZR, opp_IZR.
  replace ((eta / 6 - IZR k) * 360 * IZR (M - m))%R
    with (60 * (eta * IZR (M - m)) - 360 * IZR k * IZR (M - m))%R by field.
  rewrite EN. lra.
Qed.

Lemma rgb_to_hsl_hue_witness :
  exists h s l k N,
    rgb_to_hsl 2 228 230 = ret (mkHSL h s l)
    /\ ((2 = 230 /\ N = 228 - 230)
        \/ (228 = 230 /\ N = 2 * (230 - 2) + (230 - 2))
        \/ (230 = 230 /\ N = 4 * (230 - 2) + (2 - 228)))
    /\ 2 * Z.abs (h * (230 - 2) - (60 * N + 360 * k * (230 - 2))) <= 230 - 2.
Proof. apply (rgb_to_hsl_hue 2 228 230); lia. Defined.

(** ** [hsl_to_rgb] rounds the textbook channel values *)

Lemma channel_nearest (eta sigma tq lam sig : R) (c' : Z) :
  (0 <= eta <= 1)%R -> (-1 <= sigma <= 1)%R ->
  (0 <= lam <= 1)%R -> (0 <= sig <= 1)%R ->
  on_turn eta sigma tq ->
  (Rabs (IZR c' - (lam - sig * tent lam + 2 * (sig * tent lam) * trapezoid tq)
                  * IZR 255) <= 1 / 2 + 1 / 1000)%R ->
  exists T : R,
    reduced eta sigma T
    /\ (Rabs (IZR c' - 255 * (lam - sig * tent lam + 2 * (sig * tent lam) * T))
        <= 1 / 2 + 2 / 1000)%R.
Proof.
  pose proof ulp_bound_small as Hu.
  intros He Hs Hl Hg (k2 & Bt & Kt) Hc.
  pose proof (tent_range lam Hl) as Bm.
  assert (BC : (0 <= sig * tent lam <= 1 / 2)%R) by nra.
  set (C := (sig * tent lam)%R) in *.
  assert (Hk : exists k : Z, (0 <= eta + sigma - IZR k <= 1)%R).
  { destruct (Rle_dec 0 (eta + sigma)) as [H0|H0].
    - destruct (Rle_dec (eta + sigma) 1) as [H1|H1].
      + exists 0. lra.
      + exists 1. lra.
    - exists (-1). simpl. lra. }
  destruct Hk as (k & Bk).
  exists (trapezoid (eta + sigma - IZR k)). split.
  - exists k. split; [exact Bk|reflexivity].
  - pose proof (trapezoid_circle tq (eta + sigma - IZR k) (12 * ulp_bound)
                  (k - k2) Bt Bk ltac:(lra)) as Hc'.
    assert (D : (Rabs (trapezoid tq - trapezoid (eta + sigma - IZR k))
                 <= 6 * (12 * ulp_bound))%R).
    { apply Hc'. rewrite minus_IZR. apply Rabs_le_inv in Kt.
      apply Rabs_le. lra. }
    set (T := trapezoid (eta + sigma - IZR k)) in *.
    set (Tq := trapezoid tq) in *.
    apply Rabs_le_inv in D, Hc.
    assert (P : (- (72 * ulp_bound) <= C * (Tq - T) <= 72 * ulp_bound)%R) by nra.
    apply Rabs_le.
    replace (255 * (lam - C + 2 * C * T))%R
      with ((lam - C + 2 * C * Tq) * 255 - 510 * (C * (Tq - T)))%R by ring.
    lra.
Qed.

(** X22: on integer hue, saturation and lightness in range, every channel
    [hsl_to_rgb] returns is the textbook value
    [255 * (l - c + 2 * c * T)], with [c = s * min (l, 1 - l)] and [T] the ramp
    at the channel's angle ([h + 1/3], [h], [h - 1/3] brought into one turn),
    rounded to a nearest integer. *)
Theorem hsl_to_rgb_nearest (h s l : Z) :
  0 <= h <= 360 -> 0 <= s <= 100 -> 0 <= l <= 100 ->
  let eta := (IZR h / 360)%R in
  let lam := (IZR l / 100)%R in
  let c := (IZR s / 100 * tent lam)%R in
  exists (r g b : Z) (Tr Tg Tb : R),
    hsl_to_rgb (PyInt h) (PyInt s) (PyInt l) = ret (mkRGB r g b)
    /\ reduced eta (1 / 3) Tr /\ reduced eta 0 Tg /\ reduced eta (- (1 / 3)) Tb
    /\ (Rabs (IZR r - 255 * (lam - c + 2 * c * Tr)) <= 1 / 2 + 2 / 1000)%R
    /\ (Rabs (IZR g - 255 * (lam - c + 2 * c * Tg)) <= 1 / 2 + 2 / 1000)%R
    /\ (Rabs (IZR b - 255 * (lam - c + 2 * c * Tb)) <= 1 / 2 + 2 / 1000)%R.
Proof.
  intros Hh Hs Hl. cbv zeta. unfold hsl_to_rgb. cbn [num_truediv].
  destruct (unit_truediv h 360 ltac:(lia) Hh) as (fh & Eh & Nh).
  destruct (unit_truediv l 100 ltac:(lia) Hl) as (fl & El & Nfl).
  destruct (unit_truediv s 100 ltac:(lia) Hs) as (fs & Es & Nfs).
  rewrite Eh, El, Es. cbn [bind ret].
  pose proof (small_quotient h 360 ltac:(lia) Hh) as Bh.
  pose proof (small_quotient l 100 ltac:(lia) Hl) as Bl.
  pose proof (small_quotient s 100 ltac:(lia) Hs) as Bs.
  destruct (hls_to_rgb_near fh fl fs _ l s Nh Bh Nfl Nfs Hl Hs)
    as (r0 & g0 & b0 & tr & tg & tb & E' & Tr & Nr & Tg & Ng & Tb & Nb).
  cbv zeta in *. rewrite E'. cbn [bind ret].
  destruct (round_scaled_nearest r0 255 _ 300 255 Nr I FV_255 ltac:(lia)
              ltac:(lra)
              (channel_in_unit _ _ _ Bl Bs (trapezoid_range tr)))
    as (r' & Er' & Rr' & Dr').
  destruct (round_scaled_nearest g0 255 _ 300 255 Ng I FV_255 ltac:(lia)
              ltac:(lra)
              (channel_in_unit _ _ _ Bl Bs (trapezoid_range tg)))
    as (g' & Eg' & Rg' & Dg').
  destruct (round_scaled_nearest b0 255 _ 300 255 Nb I FV_255 ltac:(lia)
              ltac:(lra)
              (channel_in_unit _ _ _ Bl Bs (trapezoid_range tb)))
    as (b' & Eb' & Rb' & Db').
  rewrite Er', Eg', Eb'. cbn [bind ret].
  destruct (channel_nearest _ (1 / 3) _ _ _ r' Bh ltac:(lra) Bl Bs Tr Dr')
    as (T1 & R1 & D1).
  destruct (channel_nearest _ 0 _ _ _ g' Bh ltac:(lra) Bl Bs Tg Dg')
    as (T2 & R2 & D2).
  destruct (channel_nearest _ (- (1 / 3)) _ _ _ b' Bh ltac:(lra) Bl Bs Tb Db')
    as (T3 & R3 & D3).
  exists r', g', b', T1, T2, T3. split; [reflexivity|].
  repeat (split; [assumption|]). assumption.
Qed.

Lemma hsl_to_rgb_nearest_witness :
  exists (r g b : Z) (Tr Tg Tb : R),
    hsl_to_rgb (PyInt 181) (PyInt 98) (PyInt 45) = ret (mkRGB r g b)
    /\ reduced (IZR 181 / 360) (1 / 3) Tr /\ reduced (IZR 181 / 360) 0 Tg
    /\ reduced (IZR 181 / 360) (- (1 / 3)) Tb
    /\ (Rabs (IZR r - 255 * (IZR 45 / 100 - IZR 98 / 100 * tent (IZR 45 / 100)
                             + 2 * (IZR 98 / 100 * tent (IZR 45 / 100)) * Tr))
        <= 1 / 2 + 2 / 1000)%R
    /\ (Rabs (IZR g - 255 * (IZR 45 / 100 - IZR 98 / 100 * tent (IZR 45 / 100)
                             + 2 * (IZR 98 / 100 * tent (IZR 45 / 100)) * Tg))
        <= 1 / 2 + 2 / 1000)%R
    /\ (Rabs (IZR b - 255 * (IZR 45 / 100 - IZR 98 / 100 * tent (IZR 45 / 100)
                             + 2 * (IZR 98 / 100 * tent (IZR 45 / 100)) * Tb))
        <= 1 / 2 + 2 / 1000)%R.
Proof. apply (hsl_to_rgb_nearest 181 98 45); lia. Defined.

(** ** The round trip, all together *)

(** C1 (as amended): for every byte triple the round trip through
    [rgb_to_hsl] and [hsl_to_rgb] returns a byte triple whose channels are
    each at most five away from the input; on a grey input the result is
    grey and at most one away. *)
Theorem roundtrip_within_5_grey_within_1 (r g b : Z) :
  0 <= r <= 255 -> 0 <= g <= 255 -> 0 <= b <= 255 ->
  exists r' g' b',
    rgb_hsl_roundtrip r g b = ret (mkRGB r' g' b')
    /\ Z.abs (r' - r) <= 5 /\ Z.abs (g' - g) <= 5 /\ Z.abs (b' - b) <= 5
    /\ 0 <= r' <= 255 /\ 0 <= g' <= 255 /\ 0 <= b' <= 255
    /\ (r = g -> g = b -> r' = g' /\ g' = b' /\ Z.abs (r' - r) <= 1).
Proof.
  intros Hr Hg Hb.
  destruct (roundtrip_range_grey r g b Hr Hg Hb)
    as (r' & g' & b' & E & Rr & Rg & Rb & G).
  destruct (roundtrip_close r g b Hr Hg Hb)
    as (r2 & g2 & b2 & E2 & Dr & Dg & Db).
  rewrite E in E2. injection E2 as <- <- <-.
  exists r', g', b'. split; [exact E|].
  repeat (split; [assumption|]). exact G.
Qed.

Lemma roundtrip_within_5_grey_within_1_witness :
  exists r' g' b',
    rgb_hsl_roundtrip 77 77 77 = ret (mkRGB r' g' b')
    /\ Z.abs (r' - 77) <= 5 /\ Z.abs (g' - 77) <= 5 /\ Z.abs (b' - 77) <= 5
    /\ 0 <= r' <= 255 /\ 0 <= g' <= 255 /\ 0 <= b' <= 255
    /\ (77 = 77 -> 77 = 77 ->
        r' = g' /\ g' = b' /\ Z.abs (r' - 77) <= 1).
Proof. apply (roundtrip_within_5_grey_within_1 77 77 77); lia. Defined.
